(** * go-errors/errors: errors that carry a stack trace

    A shallow embedding of the package's source.  The repository holds two
    renditions of [error.go]:

    - the one whose [Error] is an interface implemented by [wrappedError]
      (fields [err], [stack], [frames], [prefix]) -- module [Prefixed];
    - the one whose [Error] is a struct with the exported fields [Err],
      [Stack], [Description], [Title] -- module [Titled];

    together with [error_backward.go] (the [Is] of builds before go1.13) and
    the go1.13 test [TestIs113] with its [errorWithCustomIs] type.

    Go values are modelled as follows.  An [error] interface value is [nil]
    or a dynamic value of one of the error types that occur in the package;
    pointers are heap locations, and [==] on interface values compares
    pointers by location and struct values field by field.  A run-time panic
    (nil dereference, [make] with a negative length, a call through a nil
    interface) is the result [None].

    The functions that recurse through the heap ([Is], [Error()]) take one
    unit of fuel per dereferenced cell and run with as much fuel as the heap
    has cells (twice as much for the two operands of [Is]); on a heap
    without cycles more fuel never changes a result ([Is_gen_verdict],
    [error_Error_enough], [error_Error_fuel_enough]). *)

From stdpp Require Import base list strings.
From Stdlib Require Import ZArith Lia Ascii.
From Stdlib Require DecimalString HexadecimalString.

Set Default Proof Using "Type".
Open Scope string_scope.

(* ================================================================= *)
(** ** Values shared by both renditions *)

Module Common.

(** A heap location (the address held by a Go pointer). *)
Abbreviation loc := nat (only parsing).

(** [uintptr]: a raw program counter. *)
Abbreviation uintptr := N (only parsing).

(** The [error] interface values the package handles.

    - [nil]: the nil interface;
    - [wrapper p]: a [*wrappedError] (resp. [*Error]) pointing at heap cell [p];
    - [errorString p s]: the [*errors.errorString] made by [fmt.Errorf] (and
      [io.EOF]); [p] is its address, [s] its immutable text;
    - [errorWithCustomIs Key Err]: the struct value of the go1.13 test;
    - [uncaughtPanic message]: the captured runtime fault of [parse_panic.go]. *)
Inductive error : Type :=
| nil
| wrapper (p : loc)
| errorString (p : loc) (s : string)
| errorWithCustomIs (Key : string) (Err : error)
| uncaughtPanic (message : string).

(** An [interface{}] argument: an error (possibly the nil interface) or some
    other printable value. *)
Inductive value : Type :=
| of_error (e : error)
| of_string (s : string)
| of_int (z : Z).

(** [e == original] on two interface values: same dynamic type and equal
    dynamic values; pointers are equal when they hold the same address. *)
Fixpoint iface_eq (e original : error) : bool :=
  match e, original with
  | nil, nil => true
  | wrapper p, wrapper q => Nat.eqb p q
  | errorString p _, errorString q _ => Nat.eqb p q
  | errorWithCustomIs k1 e1, errorWithCustomIs k2 e2 =>
      String.eqb k1 k2 && iface_eq e1 e2
  | uncaughtPanic m1, uncaughtPanic m2 => String.eqb m1 m2
  | _, _ => false
  end.

(** [func (ewci errorWithCustomIs) Is(target error) bool]:
    [matched, ok := target.(errorWithCustomIs); return ok && matched.Key == ewci.Key]. *)
Definition errorWithCustomIs_Is (Key : string) (target : error) : bool :=
  match target with
  | errorWithCustomIs Key' _ => String.eqb Key' Key
  | _ => false
  end.

(** The custom equality hook of a value, when its dynamic type has the
    method [Is(error) bool]; only [errorWithCustomIs] declares one. *)
Definition Is_hook (e : error) : option (error -> bool) :=
  match e with
  | errorWithCustomIs Key _ => Some (errorWithCustomIs_Is Key)
  | _ => None
  end.

(** [io.EOF], a package-level [*errors.errorString]. *)
Definition io_EOF : error := errorString 0 "EOF".

(** *** Dynamic types and [reflect.TypeOf(err).String()] *)

Record rtype : Type := mk_rtype {
  is_pointer : bool;
  pkg : string;
  type_name : string
}.

(** [Type.String()]: the name qualified by its package, with a leading star
    for a pointer type. *)
Definition rtype_String (t : rtype) : string :=
  (if is_pointer t then "*" else "") +:+ pkg t +:+ "." +:+ type_name t.

(** *** Stack frames *)

(** Debug information for one program counter. *)
Record symbol : Type := mk_symbol {
  sym_package : string;
  sym_name : string;
  sym_file : string;
  sym_line : N
}.

Record StackFrame : Type := mk_StackFrame {
  File : string;
  LineNumber : N;
  Name : string;
  Package : string;
  ProgramCounter : uintptr
}.

(** Modelled from the spec: [NewStackFrame] of [stackframe.go], the frame
    resolver.  One raw address gives the enclosing function, its package,
    the file and the line; without debug information the file is
    ["unknown"], the line 0 and the function name empty. *)
Definition NewStackFrame_of (symbols : uintptr -> option symbol) (pc : uintptr)
  : StackFrame :=
  match symbols pc with
  | Some s =>
      {| File := sym_file s; LineNumber := sym_line s; Name := sym_name s;
         Package := sym_package s; ProgramCounter := pc |}
  | None =>
      {| File := "unknown"; LineNumber := 0%N; Name := "";
         Package := ""; ProgramCounter := pc |}
  end.

Definition newline : string := String "010"%char "".
Definition tab : string := String "009"%char "".

Definition decimal (n : N) : string :=
  DecimalString.NilZero.string_of_uint (N.to_uint n).

Definition hex (n : N) : string :=
  HexadecimalString.NilZero.string_of_uint (N.to_hex_uint n).

(** Modelled from the spec: [StackFrame.String] of [stackframe.go], the
    trace formatter.  Two lines per frame: the function name qualified by
    its package, or ["unknown"]; then, after a tab,
    ["<file>:<line> (+0x<address in hex>)"], with ["unknown file"] when the
    address did not resolve. *)
Definition StackFrame_String (frame : StackFrame) : string :=
  (if String.eqb (Name frame) "" then "unknown"
   else Package frame +:+ "." +:+ Name frame) +:+ newline +:+
  tab +:+ (if String.eqb (Name frame) "" then "unknown file" else File frame)
  +:+ ":" +:+ decimal (LineNumber frame)
  +:+ " (+0x" +:+ hex (ProgramCounter frame) +:+ ")" +:+ newline.

(** The loop shared by [Stack] and [stack]:
    [for _, frame := range frames { buf.WriteString(frame.String()) }]. *)
Fixpoint write_frames (frames : list StackFrame) : string :=
  match frames with
  | [] => ""
  | frame :: rest => StackFrame_String frame +:+ write_frames rest
  end.

(** Modelled from the spec: [runtime.Callers(skip, pc)], the call-stack
    capture primitive.  [chain] is the running goroutine's call chain,
    innermost first, entry 0 being [runtime.Callers] itself; the primitive
    skips [skip] entries and fills at most [len(pc)] addresses. *)
Definition runtime_Callers (skip : Z) (len_pc : nat) (chain : list uintptr)
  : list uintptr :=
  take len_pc (drop (Z.to_nat skip) chain).

(** Return addresses inside the package's own functions and inside
    [runtime.Callers]; only their position in the chain matters. *)
Definition pc_Callers : uintptr := 1%N.
Definition pc_New : uintptr := 2%N.
Definition pc_Wrap : uintptr := 3%N.
Definition pc_WrapPrefix : uintptr := 4%N.
Definition pc_Errorf : uintptr := 5%N.
Definition pc_Custom : uintptr := 6%N.

(** [fmt.Sprintf("%v", e)], used by the constructors on a value that is no
    error (the nil interface included). *)
Definition format_v (e : value) : string :=
  match e with
  | of_error _ => "<nil>"
  | of_string s => s
  | of_int z => DecimalString.NilZero.string_of_int (Z.to_int z)
  end.

(** Is the value a pointer to the package's wrapper struct? *)
Definition is_wrapper (e : error) : bool :=
  match e with
  | wrapper _ => true
  | _ => false
  end.

(** Pointers of [e] held directly (not inside a foreign struct). *)
Definition points_below (k : nat) (e : error) : Prop :=
  match e with
  | wrapper p => p < k
  | _ => True
  end.

(** Every pointer held by [e], directly or inside a struct value, is
    below [k]. *)
Fixpoint within (k : nat) (e : error) : Prop :=
  match e with
  | wrapper p => p < k
  | errorWithCustomIs _ e' => within k e'
  | _ => True
  end.

(** The cause a constructor keeps for the argument [e]: the argument itself
    when it is an error, and otherwise a new [errorString], at address
    [next], of its text. *)
Definition made_from (next : loc) (e : value) (err : error) : Prop :=
  match e with
  | of_error nil => err = errorString next (format_v e)
  | of_error e' => err = e'
  | _ => err = errorString next (format_v e)
  end.

(** The pointers of an argument are below [k]. *)
Definition value_within (k : nat) (e : value) : Prop :=
  match e with
  | of_error e' => within k e'
  | _ => True
  end.

Definition errors_pkg : string := "errors".

(** [reflect.TypeOf(err)]: the dynamic type, [None] for the nil interface.
    [wrapper_type] is the name of the package's wrapper struct. *)
Definition TypeOf (wrapper_type : string) (err : error) : option rtype :=
  match err with
  | nil => None
  | wrapper _ => Some (mk_rtype true errors_pkg wrapper_type)
  | errorString _ _ => Some (mk_rtype true errors_pkg "errorString")
  | errorWithCustomIs _ _ => Some (mk_rtype false errors_pkg "errorWithCustomIs")
  | uncaughtPanic _ => Some (mk_rtype false errors_pkg "uncaughtPanic")
  end.

(** Modelled from the spec: the runtime-fault detector, the type assertion
    [err.(uncaughtPanic)] on the type declared in [parse_panic.go]. *)
Definition is_uncaughtPanic (err : error) : bool :=
  match err with
  | uncaughtPanic _ => true
  | _ => false
  end.

(** [typeName] / the body of [TypeName]:
    [if _, ok := err.(uncaughtPanic); ok { return "panic" }]
    [return reflect.TypeOf(err).String()]; calling [String] on the nil
    [Type] of a nil interface panics. *)
Definition typeName_of (wrapper_type : string) (err : error) : option string :=
  if is_uncaughtPanic err then Some "panic"
  else t ← TypeOf wrapper_type err; Some (rtype_String t).

(** *** State and panics

    A computation reads and writes the process state and may panic. *)
Definition M (St A : Type) : Type := St -> option (A * St).

#[global] Instance M_ret {St} : MRet (M St) := fun A a st => Some (a, st).

#[global] Instance M_bind {St} : MBind (M St) := fun A B f m st =>
  match m st with
  | Some (a, st') => f a st'
  | None => None
  end.

(** A partial pure step: [None] is a panic. *)
Definition or_panic {St A} (o : option A) : M St A :=
  fun st => match o with Some a => Some (a, st) | None => None end.

(** *** [Is]: the recursion common to the three copies of the function

    The three definitions of [Is] (both renditions of [error.go] and
    [error_backward.go]) differ only in the name of the wrapper type and of
    its cause field; [cause_of] is that field. *)
Section ChainEquality.
Context {Obj : Type} (cause_of : Obj -> error).

(** One unit of fuel per dereferenced wrapper: the Go function recurses
    once per wrapper layer. *)
Fixpoint Is_fuel (n : nat) (h : list Obj) (e original : error) : option bool :=
  if iface_eq e original then Some true
  else match e with
       | wrapper p =>
           match n with
           | 0 => None
           | S n' => obj ← h !! p; Is_fuel n' h (cause_of obj) original
           end
       | _ =>
           match original with
           | wrapper q =>
               match n with
               | 0 => None
               | S n' => obj ← h !! q; Is_fuel n' h e (cause_of obj)
               end
           | _ => Some false
           end
       end.

(** Each operand is unwrapped at most once per heap cell. *)
Definition Is_gen (h : list Obj) (e original : error) : option bool :=
  Is_fuel (length h + length h) h e original.

(** The cause at the bottom of a chain of wrappers ([Underlying] repeated
    until the value is no wrapper). *)
Fixpoint root_fuel (n : nat) (h : list Obj) (e : error) : option error :=
  match e with
  | wrapper p =>
      match n with
      | 0 => None
      | S n' => obj ← h !! p; root_fuel n' h (cause_of obj)
      end
  | _ => Some e
  end.

Definition root (h : list Obj) (e : error) : option error :=
  root_fuel (length h) h e.

(** [a'] is [a] wrapped any number of times. *)
Inductive wraps (h : list Obj) (a : error) : error -> Prop :=
| wraps_none : wraps h a a
| wraps_more p obj :
    h !! p = Some obj -> wraps h a (cause_of obj) -> wraps h a (wrapper p).

(** Every wrapper was built around a value that existed before it. *)
Definition chain_wf (h : list Obj) : Prop :=
  forall p obj, h !! p = Some obj -> points_below p (cause_of obj).

(** Each cell holds a cause made only of values that existed before the
    cell was allocated: the heap has no cycle and no dangling pointer. *)
Definition heap_wf (h : list Obj) : Prop :=
  forall p obj, h !! p = Some obj -> within p (cause_of obj).
End ChainEquality.

End Common.

(* ================================================================= *)
(** ** The rendition with [wrappedError] and a prefix *)

Module Prefixed.
Import Common.

(** [type wrappedError struct { err error; stack []uintptr;
    frames []StackFrame; prefix string }]; a nil slice is [None]. *)
Record wrappedError : Type := mk_wrappedError {
  err : error;
  stack : list uintptr;
  frames : option (list StackFrame);
  prefix : string
}.

Definition set_frames (e : wrappedError) (fs : option (list StackFrame)) :=
  {| err := err e; stack := stack e; frames := fs; prefix := prefix e |}.

Definition set_prefix (e : wrappedError) (s : string) :=
  {| err := err e; stack := stack e; frames := frames e; prefix := s |}.

(** The process: the package variable [MaxStackDepth], the binary's debug
    information, the heap of [wrappedError] cells, the next address for an
    [errorString], and a count of the calls made to [NewStackFrame]. *)
Record State : Type := mk_State {
  MaxStackDepth : Z;
  symbols : uintptr -> option symbol;
  heap : list wrappedError;
  next_errorString : loc;
  resolutions : nat
}.

Definition set_heap (st : State) (h : list wrappedError) : State :=
  {| MaxStackDepth := MaxStackDepth st; symbols := symbols st; heap := h;
     next_errorString := next_errorString st; resolutions := resolutions st |}.

(** [var MaxStackDepth = 50] *)
Definition initial (syms : uintptr -> option symbol) : State :=
  {| MaxStackDepth := 50; symbols := syms; heap := [];
     next_errorString := 1; resolutions := 0 |}.

(** [&wrappedError{...}]: a fresh cell at the end of the heap. *)
Definition alloc (obj : wrappedError) : M State loc :=
  fun st => Some (length (heap st), set_heap st (heap st ++ [obj])).

(** [*p]; a nil pointer panics. *)
Definition deref (p : loc) : M State wrappedError :=
  fun st => match heap st !! p with
            | Some obj => Some (obj, st)
            | None => None
            end.

(** [*p = obj], for a pointer the code has just dereferenced. *)
Definition store (p : loc) (obj : wrappedError) : M State unit :=
  fun st => Some (tt, set_heap st (<[p := obj]> (heap st))).

(** [fmt.Errorf] with the text already formatted: a new [*errors.errorString]. *)
Definition fmt_Errorf (s : string) : M State error :=
  fun st => Some (errorString (next_errorString st) s,
                  {| MaxStackDepth := MaxStackDepth st; symbols := symbols st;
                     heap := heap st;
                     next_errorString := S (next_errorString st);
                     resolutions := resolutions st |}).

(** [switch e := e.(type) { case error: err = e; default: err = fmt.Errorf("%v", e) }];
    the nil interface is no [error]. *)
Definition normalize (e : value) : M State error :=
  match e with
  | of_error nil => fmt_Errorf (format_v e)
  | of_error e' => mret e'
  | _ => fmt_Errorf (format_v e)
  end.

(** [stack := make([]uintptr, MaxStackDepth); length := runtime.Callers(skip, stack[:])]
    and then [stack[:length]]; [make] panics on a negative length. *)
Definition capture (skip : Z) (chain : list uintptr) : M State (list uintptr) :=
  fun st => if (MaxStackDepth st <? 0)%Z then None
            else Some (runtime_Callers skip (Z.to_nat (MaxStackDepth st)) chain, st).

(** [func New(e interface{}) Error]; [chain] is the call chain of the caller. *)
Definition New (chain : list uintptr) (e : value) : M State loc :=
  err ← normalize e;
  stack ← capture 2 (pc_Callers :: pc_New :: chain);
  alloc {| err := err; stack := stack; frames := None; prefix := "" |}.

(** [func Wrap(e interface{}, skip int) Error] *)
Definition Wrap (chain : list uintptr) (e : value) (skip : Z) : M State loc :=
  match e with
  | of_error (wrapper p) => mret p
  | _ =>
      err ← normalize e;
      stack ← capture (2 + skip) (pc_Callers :: pc_Wrap :: chain);
      alloc {| err := err; stack := stack; frames := None; prefix := "" |}
  end.

(** [func WrapPrefix(e interface{}, prefix string, skip int) Error] *)
Definition WrapPrefix (chain : list uintptr) (e : value) (prefix' : string)
    (skip : Z) : M State loc :=
  p ← Wrap (pc_WrapPrefix :: chain) e skip;
  obj ← deref p;
  _ ← store p (set_prefix obj
                 (if negb (String.eqb (prefix obj) "")
                  then prefix' +:+ ": " +:+ prefix obj
                  else prefix'));
  mret p.

(** [func Is(e error, original error) bool] *)
Definition Is (st : State) (e original : error) : option bool :=
  Is_gen err (heap st) e original.

(** [func Errorf(format string, a ...interface{}) Error], on the formatted text. *)
Definition Errorf (chain : list uintptr) (text : string) : M State loc :=
  e ← fmt_Errorf text;
  Wrap (pc_Errorf :: chain) (of_error e) 1.

(** [func (err *wrappedError) Underlying() error] *)
Definition Underlying (p : loc) : M State error :=
  obj ← deref p; mret (err obj).

(** The tail of [wrappedError.Error] once [msg := err.err.Error()] is known. *)
Definition with_prefix (e : wrappedError) (msg : string) : string :=
  if negb (String.eqb (prefix e) "") then prefix e +:+ ": " +:+ msg else msg.

(** [err.Error()] through the interface: dispatch on the dynamic type.  One
    unit of fuel per dereferenced wrapper; calling through the nil interface
    panics. *)
Fixpoint error_Error (n : nat) (h : list wrappedError) : error -> option string :=
  fix dispatch (e : error) : option string :=
    match e with
    | nil => None
    | wrapper p =>
        match n with
        | 0 => None
        | S n' =>
            obj ← h !! p;
            msg ← error_Error n' h (err obj);
            Some (with_prefix obj msg)
        end
    | errorString _ s => Some s
    | errorWithCustomIs Key Err =>
        msg ← dispatch Err; Some ("[" +:+ Key +:+ "]: " +:+ msg)
    | uncaughtPanic message => Some message
    end.

(** [func (err wrappedError) Error() string] *)
Definition wrappedError_Error (e : wrappedError) : M State string :=
  fun st =>
    match error_Error (length (heap st)) (heap st) (err e) with
    | Some msg => Some (with_prefix e msg, st)
    | None => None
    end.

(** [NewStackFrame(pc)], counted. *)
Definition NewStackFrame (pc : uintptr) : M State StackFrame :=
  fun st => Some (NewStackFrame_of (symbols st) pc,
                  {| MaxStackDepth := MaxStackDepth st; symbols := symbols st;
                     heap := heap st; next_errorString := next_errorString st;
                     resolutions := S (resolutions st) |}).

(** [for i, pc := range err.stack { err.frames[i] = NewStackFrame(pc) }] *)
Fixpoint resolve_all (stack : list uintptr) : M State (list StackFrame) :=
  match stack with
  | [] => mret []
  | pc :: rest =>
      frame ← NewStackFrame pc;
      others ← resolve_all rest;
      mret (frame :: others)
  end.

(** [func (err wrappedError) StackFrames() []StackFrame].  The receiver is a
    value: [err] is the callee's copy of the struct, and the result carries
    that copy as the method leaves it. *)
Definition wrappedError_StackFrames (e : wrappedError)
  : M State (wrappedError * list StackFrame) :=
  match frames e with
  | None =>
      fs ← resolve_all (stack e);
      mret (set_frames e (Some fs), fs)
  | Some fs => mret (e, fs)
  end.

(** [func (err wrappedError) Stack() []byte] *)
Definition wrappedError_Stack (e : wrappedError) : M State string :=
  r ← wrappedError_StackFrames e;
  mret (write_frames r.2).

(** [func (err wrappedError) TypeName() string] *)
Definition wrappedError_TypeName (e : wrappedError) : M State string :=
  or_panic (typeName_of "wrappedError" (err e)).

(** [func (err wrappedError) ErrorStack() string] *)
Definition wrappedError_ErrorStack (e : wrappedError) : M State string :=
  t ← wrappedError_TypeName e;
  msg ← wrappedError_Error e;
  s ← wrappedError_Stack e;
  mret (t +:+ " " +:+ msg +:+ newline +:+ s).

(** A call of a value-receiver method through the [Error] interface, which
    holds a [*wrappedError]: the struct is copied out of the heap and the
    method runs on the copy. *)
Definition call {A} (method : wrappedError -> M State A) (p : loc) : M State A :=
  obj ← deref p; method obj.

Definition Error (p : loc) : M State string := call wrappedError_Error p.
Definition StackFrames (p : loc) : M State (list StackFrame) :=
  call (fun e => r ← wrappedError_StackFrames e; mret r.2) p.
Definition Stack (p : loc) : M State string := call wrappedError_Stack p.
Definition TypeName (p : loc) : M State string := call wrappedError_TypeName p.
Definition ErrorStack (p : loc) : M State string := call wrappedError_ErrorStack p.

(** The state after [k] more calls of [NewStackFrame]. *)
Definition resolved_more (st : State) (k : nat) : State :=
  {| MaxStackDepth := MaxStackDepth st; symbols := symbols st; heap := heap st;
     next_errorString := next_errorString st;
     resolutions := k + resolutions st |}.

End Prefixed.

(* ================================================================= *)
(** ** The rendition with the [Error] struct, [Title] and [Description] *)

Module Titled.
Import Common.

(** [type Error struct { Err error; Stack string; Description string;
    Title string; stack []uintptr; frames []StackFrame }] *)
Record Error : Type := mk_Error {
  Err : error;
  Stack : string;
  Description : string;
  Title : string;
  stack : list uintptr;
  frames : option (list StackFrame)
}.

Definition set_frames (e : Error) (fs : option (list StackFrame)) : Error :=
  {| Err := Err e; Stack := Stack e; Description := Description e;
     Title := Title e; stack := stack e; frames := fs |}.

(** The process: the package variable [MaxStackDepth], the binary's debug
    information, the heap of [Error] cells, the next address for an
    [errorString], and a count of the calls made to [NewStackFrame]. *)
Record State : Type := mk_State {
  MaxStackDepth : Z;
  symbols : uintptr -> option symbol;
  heap : list Error;
  next_errorString : loc;
  resolutions : nat
}.

Definition set_heap (st : State) (h : list Error) : State :=
  {| MaxStackDepth := MaxStackDepth st; symbols := symbols st; heap := h;
     next_errorString := next_errorString st; resolutions := resolutions st |}.

(** Assigning the package variable [MaxStackDepth]. *)
Definition set_MaxStackDepth (d : Z) : M State unit :=
  fun st => Some (tt, {| MaxStackDepth := d; symbols := symbols st;
                         heap := heap st;
                         next_errorString := next_errorString st;
                         resolutions := resolutions st |}).

(** [var MaxStackDepth = 50] *)
Definition initial (syms : uintptr -> option symbol) : State :=
  {| MaxStackDepth := 50; symbols := syms; heap := [];
     next_errorString := 1; resolutions := 0 |}.

(** [&Error{...}]: a fresh cell at the end of the heap. *)
Definition alloc (obj : Error) : M State loc :=
  fun st => Some (length (heap st), set_heap st (heap st ++ [obj])).

(** [*p]; a nil pointer panics. *)
Definition deref (p : loc) : M State Error :=
  fun st => match heap st !! p with
            | Some obj => Some (obj, st)
            | None => None
            end.

(** [*p = obj], for a pointer the code has just dereferenced. *)
Definition store (p : loc) (obj : Error) : M State unit :=
  fun st => Some (tt, set_heap st (<[p := obj]> (heap st))).

(** [fmt.Errorf] with the text already formatted: a new [*errors.errorString]. *)
Definition fmt_Errorf (s : string) : M State error :=
  fun st => Some (errorString (next_errorString st) s,
                  {| MaxStackDepth := MaxStackDepth st; symbols := symbols st;
                     heap := heap st;
                     next_errorString := S (next_errorString st);
                     resolutions := resolutions st |}).

(** [switch e := e.(type) { case error: err = e; default: err = fmt.Errorf("%v", e) }] *)
Definition normalize (e : value) : M State error :=
  match e with
  | of_error nil => fmt_Errorf (format_v e)
  | of_error e' => mret e'
  | _ => fmt_Errorf (format_v e)
  end.

(** [s := make([]uintptr, MaxStackDepth); length := runtime.Callers(skip, s[:])]
    and then [s[:length]]. *)
Definition capture (skip : Z) (chain : list uintptr) : M State (list uintptr) :=
  fun st => if (MaxStackDepth st <? 0)%Z then None
            else Some (runtime_Callers skip (Z.to_nat (MaxStackDepth st)) chain, st).

(** [NewStackFrame(pc)], counted. *)
Definition NewStackFrame (pc : uintptr) : M State StackFrame :=
  fun st => Some (NewStackFrame_of (symbols st) pc,
                  {| MaxStackDepth := MaxStackDepth st; symbols := symbols st;
                     heap := heap st; next_errorString := next_errorString st;
                     resolutions := S (resolutions st) |}).

(** [func stackFrames(stack []uintptr) []StackFrame] *)
Fixpoint stackFrames (stack : list uintptr) : M State (list StackFrame) :=
  match stack with
  | [] => mret []
  | pc :: rest =>
      frame ← NewStackFrame pc;
      others ← stackFrames rest;
      mret (frame :: others)
  end.

(** [func stack(frames []StackFrame) []byte]; writing to a [bytes.Buffer]
    returns no error. *)
Definition stack_of_frames (frames : list StackFrame) : string :=
  write_frames frames.

(** [err.Error()] through the interface; the method of [Error] returns
    [err.Err.Error()]. *)
Fixpoint error_Error (n : nat) (h : list Error) : error -> option string :=
  fix dispatch (e : error) : option string :=
    match e with
    | nil => None
    | wrapper p =>
        match n with
        | 0 => None
        | S n' => obj ← h !! p; error_Error n' h (Err obj)
        end
    | errorString _ s => Some s
    | errorWithCustomIs Key Err =>
        msg ← dispatch Err; Some ("[" +:+ Key +:+ "]: " +:+ msg)
    | uncaughtPanic message => Some message
    end.

(** A call [e.Error()] made by the package: each cell is entered at most
    once. *)
Definition iface_Error (e : error) : M State string :=
  fun st => match error_Error (length (heap st)) (heap st) e with
            | Some msg => Some (msg, st)
            | None => None
            end.

(** [func typeName(err error) string] *)
Definition typeName (e : error) : M State string :=
  or_panic (typeName_of "Error" e).

(** [func errorStack(t string, err error, s []byte) string] *)
Definition errorStack (t : string) (e : error) (s : string) : M State string :=
  msg ← iface_Error e;
  mret (t +:+ " " +:+ msg +:+ newline +:+ s).

(** [func New(e interface{}) *Error] *)
Definition New (chain : list uintptr) (e : value) : M State loc :=
  err ← normalize e;
  s ← capture 2 (pc_Callers :: pc_New :: chain);
  f ← stackFrames s;
  title ← iface_Error err;
  t ← typeName err;
  text ← errorStack t err (stack_of_frames f);
  description ← iface_Error err;
  alloc {| Err := err; stack := s; frames := Some f; Title := title;
           Stack := text; Description := description |}.

(** [func Custom(e interface{}, desc, title string) *Error] *)
Definition Custom (chain : list uintptr) (e : value) (desc title : string)
  : M State loc :=
  err ← normalize e;
  s ← capture 2 (pc_Callers :: pc_Custom :: chain);
  f ← stackFrames s;
  t ← typeName err;
  text ← errorStack t err (stack_of_frames f);
  alloc {| Err := err; stack := s; frames := None; Title := title;
           Description := desc; Stack := text |}.

(** [func Wrap(e interface{}, skip int) *Error] *)
Definition Wrap (chain : list uintptr) (e : value) (skip : Z) : M State loc :=
  match e with
  | of_error (wrapper p) => mret p
  | _ =>
      err ← normalize e;
      s ← capture (2 + skip) (pc_Callers :: pc_Wrap :: chain);
      f ← stackFrames s;
      t ← typeName err;
      text ← errorStack t err (stack_of_frames f);
      alloc {| Err := err; stack := s; frames := Some f; Stack := text;
               Title := ""; Description := "" |}
  end.

(** [func Is(e error, original error) bool] of [error.go] *)
Definition Is (st : State) (e original : error) : option bool :=
  Is_gen Err (heap st) e original.

(** [func Is(e error, original error) bool] of [error_backward.go] *)
Definition Is_backward (st : State) (e original : error) : option bool :=
  Is_gen Err (heap st) e original.

(** [func Errorf(format string, a ...interface{}) *Error] *)
Definition Errorf (chain : list uintptr) (text : string) : M State loc :=
  e ← fmt_Errorf text;
  Wrap (pc_Errorf :: chain) (of_error e) 1.

(** [func (err *Error) Error() string { return err.Err.Error() }]: the
    [wrapper] case of [error_Error], entered with the pointer [p]. *)
Definition Error_Error (p : loc) : M State string :=
  iface_Error (wrapper p).

(** [func (err *Error) StackFrames() []StackFrame] *)
Definition StackFrames (p : loc) : M State (list StackFrame) :=
  obj ← deref p;
  match frames obj with
  | None =>
      fs ← stackFrames (stack obj);
      _ ← store p (set_frames obj (Some fs));
      mret fs
  | Some fs => mret fs
  end.

(** [func (err *Error) StackTrace() []byte] *)
Definition StackTrace (p : loc) : M State string :=
  obj ← deref p;
  match frames obj with
  | None =>
      fs ← StackFrames p;
      obj' ← deref p;
      _ ← store p (set_frames obj' (Some fs));
      mret (stack_of_frames fs)
  | Some fs => mret (stack_of_frames fs)
  end.

(** [func (err *Error) TypeName() string] *)
Definition TypeName (p : loc) : M State string :=
  obj ← deref p; typeName (Err obj).

(** [func (err *Error) ErrorStack() string] *)
Definition ErrorStack (p : loc) : M State string :=
  t ← TypeName p;
  s ← StackTrace p;
  errorStack t (wrapper p) s.

(** *** Invariants of the heap *)

(** The state after [k] more calls of [NewStackFrame]. *)
Definition resolved_more (st : State) (k : nat) : State :=
  {| MaxStackDepth := MaxStackDepth st; symbols := symbols st; heap := heap st;
     next_errorString := next_errorString st;
     resolutions := k + resolutions st |}.

(** The frames of [stack], each address resolved on its own. *)
Definition resolve (syms : uintptr -> option symbol) (stack : list uintptr)
  : list StackFrame :=
  map (NewStackFrame_of syms) stack.

(** A cell whose frames, if present, are the resolution of its addresses. *)
Definition cell_resolved (syms : uintptr -> option symbol) (obj : Error) : Prop :=
  forall fs, frames obj = Some fs -> fs = resolve syms (stack obj).

(** What may happen to a cell: its cause and addresses stay, its frames stay
    or become the resolution of its addresses. *)
Definition cell_evolves (syms : uintptr -> option symbol) (obj obj' : Error)
  : Prop :=
  Err obj' = Err obj /\ stack obj' = stack obj /\
  (frames obj' = frames obj \/ frames obj' = Some (resolve syms (stack obj))).

(** The debug information stays and every cell of [st] evolves. *)
Definition grows (st st' : State) : Prop :=
  symbols st' = symbols st /\
  forall q obj, heap st !! q = Some obj ->
    exists obj', heap st' !! q = Some obj' /\ cell_evolves (symbols st) obj obj'.

(** A computation under which the cells only evolve. *)
Definition mgrows {A} (m : M State A) : Prop :=
  forall st a st', m st = Some (a, st') -> grows st st'.

(** Heap, symbols and [MaxStackDepth] are the same in both states. *)
Definition same_config (st st' : State) : Prop :=
  heap st' = heap st /\ symbols st' = symbols st /\
  MaxStackDepth st' = MaxStackDepth st.

(** What a capturing constructor leaves behind for the argument [v]: one
    new cell at the end of the heap, its cause made from [v], its addresses
    bounded by [MaxStackDepth], its frames absent or resolved. *)
Definition fresh_cell (v : value) (st : State) (p : loc) (st' : State) : Prop :=
  exists obj,
    p = length (heap st) /\ heap st' = (heap st ++ [obj])%list /\
    symbols st' = symbols st /\ Err obj <> nil /\
    (Z.of_nat (length (stack obj)) <= MaxStackDepth st)%Z /\
    (frames obj = None \/ frames obj = Some (resolve (symbols st) (stack obj))) /\
    made_from (next_errorString st) v (Err obj).

(** *** Clients

    The calls a client of the package can make, and their effect on the
    process. *)
Inductive call : Type :=
| call_New (chain : list uintptr) (e : value)
| call_Custom (chain : list uintptr) (e : value) (desc title : string)
| call_Wrap (chain : list uintptr) (e : value) (skip : Z)
| call_Errorf (chain : list uintptr) (text : string)
| call_Error (p : loc)
| call_StackFrames (p : loc)
| call_StackTrace (p : loc)
| call_TypeName (p : loc)
| call_ErrorStack (p : loc)
| call_set_MaxStackDepth (d : Z).

(** The value a constructor call is about. *)
Definition call_value (c : call) : value :=
  match c with
  | call_New _ e | call_Custom _ e _ _ | call_Wrap _ e _ => e
  | call_Errorf _ text => of_string text
  | _ => of_error nil
  end.

(** The constructor calls, with the wrapper they return. *)
Definition construct (c : call) : option (M State loc) :=
  match c with
  | call_New chain e => Some (New chain e)
  | call_Custom chain e desc title => Some (Custom chain e desc title)
  | call_Wrap chain e skip => Some (Wrap chain e skip)
  | call_Errorf chain text => Some (Errorf chain text)
  | _ => None
  end.

(** A constructor call that captures a stack: every one except [Wrap] of a
    value that is a wrapper already. *)
Definition captures (c : call) : bool :=
  match c with
  | call_New _ _ | call_Custom _ _ _ _ | call_Errorf _ _ => true
  | call_Wrap _ (of_error (wrapper _)) _ => false
  | call_Wrap _ _ _ => true
  | _ => false
  end.

(** The state a call leaves, [None] when it panics. *)
Definition run (c : call) (st : State) : option State :=
  match c with
  | call_New chain e => snd <$> New chain e st
  | call_Custom chain e desc title => snd <$> Custom chain e desc title st
  | call_Wrap chain e skip => snd <$> Wrap chain e skip st
  | call_Errorf chain text => snd <$> Errorf chain text st
  | call_Error p => snd <$> Error_Error p st
  | call_StackFrames p => snd <$> StackFrames p st
  | call_StackTrace p => snd <$> StackTrace p st
  | call_TypeName p => snd <$> TypeName p st
  | call_ErrorStack p => snd <$> ErrorStack p st
  | call_set_MaxStackDepth d => snd <$> set_MaxStackDepth d st
  end.

(** A sequence of calls, none of which panics. *)
Fixpoint run_all (cs : list call) (st : State) : option State :=
  match cs with
  | [] => Some st
  | c :: rest => st' ← run c st; run_all rest st'
  end.

(** The states a client can bring about from a fresh process, passing only
    values that exist: every pointer of an argument points into the heap. *)
Inductive reachable (syms : uintptr -> option symbol) : State -> Prop :=
| reachable_initial : reachable syms (initial syms)
| reachable_call st c st' :
    reachable syms st ->
    value_within (length (heap st)) (call_value c) ->
    run c st = Some st' ->
    reachable syms st'.

End Titled.

(* ================================================================= *)
(** ** The values of [TestIs113] *)

Module TestIs113.
Import Common.

Definition custErr : error := errorWithCustomIs "TestForFun" io_EOF.
Definition shouldMatch : error := errorWithCustomIs "TestForFun" nil.
Definition shouldNotMatch : error := errorWithCustomIs "notOk" nil.

(** Debug information of a small binary: one known function. *)
Definition symtab (pc : uintptr) : option symbol :=
  if (pc =? 100)%N then Some (mk_symbol "main" "f" "/src/main.go" 12) else None.

(** A call chain of the caller of a constructor. *)
Definition caller_chain : list uintptr := [100%N; 101%N].

(** *** Small processes

    An [Error] heap after
    [a := New(io.EOF); Custom("disk full", "desc", "title"); New(a)]:
    cell 0 wraps [io.EOF], cell 1 has no frames yet, cell 2 wraps cell 0. *)
Definition titled_process : Titled.State :=
  Eval vm_compute in
    match (a ← Titled.New caller_chain (of_error io_EOF);
           _ ← Titled.Custom caller_chain (of_string "disk full") "desc" "title";
           Titled.New caller_chain (of_error (wrapper a)))
            (Titled.initial symtab)
    with
    | Some (_, st) => st
    | None => Titled.initial symtab
    end.

Definition titled_cell (p : loc) : Titled.Error :=
  match Titled.heap titled_process !! p with
  | Some obj => obj
  | None => Titled.mk_Error nil "" "" "" [] None
  end.

(** A [wrappedError] heap after
    [a := New(uncaughtPanic{"boom"}); WrapPrefix(a, "ctx", 0); New(io.EOF)]. *)
Definition prefixed_process : Prefixed.State :=
  Eval vm_compute in
    match (a ← Prefixed.New caller_chain (of_error (uncaughtPanic "boom"));
           _ ← Prefixed.WrapPrefix caller_chain (of_error (wrapper a)) "ctx" 0;
           Prefixed.New caller_chain (of_error io_EOF))
            (Prefixed.initial symtab)
    with
    | Some (_, st) => st
    | None => Prefixed.initial symtab
    end.

Definition prefixed_cell (p : loc) : Prefixed.wrappedError :=
  match Prefixed.heap prefixed_process !! p with
  | Some obj => obj
  | None => Prefixed.mk_wrappedError nil [] None ""
  end.

(** The calls a client makes after [New("oh dear")] in the process below. *)
Definition later_calls : list Titled.call :=
  [Titled.call_StackFrames 0; Titled.call_set_MaxStackDepth 1;
   Titled.call_New caller_chain (of_error (wrapper 0));
   Titled.call_ErrorStack 0].

Definition after_New : Titled.State :=
  Eval vm_compute in
    match Titled.New caller_chain (of_string "oh dear") (Titled.initial symtab) with
    | Some (_, st) => st
    | None => Titled.initial symtab
    end.

Definition after_later_calls : Titled.State :=
  Eval vm_compute in
    match Titled.run_all later_calls after_New with
    | Some st => st
    | None => after_New
    end.

End TestIs113.

(* ================================================================= *)
(** ** Heaps over time *)

Module Heaps.
Import Common.

Section Extension.
Context {Obj : Type} (cause_of : Obj -> error).

(** [h'] is a later heap of [h]: every cell of [h] is still there and has
    the cause it had. *)
Definition extends (h h' : list Obj) : Prop :=
  forall q obj, h !! q = Some obj ->
    exists obj', h' !! q = Some obj' /\ cause_of obj' = cause_of obj.
End Extension.

End Heaps.

(* ================================================================= *)
(** ** Clients of the [wrappedError] rendition *)

Module PrefixedClients.
Import Common Prefixed.

(** [err.prefix] of the wrapper [Wrap(e, skip)] hands to [WrapPrefix]: the
    prefix the cell holds when [e] is a wrapper already, and the empty
    prefix of a new cell otherwise. *)
Definition prefix_of (st : State) (e : error) : string :=
  match e with
  | wrapper q =>
      match heap st !! q with
      | Some obj => prefix obj
      | None => ""
      end
  | _ => ""
  end.

(** The constructor call [m] returns a wrapper that holds the addresses [s]. *)
Definition captured (st : State) (m : M State loc) (s : list uintptr) : Prop :=
  exists p st' obj,
    m st = Some (p, st') /\ heap st' !! p = Some obj /\ stack obj = s.

(** Assigning the package variable [MaxStackDepth]. *)
Definition set_MaxStackDepth (d : Z) : M State unit :=
  fun st => Some (tt, {| MaxStackDepth := d; symbols := symbols st;
                         heap := heap st;
                         next_errorString := next_errorString st;
                         resolutions := resolutions st |}).

(** The calls a client of the package can make. *)
Inductive call : Type :=
| call_New (chain : list uintptr) (e : value)
| call_Wrap (chain : list uintptr) (e : value) (skip : Z)
| call_WrapPrefix (chain : list uintptr) (e : value) (prefix : string) (skip : Z)
| call_Errorf (chain : list uintptr) (text : string)
| call_Underlying (p : loc)
| call_Error (p : loc)
| call_Stack (p : loc)
| call_ErrorStack (p : loc)
| call_StackFrames (p : loc)
| call_TypeName (p : loc)
| call_set_MaxStackDepth (d : Z).

(** The value a constructor call is about. *)
Definition call_value (c : call) : value :=
  match c with
  | call_New _ e | call_Wrap _ e _ | call_WrapPrefix _ e _ _ => e
  | call_Errorf _ text => of_string text
  | _ => of_error nil
  end.

(** The state a call leaves, [None] when it panics. *)
Definition run (c : call) (st : State) : option State :=
  match c with
  | call_New chain e => snd <$> New chain e st
  | call_Wrap chain e skip => snd <$> Wrap chain e skip st
  | call_WrapPrefix chain e pre skip => snd <$> WrapPrefix chain e pre skip st
  | call_Errorf chain text => snd <$> Errorf chain text st
  | call_Underlying p => snd <$> Underlying p st
  | call_Error p => snd <$> Error p st
  | call_Stack p => snd <$> Stack p st
  | call_ErrorStack p => snd <$> ErrorStack p st
  | call_StackFrames p => snd <$> StackFrames p st
  | call_TypeName p => snd <$> TypeName p st
  | call_set_MaxStackDepth d => snd <$> set_MaxStackDepth d st
  end.

(** A sequence of calls, none of which panics. *)
Fixpoint run_all (cs : list call) (st : State) : option State :=
  match cs with
  | [] => Some st
  | c :: rest => st' ← run c st; run_all rest st'
  end.

(** Over the calls from [st] to [st'] every cell kept all its fields but
    the prefix, which got something in front. *)
Definition kept (st st' : State) : Prop :=
  forall q obj, heap st !! q = Some obj ->
    exists s, heap st' !! q = Some (set_prefix obj (s +:+ prefix obj)).

(** The states a client can bring about from a fresh process, passing only
    values that exist: every pointer of an argument points into the heap. *)
Inductive reachable (syms : uintptr -> option symbol) : State -> Prop :=
| reachable_initial : reachable syms (initial syms)
| reachable_call st c st' :
    reachable syms st ->
    value_within (length (heap st)) (call_value c) ->
    run c st = Some st' ->
    reachable syms st'.

End PrefixedClients.

(* ================================================================= *)
(** ** Clients of the [Error] struct rendition *)

Module TitledClients.
Import Common Titled.

(** The struct a constructor fills in for the cause [err], whose message is
    [msg] and whose type name is [t], and the captured addresses [s]:
    [Stack] is [errorStack(typeName(err), err, stack(f))] with
    [f := stackFrames(s)]; [New] and [Wrap] also store [f]. *)
Definition built (syms : uintptr -> option symbol) (err : error)
    (s : list uintptr) (t msg title desc : string) (stored : bool) : Error :=
  {| Err := err;
     Stack := t +:+ " " +:+ msg +:+ newline +:+ stack_of_frames (resolve syms s);
     Description := desc;
     Title := title;
     stack := s;
     frames := if stored then Some (resolve syms s) else None |}.

(** The state a capturing constructor leaves: [st1] is the state after the
    argument was turned into an error, [s] the captured addresses. *)
Definition after_build (st1 : State) (s : list uintptr) (obj : Error) : State :=
  set_heap (resolved_more st1 (length s)) (heap st1 ++ [obj]).

(** The addresses a constructor call asks [runtime.Callers] for, with
    [MaxStackDepth] being [d]. *)
Definition captured_stack (c : call) (d : Z) : list uintptr :=
  match c with
  | call_New chain _ =>
      runtime_Callers 2 (Z.to_nat d) (pc_Callers :: pc_New :: chain)
  | call_Custom chain _ _ _ =>
      runtime_Callers 2 (Z.to_nat d) (pc_Callers :: pc_Custom :: chain)
  | call_Wrap chain _ skip =>
      runtime_Callers (2 + skip) (Z.to_nat d) (pc_Callers :: pc_Wrap :: chain)
  | call_Errorf chain _ =>
      runtime_Callers (2 + 1) (Z.to_nat d)
        (pc_Callers :: pc_Wrap :: pc_Errorf :: chain)
  | _ => []
  end.

(** The struct each constructor fills in: [New] takes title and description
    from the message, [Custom] from its arguments and stores no frames,
    [Wrap] and [Errorf] leave both empty. *)
Definition built_by (c : call) (syms : uintptr -> option symbol) (err : error)
    (s : list uintptr) (t msg : string) : Error :=
  match c with
  | call_New _ _ => built syms err s t msg msg msg true
  | call_Custom _ _ desc title => built syms err s t msg title desc false
  | _ => built syms err s t msg "" "" true
  end.

(** The constructor call [m] returns a wrapper that holds the addresses [s]. *)
Definition captured (st : State) (m : M State loc) (s : list uintptr) : Prop :=
  exists p st' obj,
    m st = Some (p, st') /\ heap st' !! p = Some obj /\ stack obj = s.

(** Over the calls from [st] to [st'] every cell kept all its fields but,
    possibly, [frames]. *)
Definition kept (st st' : State) : Prop :=
  forall q obj, heap st !! q = Some obj ->
    exists fs, heap st' !! q = Some (set_frames obj fs).

(** Every wrapper of the heap has a message. *)
Definition all_have_messages (h : list Error) : Prop :=
  forall q, q < length h -> is_Some (error_Error (length h) h (wrapper q)).

(** The [Stack] field of every struct is what [errorStack] makes of the
    type name of its cause, the message of the wrapper and the frames of
    its addresses. *)
Definition stacks_up_to_date (st : State) : Prop :=
  forall p obj, heap st !! p = Some obj ->
    exists t msg,
      typeName_of "Error" (Err obj) = Some t /\
      error_Error (length (heap st)) (heap st) (wrapper p) = Some msg /\
      Stack obj =
        t +:+ " " +:+ msg +:+ newline +:+
        stack_of_frames (resolve (symbols st) (stack obj)).

End TitledClients.

(* ================================================================= *)
(** ** More small processes *)

Module Scenarios.
Import Common TestIs113.

(** A process of the [Error] struct whose client has assigned -1 to
    [MaxStackDepth]. *)
Definition titled_negative : Titled.State :=
  Eval vm_compute in
    match Titled.set_MaxStackDepth (-1) (Titled.initial symtab) with
    | Some (_, st) => st
    | None => Titled.initial symtab
    end.

(** The same for [wrappedError]. *)
Definition prefixed_negative : Prefixed.State :=
  Eval vm_compute in
    match PrefixedClients.set_MaxStackDepth (-1) (Prefixed.initial symtab) with
    | Some (_, st) => st
    | None => Prefixed.initial symtab
    end.

(** The wrapper [New("oh dear")] made in [after_New]. *)
Definition after_New_cell : Titled.Error :=
  match Titled.heap after_New !! 0 with
  | Some obj => obj
  | None => Titled.mk_Error nil "" "" "" [] None
  end.

(** A [wrappedError] process after [New(io.EOF)]. *)
Definition prefixed_after_New : Prefixed.State :=
  Eval vm_compute in
    match Prefixed.New caller_chain (of_error io_EOF) (Prefixed.initial symtab) with
    | Some (_, st) => st
    | None => Prefixed.initial symtab
    end.

Definition prefixed_after_New_cell : Prefixed.wrappedError :=
  match Prefixed.heap prefixed_after_New !! 0 with
  | Some obj => obj
  | None => Prefixed.mk_wrappedError nil [] None ""
  end.

(** Calls a client makes in [prefixed_process]: a prefix for the second
    wrapper, the frames of the first, one more wrapper. *)
Definition prefixed_later_calls : list PrefixedClients.call :=
  [PrefixedClients.call_WrapPrefix caller_chain (of_error (wrapper 1)) "read" 0;
   PrefixedClients.call_StackFrames 0;
   PrefixedClients.call_New caller_chain (of_error (wrapper 0))].

Definition prefixed_after_later_calls : Prefixed.State :=
  Eval vm_compute in
    match PrefixedClients.run_all prefixed_later_calls prefixed_process with
    | Some st => st
    | None => prefixed_process
    end.

Definition prefixed_later_cell (p : loc) : Prefixed.wrappedError :=
  match Prefixed.heap prefixed_after_later_calls !! p with
  | Some obj => obj
  | None => Prefixed.mk_wrappedError nil [] None ""
  end.

End Scenarios.

(* ================================================================= *)
(** ** Facts about interface equality and chain-aware equality *)

Module ChainFacts.
Import Common.

Lemma iface_eq_refl (e : error) : iface_eq e e = true.
Proof.
  induction e as [| p | p s | k e IH | m]; simpl.
  - reflexivity.
  - apply Nat.eqb_refl.
  - apply Nat.eqb_refl.
  - rewrite String.eqb_refl, IH. reflexivity.
  - apply String.eqb_refl.
Qed.

Lemma iface_eq_sym (a b : error) : iface_eq a b = iface_eq b a.
Proof.
  revert b.
  induction a as [| p | p s | k e IH | m]; intros [| q | q t | k' e' | m'];
    simpl; try reflexivity.
  - apply Nat.eqb_sym.
  - apply Nat.eqb_sym.
  - rewrite IH, String.eqb_sym. reflexivity.
  - apply String.eqb_sym.
Qed.

Lemma iface_eq_wrapper_l (p : loc) (o : error) :
  iface_eq (wrapper p) o = true -> o = wrapper p.
Proof.
  destruct o as [| q | | |]; simpl; try discriminate.
  intros H. apply Nat.eqb_eq in H. congruence.
Qed.

Lemma iface_eq_plain_l (e o : error) :
  is_wrapper e = false -> iface_eq e o = true -> is_wrapper o = false.
Proof.
  destruct e, o; simpl; congruence.
Qed.

Lemma iface_eq_nil_r (e : error) : e <> nil -> iface_eq e nil = false.
Proof. destruct e; simpl; congruence. Qed.

(** *** The trace text *)

Lemma append_empty_l (a b : string) : a +:+ b = "" -> a = "".
Proof. destruct a; [reflexivity | discriminate]. Qed.

Lemma StackFrame_String_nonempty (frame : StackFrame) :
  StackFrame_String frame <> "".
Proof.
  unfold StackFrame_String. intros H.
  destruct (String.eqb (Name frame) ""); simpl in H; try discriminate.
  destruct (Package frame); simpl in H; try discriminate.
Qed.

Lemma write_frames_nonempty (fs : list StackFrame) :
  fs <> [] -> write_frames fs <> "".
Proof.
  destruct fs as [| frame rest]; [congruence |]. intros _ H. simpl in H.
  apply append_empty_l in H. exact (StackFrame_String_nonempty frame H).
Qed.

Lemma within_weaken (j k : nat) (e : error) : j <= k -> within j e -> within k e.
Proof. intros Hjk. induction e; simpl; auto. lia. Qed.


Lemma made_from_within (next k : nat) (v : value) (e : error) :
  made_from next v e -> value_within k v -> within k e.
Proof.
  destruct v as [[| | | |] | |]; simpl; intros -> H; simpl; auto.
Qed.

Section Chains.
Context {Obj : Type} (cause_of : Obj -> error).
Implicit Types (h : list Obj) (e o : error).

Lemma root_fuel_plain n h e :
  is_wrapper e = false -> root_fuel cause_of n h e = Some e.
Proof. destruct e, n; simpl; congruence. Qed.

Lemma root_fuel_is_plain n h e r :
  root_fuel cause_of n h e = Some r -> is_wrapper r = false.
Proof.
  revert e. induction n as [| n IH]; intros e.
  - destruct e; simpl; intros [= <-]; reflexivity || discriminate.
  - destruct e as [| p | | |]; simpl; try (intros [= <-]; reflexivity).
    destruct (h !! p) as [obj |]; simpl; [apply IH | discriminate].
Qed.

(** More fuel never changes an answer. *)
Lemma root_fuel_more n k h e r :
  root_fuel cause_of n h e = Some r -> root_fuel cause_of (n + k) h e = Some r.
Proof.
  revert e. induction n as [| n IH]; intros e.
  - destruct e; simpl; try discriminate; intros [= <-];
      apply root_fuel_plain; reflexivity.
  - destruct e as [| p | | |]; simpl; try (intros [= <-]; reflexivity).
    destruct (h !! p) as [obj |]; simpl; [apply IH | discriminate].
Qed.

Lemma root_fuel_agree n m h e r r' :
  root_fuel cause_of n h e = Some r -> root_fuel cause_of m h e = Some r' ->
  r = r'.
Proof.
  intros Hn Hm.
  apply (root_fuel_more n m) in Hn. apply (root_fuel_more m n) in Hm.
  rewrite Nat.add_comm in Hm. congruence.
Qed.

Lemma Is_fuel_unfold n h e o :
  Is_fuel cause_of n h e o =
  if iface_eq e o then Some true
  else match e with
       | wrapper p =>
           match n with
           | 0 => None
           | S n' => obj ← h !! p; Is_fuel cause_of n' h (cause_of obj) o
           end
       | _ =>
           match o with
           | wrapper q =>
               match n with
               | 0 => None
               | S n' => obj ← h !! q; Is_fuel cause_of n' h e (cause_of obj)
               end
           | _ => Some false
           end
       end.
Proof. destruct n; reflexivity. Qed.

(** The verdict of [Is] is the comparison of the two innermost causes. *)
Lemma Is_fuel_plain_l m h e o ro :
  is_wrapper e = false ->
  root_fuel cause_of m h o = Some ro ->
  Is_fuel cause_of m h e o = Some (iface_eq e ro).
Proof.
  intros He. revert o. induction m as [| m IH]; intros o Ho.
  - destruct o as [| q | | |]; simpl in Ho; try discriminate;
      injection Ho as <-; destruct e; simpl in *; try discriminate;
      try reflexivity;
      match goal with |- (if ?c then _ else _) = _ => destruct c; reflexivity end.
  - simpl. destruct (iface_eq e o) eqn:Heq.
    + pose proof (iface_eq_plain_l _ _ He Heq) as Hp.
      rewrite (root_fuel_plain (S m) h o Hp) in Ho. injection Ho as <-.
      rewrite Heq. reflexivity.
    + destruct o as [| q | | |]; simpl in Ho;
        try (injection Ho as <-; rewrite Heq; destruct e; simpl in *;
             congruence).
      destruct (h !! q) as [obj |]; simpl in *; [| discriminate].
      destruct e; simpl in *; try discriminate; apply IH; exact Ho.
Qed.

Lemma Is_fuel_roots n m h e o re ro :
  root_fuel cause_of n h e = Some re ->
  root_fuel cause_of m h o = Some ro ->
  Is_fuel cause_of (n + m) h e o = Some (iface_eq re ro).
Proof.
  revert e o. induction n as [| n IH]; intros e o He Ho.
  - destruct e as [| p | | |]; simpl in He; try discriminate;
      injection He as <-; apply Is_fuel_plain_l; auto.
  - destruct (is_wrapper e) eqn:Hw.
    + destruct e as [| p | | |]; try discriminate. simpl in He.
      change (S n + m) with (S (n + m)). rewrite Is_fuel_unfold.
      destruct (iface_eq (wrapper p) o) eqn:Heq.
      * apply iface_eq_wrapper_l in Heq. subst o.
        assert (root_fuel cause_of (S n) h (wrapper p) = Some re) as He'
          by exact He.
        rewrite (root_fuel_agree _ _ _ _ _ _ He' Ho), iface_eq_refl.
        reflexivity.
      * destruct (h !! p) as [obj |]; simpl in *; [| discriminate].
        apply IH; assumption.
    + rewrite (root_fuel_plain (S n) h e Hw) in He. injection He as <-.
      apply (root_fuel_more m (S n)) in Ho.
      rewrite (Nat.add_comm (S n) m).
      apply Is_fuel_plain_l; assumption.
Qed.

Lemma Is_gen_roots h e o re ro :
  root cause_of h e = Some re -> root cause_of h o = Some ro ->
  Is_gen cause_of h e o = Some (iface_eq re ro).
Proof. apply Is_fuel_roots. Qed.

(** In a well-formed heap every valid value has an innermost cause. *)
Lemma root_fuel_total h :
  chain_wf cause_of h ->
  forall n e, points_below n e -> n <= length h ->
    exists r, root_fuel cause_of n h e = Some r.
Proof.
  intros Hwf n. induction n as [| n IH]; intros e Hb Hn.
  - destruct e; simpl in *; eauto; lia.
  - destruct e as [| p | | |]; simpl in Hb; try (eexists; reflexivity).
    destruct (lookup_lt_is_Some_2 h p) as [obj Hobj]; [lia |].
    cbn [root_fuel]. rewrite Hobj. simpl. apply IH; [| lia].
    specialize (Hwf p obj Hobj).
    destruct (cause_of obj); simpl in *; auto; lia.
Qed.

Lemma root_total h e :
  chain_wf cause_of h -> points_below (length h) e ->
  exists r, root cause_of h e = Some r /\ is_wrapper r = false.
Proof.
  intros Hwf Hb.
  destruct (root_fuel_total h Hwf (length h) e Hb) as [r Hr]; [lia |].
  exists r. split; [exact Hr | eapply root_fuel_is_plain; exact Hr].
Qed.

(** Unwrapping does not change the innermost cause. *)
Lemma root_unwrap h p obj r :
  h !! p = Some obj ->
  root cause_of h (wrapper p) = Some r -> root cause_of h (cause_of obj) = Some r.
Proof.
  unfold root. intros Hobj Hr.
  destruct (length h) as [| n]; simpl in Hr; [discriminate |].
  rewrite Hobj in Hr. simpl in Hr.
  apply (root_fuel_more n 1) in Hr.
  rewrite Nat.add_1_r in Hr. exact Hr.
Qed.

Lemma wraps_root h a a' r :
  wraps cause_of h a a' ->
  root cause_of h a' = Some r -> root cause_of h a = Some r.
Proof.
  induction 1 as [| p obj Hobj _ IH]; intros Hr; [exact Hr |].
  apply IH. eapply root_unwrap; eassumption.
Qed.

Lemma wraps_below h a a' :
  chain_wf cause_of h -> wraps cause_of h a a' ->
  points_below (length h) a' -> points_below (length h) a.
Proof.
  intros Hwf. induction 1 as [| p obj Hobj _ IH]; intros Hb; [exact Hb |].
  apply IH. specialize (Hwf p obj Hobj). simpl in Hb.
  destruct (cause_of obj); simpl in *; auto; lia.
Qed.

(** Allocation and the rewriting of a cell that keeps its cause preserve
    well-formedness. *)
Lemma heap_wf_app h obj :
  heap_wf cause_of h -> within (length h) (cause_of obj) ->
  heap_wf cause_of (h ++ [obj]).
Proof.
  intros Hwf Hobj p o Hp.
  destruct (decide (p < length h)) as [Hlt | Hge].
  - rewrite lookup_app_l in Hp by exact Hlt. exact (Hwf p o Hp).
  - pose proof (lookup_lt_Some _ _ _ Hp) as Hlen.
    rewrite length_app in Hlen. simpl in Hlen.
    assert (p = length h) as -> by lia.
    rewrite list_lookup_middle in Hp by reflexivity.
    injection Hp as <-. exact Hobj.
Qed.

Lemma heap_wf_insert h p obj obj' :
  heap_wf cause_of h -> h !! p = Some obj -> cause_of obj' = cause_of obj ->
  heap_wf cause_of (<[p := obj']> h).
Proof.
  intros Hwf Hp Hc q o Hq.
  destruct (decide (q = p)) as [-> | Hne].
  - rewrite list_lookup_insert_eq in Hq by (eapply lookup_lt_Some; exact Hp).
    injection Hq as <-. rewrite Hc. exact (Hwf p obj Hp).
  - rewrite list_lookup_insert_ne in Hq by congruence. exact (Hwf q o Hq).
Qed.

(** *** [Is] and heaps that grow *)

Lemma root_fuel_app n h h' e r :
  root_fuel cause_of n h e = Some r -> root_fuel cause_of n (h ++ h') e = Some r.
Proof.
  revert e. induction n as [| n IH]; intros e.
  - destruct e; simpl; auto.
  - destruct e as [| p | | |]; simpl; auto.
    destruct (h !! p) as [obj |] eqn:Hp; simpl; [| discriminate].
    rewrite (lookup_app_l_Some _ _ _ _ Hp). simpl. apply IH.
Qed.

Lemma root_app h h' e r :
  root cause_of h e = Some r -> root cause_of (h ++ h') e = Some r.
Proof.
  unfold root. intros H. rewrite length_app.
  apply root_fuel_more, root_fuel_app, H.
Qed.

Lemma Is_gen_app h h' a b :
  chain_wf cause_of h ->
  points_below (length h) a -> points_below (length h) b ->
  Is_gen cause_of (h ++ h') a b = Is_gen cause_of h a b.
Proof.
  intros Hwf Ha Hb.
  destruct (root_total h a Hwf Ha) as (ra & Hra & _).
  destruct (root_total h b Hwf Hb) as (rb & Hrb & _).
  rewrite (Is_gen_roots h a b ra rb Hra Hrb).
  apply Is_gen_roots; apply root_app; assumption.
Qed.

Lemma root_fresh_wrapper h obj r :
  root cause_of h (cause_of obj) = Some r ->
  root cause_of (h ++ [obj]) (wrapper (length h)) = Some r.
Proof.
  unfold root. intros H. rewrite length_app, Nat.add_1_r. simpl.
  rewrite list_lookup_middle by reflexivity. simpl.
  apply root_fuel_app, H.
Qed.

(** Wrapping an operand in a new cell leaves the verdict as it was. *)
Lemma Is_gen_fresh_wrapper h obj b :
  chain_wf cause_of h ->
  points_below (length h) (cause_of obj) -> points_below (length h) b ->
  Is_gen cause_of (h ++ [obj]) (wrapper (length h)) b =
    Is_gen cause_of h (cause_of obj) b /\
  Is_gen cause_of (h ++ [obj]) b (wrapper (length h)) =
    Is_gen cause_of h b (cause_of obj).
Proof.
  intros Hwf Ha Hb.
  destruct (root_total h (cause_of obj) Hwf Ha) as (ra & Hra & _).
  destruct (root_total h b Hwf Hb) as (rb & Hrb & _).
  rewrite (Is_gen_roots h _ b ra rb Hra Hrb).
  rewrite (Is_gen_roots h b _ rb ra Hrb Hra).
  split; apply Is_gen_roots;
    first [apply root_fresh_wrapper; assumption | apply root_app; assumption].
Qed.
End Chains.

End ChainFacts.

(* ================================================================= *)
(** ** [Is]: verdicts *)

Module IsFacts.
Import Common ChainFacts.

Section Verdicts.
Context {Obj : Type} (cause_of : Obj -> error).
Implicit Types (h : list Obj) (e o : error).

(** Two values that are no wrappers are compared with [==] and nothing else. *)
Lemma Is_gen_plain h e o :
  is_wrapper e = false -> is_wrapper o = false ->
  Is_gen cause_of h e o = Some (iface_eq e o).
Proof.
  intros He Ho. unfold Is_gen. rewrite Is_fuel_unfold.
  destruct (iface_eq e o); [reflexivity |].
  destruct e; try discriminate; destruct o; try discriminate; reflexivity.
Qed.


(** Symmetry, and transparency of any number of wrapper layers. *)
Lemma Is_gen_symmetric_transparent h a b a' b' :
  chain_wf cause_of h ->
  points_below (length h) a' -> points_below (length h) b' ->
  wraps cause_of h a a' -> wraps cause_of h b b' ->
  exists v,
    Is_gen cause_of h a b = Some v /\ Is_gen cause_of h b a = Some v /\
    Is_gen cause_of h a' b' = Some v /\ Is_gen cause_of h b' a' = Some v /\
    Is_gen cause_of h a' b = Some v /\ Is_gen cause_of h a b' = Some v.
Proof.
  intros Hwf Ha' Hb' Hwa Hwb.
  destruct (root_total cause_of h a' Hwf Ha') as (ra & Hra' & _).
  destruct (root_total cause_of h b' Hwf Hb') as (rb & Hrb' & _).
  pose proof (wraps_root cause_of h a a' ra Hwa Hra') as Hra.
  pose proof (wraps_root cause_of h b b' rb Hwb Hrb') as Hrb.
  exists (iface_eq ra rb).
  repeat split; try (apply Is_gen_roots; assumption).
  - rewrite iface_eq_sym. apply Is_gen_roots; assumption.
  - rewrite iface_eq_sym. apply Is_gen_roots; assumption.
Qed.

Lemma Is_gen_nil_nil h : Is_gen cause_of h nil nil = Some true.
Proof. unfold Is_gen. rewrite Is_fuel_unfold. reflexivity. Qed.

Lemma Is_gen_against_nil h p c :
  root cause_of h (wrapper p) = Some c -> c <> nil ->
  Is_gen cause_of h (wrapper p) nil = Some false /\
  Is_gen cause_of h nil (wrapper p) = Some false.
Proof.
  intros Hc Hnil.
  assert (root cause_of h nil = Some nil) as Hn
    by (apply root_fuel_plain; reflexivity).
  rewrite (Is_gen_roots cause_of h _ _ _ _ Hc Hn).
  rewrite (Is_gen_roots cause_of h _ _ _ _ Hn Hc).
  rewrite (iface_eq_sym nil c), (iface_eq_nil_r c Hnil). auto.
Qed.
End Verdicts.

(** The [Is] of the [wrappedError] rendition: symmetric and blind to
    wrapper layers as well. *)
Lemma Prefixed_Is_symmetric_and_chain_transparent (st : Prefixed.State)
    (a b a' b' : error) :
  chain_wf Prefixed.err (Prefixed.heap st) ->
  points_below (length (Prefixed.heap st)) a' ->
  points_below (length (Prefixed.heap st)) b' ->
  wraps Prefixed.err (Prefixed.heap st) a a' ->
  wraps Prefixed.err (Prefixed.heap st) b b' ->
  exists v,
    Prefixed.Is st a b = Some v /\ Prefixed.Is st b a = Some v /\
    Prefixed.Is st a' b' = Some v /\ Prefixed.Is st b' a' = Some v.
Proof.
  intros Hwf Ha' Hb' Hwa Hwb.
  destruct (Is_gen_symmetric_transparent Prefixed.err (Prefixed.heap st)
              a b a' b' Hwf Ha' Hb' Hwa Hwb) as (v & H1 & H2 & H3 & H4 & _).
  exists v. unfold Prefixed.Is. auto.
Qed.

End IsFacts.

(* ================================================================= *)
(** ** Facts about the [wrappedError] rendition *)

Module PrefixedFacts.
Import Common ChainFacts Prefixed.

Lemma error_Error_unfold (n : nat) (h : list wrappedError) (e : error) :
  error_Error n h e =
  match e with
  | nil => None
  | wrapper p =>
      match n with
      | 0 => None
      | S n' =>
          obj ← h !! p; msg ← error_Error n' h (err obj); Some (with_prefix obj msg)
      end
  | errorString _ s => Some s
  | errorWithCustomIs Key Err =>
      msg ← error_Error n h Err; Some ("[" +:+ Key +:+ "]: " +:+ msg)
  | uncaughtPanic message => Some message
  end.
Proof. destruct n, e; reflexivity. Qed.

(** A message that was computed stays the same with more fuel and in any
    heap that keeps the cells of [h]. *)
Lemma error_Error_more (h h' : list wrappedError) :
  (forall q obj, h !! q = Some obj -> h' !! q = Some obj) ->
  forall n n' e m,
    n <= n' -> error_Error n h e = Some m -> error_Error n' h' e = Some m.
Proof.
  intros Hsub n.
  induction n as [| n IHn]; intros n' e;
    induction e as [| p | p s | key e IHe | msg]; intros m Hle;
    rewrite (error_Error_unfold _ h), (error_Error_unfold _ h');
    try (intros H; exact H); try discriminate.
  - destruct (error_Error 0 h e) as [m0 |] eqn:E; simpl; [| discriminate].
    intros [= <-]. rewrite (IHe m0 Hle eq_refl). reflexivity.
  - destruct n' as [| n']; [lia |].
    destruct (h !! p) as [obj |] eqn:Hp; simpl; [| discriminate].
    rewrite (Hsub p obj Hp). simpl.
    destruct (error_Error n h (err obj)) as [m0 |] eqn:E; simpl; [| discriminate].
    intros [= <-]. rewrite (IHn n' (err obj) m0); [reflexivity | lia | exact E].
  - destruct (error_Error (S n) h e) as [m0 |] eqn:E; simpl; [| discriminate].
    intros [= <-]. rewrite (IHe m0 Hle eq_refl). reflexivity.
Qed.

(** Rewriting cell [p] does not change the message of a value made before it. *)
Lemma error_Error_insert (h : list wrappedError) (p : loc) (obj' : wrappedError) :
  heap_wf err h ->
  forall n e, within p e ->
    error_Error n (<[p := obj']> h) e = error_Error n h e.
Proof.
  intros Hwf n. induction n as [| n IHn]; intros e;
    induction e as [| q | q s | key e IHe | msg]; intros Hin;
    rewrite (error_Error_unfold _ h), (error_Error_unfold _ (<[p := obj']> h));
    try reflexivity.
  - simpl in Hin. rewrite list_lookup_insert_ne by lia.
    destruct (h !! q) as [obj |] eqn:Hq; simpl; [| reflexivity].
    rewrite IHn; [reflexivity |].
    apply (within_weaken q p); [lia | apply (Hwf q obj Hq)].
  - simpl in Hin. rewrite (IHe Hin). reflexivity.
Qed.

(** On a well-formed heap the fuel given to [error_Error] does not matter
    once it covers the pointers of the value: a result [None] is a panic of
    the Go code, not a lack of fuel. *)
Lemma error_Error_enough (h : list wrappedError) :
  heap_wf err h ->
  forall n n' e k, within k e -> k <= n -> k <= n' ->
    error_Error n h e = error_Error n' h e.
Proof.
  intros Hwf n.
  induction n as [| n IHn]; intros n' e;
    induction e as [| q | q s | key e IHe | msg]; intros k Hin Hn Hn';
    rewrite (error_Error_unfold _ h), (error_Error_unfold n' h);
    try reflexivity; simpl in Hin; try lia.
  - rewrite (IHe k Hin Hn Hn'). reflexivity.
  - destruct n' as [| n']; [lia |].
    destruct (h !! q) as [obj |] eqn:Hq; simpl; [| reflexivity].
    rewrite (IHn n' (err obj) q); [reflexivity | exact (Hwf q obj Hq) | lia | lia].
  - rewrite (IHe k Hin Hn Hn'). reflexivity.
Qed.

(** *** What each call does to the state *)

Lemma capture_ok (skip : Z) (chain : list uintptr) (st : State) :
  (0 <= MaxStackDepth st)%Z ->
  capture skip chain st =
  Some (runtime_Callers skip (Z.to_nat (MaxStackDepth st)) chain, st).
Proof.
  intros H. unfold capture.
  destruct (Z.ltb_spec (MaxStackDepth st) 0) as [Hneg | _]; [lia | reflexivity].
Qed.

Lemma normalize_error (e : error) (st : State) :
  e <> nil -> normalize (of_error e) st = Some (e, st).
Proof. destruct e; intros H; try reflexivity. congruence. Qed.

(** [Wrap] of a value that is an error and no wrapper allocates one cell. *)
Lemma Wrap_allocates (chain : list uintptr) (e : error) (skip : Z) (st : State) :
  e <> nil -> is_wrapper e = false -> (0 <= MaxStackDepth st)%Z ->
  Wrap chain (of_error e) skip st =
  Some (length (heap st),
        set_heap st
          (heap st ++
           [{| err := e;
               stack := runtime_Callers (2 + skip) (Z.to_nat (MaxStackDepth st))
                          (pc_Callers :: pc_Wrap :: chain);
               frames := None; prefix := "" |}])).
Proof.
  intros Hnil Hw Hd.
  destruct e; try congruence; try discriminate;
    cbv [Wrap normalize mbind M_bind mret M_ret];
    rewrite capture_ok by assumption; reflexivity.
Qed.

Lemma WrapPrefix_wrapper (chain : list uintptr) (p : loc) (obj : wrappedError)
    (pre : string) (skip : Z) (st : State) :
  heap st !! p = Some obj ->
  WrapPrefix chain (of_error (wrapper p)) pre skip st =
  Some (p, set_heap st
             (<[p := set_prefix obj
                       (if negb (String.eqb (prefix obj) "")
                        then pre +:+ ": " +:+ prefix obj else pre)]> (heap st))).
Proof.
  intros Hp. cbv [WrapPrefix Wrap mbind M_bind mret M_ret deref store].
  rewrite Hp. reflexivity.
Qed.

Lemma WrapPrefix_fresh (chain : list uintptr) (e : error) (pre : string)
    (skip : Z) (st : State) :
  e <> nil -> is_wrapper e = false -> (0 <= MaxStackDepth st)%Z ->
  WrapPrefix chain (of_error e) pre skip st =
  Some (length (heap st),
        set_heap st
          (heap st ++
           [{| err := e;
               stack := runtime_Callers (2 + skip) (Z.to_nat (MaxStackDepth st))
                          (pc_Callers :: pc_Wrap :: pc_WrapPrefix :: chain);
               frames := None; prefix := pre |}])).
Proof.
  intros Hnil Hw Hd. unfold WrapPrefix.
  cbv [mbind M_bind]. rewrite Wrap_allocates by assumption.
  cbv [deref store mret M_ret set_heap heap].
  rewrite list_lookup_middle by reflexivity.
  cbn [prefix String.eqb negb set_prefix err stack frames].
  rewrite insert_app_r_alt, Nat.sub_diag by reflexivity. reflexivity.
Qed.

Lemma Error_of_cell (p : loc) (obj : wrappedError) (m0 : string) (st : State) :
  heap st !! p = Some obj ->
  error_Error (length (heap st)) (heap st) (err obj) = Some m0 ->
  Error p st = Some (with_prefix obj m0, st).
Proof.
  intros Hp Hm. cbv [Error call deref wrappedError_Error mbind M_bind].
  rewrite Hp, Hm. reflexivity.
Qed.

(** *** [New] never fails *)

Lemma normalize_run (v : value) (st : State) :
  exists e st',
    normalize v st = Some (e, st') /\ made_from (next_errorString st) v e /\
    e <> nil /\ heap st' = heap st /\ symbols st' = symbols st /\
    MaxStackDepth st' = MaxStackDepth st.
Proof.
  destruct v as [[| | | |] | |]; simpl; eexists _, _;
    (split; [reflexivity |]); simpl; repeat split; discriminate.
Qed.

(** [New] returns a new cell for every argument, as long as [MaxStackDepth]
    is not negative; the cause it keeps is not nil. *)
Lemma New_succeeds (chain : list uintptr) (v : value) (st : State) :
  (0 <= MaxStackDepth st)%Z ->
  exists obj st',
    New chain v st = Some (length (heap st), st') /\
    heap st' = (heap st ++ [obj])%list /\
    symbols st' = symbols st /\ MaxStackDepth st' = MaxStackDepth st /\
    made_from (next_errorString st) v (err obj) /\ err obj <> nil /\
    stack obj = runtime_Callers 2 (Z.to_nat (MaxStackDepth st))
                  (pc_Callers :: pc_New :: chain) /\
    frames obj = None /\ prefix obj = "".
Proof.
  intros Hd.
  destruct (normalize_run v st) as (e & st1 & Hn & Hmade & Hnil & Hh & Hs & Hm).
  unfold New. cbv [mbind M_bind]. rewrite Hn. cbn beta iota.
  rewrite capture_ok by (rewrite Hm; exact Hd). cbn beta iota.
  unfold alloc. rewrite Hh, Hm.
  eexists _, _. split; [reflexivity |]. simpl.
  repeat split; assumption.
Qed.


(** *** The heap stays well-formed *)

Lemma New_heap_wf (chain : list uintptr) (v : value) (st : State) p st' :
  heap_wf err (heap st) -> value_within (length (heap st)) v ->
  New chain v st = Some (p, st') -> heap_wf err (heap st').
Proof.
  intros Hwf Hv Hnew.
  destruct (Z.ltb_spec (MaxStackDepth st) 0) as [Hneg | Hd].
  - exfalso. destruct (normalize_run v st) as (e & st1 & Hn & _ & _ & _ & _ & Hm).
    unfold New in Hnew. cbv [mbind M_bind] in Hnew. rewrite Hn in Hnew.
    cbn beta iota in Hnew. unfold capture in Hnew. rewrite Hm in Hnew.
    destruct (Z.ltb_spec (MaxStackDepth st) 0); [discriminate | lia].
  - destruct (New_succeeds chain v st Hd)
      as (obj & st2 & Hnew2 & Hh & _ & _ & Hmade & _).
    rewrite Hnew2 in Hnew. injection Hnew as _ <-. rewrite Hh.
    apply heap_wf_app; [exact Hwf |].
    eapply made_from_within; eassumption.
Qed.

Lemma WrapPrefix_heap_wf (chain : list uintptr) (e : error) (pre : string)
    (skip : Z) (st : State) p st' :
  heap_wf err (heap st) -> within (length (heap st)) e -> e <> nil ->
  WrapPrefix chain (of_error e) pre skip st = Some (p, st') ->
  heap_wf err (heap st').
Proof.
  intros Hwf He Hnil Hrun.
  destruct (is_wrapper e) eqn:Hw.
  - destruct e as [| p0 | | |]; try discriminate.
    simpl in He. destruct (lookup_lt_is_Some_2 (heap st) p0 He) as [obj Hp0].
    rewrite (WrapPrefix_wrapper chain p0 obj pre skip st Hp0) in Hrun.
    injection Hrun as _ <-. simpl.
    eapply heap_wf_insert; [exact Hwf | exact Hp0 | reflexivity].
  - destruct (Z.ltb_spec (MaxStackDepth st) 0) as [Hneg | Hd].
    + exfalso. unfold WrapPrefix, Wrap in Hrun.
      destruct e; try congruence; try discriminate;
        cbv [mbind M_bind normalize mret M_ret capture] in Hrun;
        destruct (Z.ltb_spec (MaxStackDepth st) 0); try discriminate; lia.
    + rewrite (WrapPrefix_fresh chain e pre skip st Hnil Hw Hd) in Hrun.
      injection Hrun as _ <-. simpl.
      apply heap_wf_app; [exact Hwf | exact He].
Qed.

(** *** Wrapping and [Is] *)

(** Wrapping [a] with [New] does not change what [Is] answers. *)
Lemma Is_unchanged_by_New (chain : list uintptr) (a b : error) (st : State) p st' :
  chain_wf err (heap st) ->
  points_below (length (heap st)) a -> points_below (length (heap st)) b ->
  a <> nil ->
  New chain (of_error a) st = Some (p, st') ->
  Is st' (wrapper p) b = Is st a b /\ Is st' b (wrapper p) = Is st b a /\
  wraps err (heap st') a (wrapper p).
Proof.
  intros Hwf Ha Hb Hnil Hnew.
  destruct (Z.ltb_spec (MaxStackDepth st) 0) as [Hneg | Hd].
  - exfalso. unfold New in Hnew. cbv [mbind M_bind] in Hnew.
    rewrite (normalize_error a st Hnil) in Hnew. cbn beta iota in Hnew.
    unfold capture in Hnew.
    destruct (Z.ltb_spec (MaxStackDepth st) 0); [discriminate | lia].
  - destruct (New_succeeds chain (of_error a) st Hd)
      as (obj & st2 & Hnew2 & Hh & _ & _ & Hmade & _).
    rewrite Hnew2 in Hnew. injection Hnew as <- <-.
    assert (err obj = a) as Hobj by (destruct a; simpl in Hmade; congruence).
    unfold Is. rewrite Hh. subst a.
    destruct (Is_gen_fresh_wrapper err (heap st) obj b Hwf Ha Hb) as [H1 H2].
    repeat split; try assumption.
    eapply wraps_more; [apply list_lookup_middle; reflexivity | apply wraps_none].
Qed.

(** *** Frames *)

Lemma resolved_more_none (st : State) : resolved_more st 0 = st.
Proof. destruct st; reflexivity. Qed.

Lemma resolve_all_run (s : list uintptr) (st : State) :
  resolve_all s st =
  Some (map (NewStackFrame_of (symbols st)) s, resolved_more st (length s)).
Proof.
  revert st. induction s as [| pc rest IH]; intros st.
  - simpl. rewrite resolved_more_none. reflexivity.
  - cbn [resolve_all]. cbv [mbind M_bind NewStackFrame]. rewrite IH.
    cbv [mret M_ret resolved_more]. simpl.
    rewrite Nat.add_succ_r. reflexivity.
Qed.

(** The method returns the frames, and the heap cell is left as it was. *)
Lemma StackFrames_on_copy (p : loc) (obj : wrappedError) (st : State) :
  heap st !! p = Some obj ->
  StackFrames p st =
  Some (match frames obj with
        | Some fs => (fs, st)
        | None => (map (NewStackFrame_of (symbols st)) (stack obj),
                   resolved_more st (length (stack obj)))
        end).
Proof.
  intros Hp. cbv [StackFrames call deref mbind M_bind wrappedError_StackFrames].
  rewrite Hp. destruct (frames obj) as [fs |]; [reflexivity |].
  cbv [mbind M_bind]. rewrite resolve_all_run. reflexivity.
Qed.

Lemma Stack_run (p : loc) (obj : wrappedError) (st : State) :
  heap st !! p = Some obj ->
  Stack p st =
  Some (match frames obj with
        | Some fs => (write_frames fs, st)
        | None => (write_frames (map (NewStackFrame_of (symbols st)) (stack obj)),
                   resolved_more st (length (stack obj)))
        end).
Proof.
  intros Hp.
  cbv [Stack call deref mbind M_bind wrappedError_Stack wrappedError_StackFrames].
  rewrite Hp. destruct (frames obj) as [fs |]; [reflexivity |].
  cbv [mbind M_bind]. rewrite resolve_all_run. reflexivity.
Qed.

(** The addresses [New] captures are at most [MaxStackDepth], and
    [StackFrames()] returns one frame per address, in order. *)
Lemma New_stack_bounded (chain : list uintptr) (v : value) (st : State) :
  (0 <= MaxStackDepth st)%Z ->
  exists p st' obj st2,
    New chain v st = Some (p, st') /\ heap st' !! p = Some obj /\
    (Z.of_nat (length (stack obj)) <= MaxStackDepth st)%Z /\
    StackFrames p st' =
      Some (map (NewStackFrame_of (symbols st)) (stack obj), st2).
Proof.
  intros Hd.
  destruct (New_succeeds chain v st Hd)
    as (obj & st' & Hnew & Hh & Hs & _ & _ & _ & Hstack & Hfr & _).
  assert (heap st' !! length (heap st) = Some obj) as Hp
    by (rewrite Hh; apply list_lookup_middle; reflexivity).
  exists (length (heap st)), st', obj. eexists.
  split; [exact Hnew |]. split; [exact Hp |]. split.
  - rewrite Hstack. unfold runtime_Callers. rewrite length_take. lia.
  - rewrite (StackFrames_on_copy _ obj st' Hp), Hfr, Hs. reflexivity.
Qed.

(** The assignment [err.frames = ...] reaches the callee's copy only: the
    cell keeps [frames == nil], and the next call resolves every address
    again. *)
Lemma StackFrames_resolves_on_every_call (p : loc) (obj : wrappedError)
    (st : State) :
  heap st !! p = Some obj -> frames obj = None ->
  exists fs st1 st2,
    StackFrames p st = Some (fs, st1) /\ heap st1 = heap st /\
    resolutions st1 = length (stack obj) + resolutions st /\
    StackFrames p st1 = Some (fs, st2) /\ heap st2 = heap st /\
    resolutions st2 = length (stack obj) + resolutions st1.
Proof.
  intros Hp Hf.
  rewrite (StackFrames_on_copy p obj st Hp), Hf.
  eexists _, _, _. split; [reflexivity |].
  split; [reflexivity |]. split; [reflexivity |].
  erewrite StackFrames_on_copy by exact Hp. rewrite Hf.
  split; [reflexivity |]. split; reflexivity.
Qed.

End PrefixedFacts.

(* ================================================================= *)
(** ** Facts about the [Error] struct rendition *)

Module TitledFacts.
Import Common ChainFacts Titled.

Lemma resolved_more_0 (st : State) : resolved_more st 0 = st.
Proof. destruct st; reflexivity. Qed.

Lemma stackFrames_run (s : list uintptr) (st : State) :
  stackFrames s st = Some (resolve (symbols st) s, resolved_more st (length s)).
Proof.
  revert st. induction s as [| pc rest IH]; intros st.
  - simpl. rewrite resolved_more_0. reflexivity.
  - cbn [stackFrames]. cbv [mbind M_bind NewStackFrame]. rewrite IH.
    cbv [mret M_ret resolved_more]. simpl.
    rewrite Nat.add_succ_r. reflexivity.
Qed.

Lemma StackFrames_run (p : loc) (obj : Error) (st : State) :
  heap st !! p = Some obj ->
  StackFrames p st =
  Some (match frames obj with
        | Some fs => (fs, st)
        | None =>
            (resolve (symbols st) (stack obj),
             set_heap (resolved_more st (length (stack obj)))
               (<[p := set_frames obj (Some (resolve (symbols st) (stack obj)))]>
                  (heap st)))
        end).
Proof.
  intros Hp. cbv [StackFrames deref mbind M_bind]. rewrite Hp.
  destruct (frames obj) as [fs |]; [reflexivity |].
  rewrite stackFrames_run. reflexivity.
Qed.

Lemma StackTrace_run (p : loc) (obj : Error) (st : State) :
  heap st !! p = Some obj ->
  StackTrace p st =
  Some (match frames obj with
        | Some fs => (stack_of_frames fs, st)
        | None =>
            (stack_of_frames (resolve (symbols st) (stack obj)),
             set_heap (resolved_more st (length (stack obj)))
               (<[p := set_frames obj (Some (resolve (symbols st) (stack obj)))]>
                  (heap st)))
        end).
Proof.
  intros Hp. unfold StackTrace. cbv [deref mbind M_bind]. rewrite Hp.
  destruct (frames obj) as [fs |] eqn:Hf; [reflexivity |].
  rewrite (StackFrames_run p obj st Hp), Hf.
  cbn [heap set_heap resolved_more].
  rewrite list_lookup_insert_eq by (eapply lookup_lt_Some; exact Hp).
  cbv [store mret M_ret set_heap resolved_more]. cbn.
  rewrite list_insert_insert_eq. reflexivity.
Qed.

(** *** Cells only evolve *)

Lemma cell_evolves_refl syms obj : cell_evolves syms obj obj.
Proof. unfold cell_evolves. auto. Qed.

Lemma grows_refl st : grows st st.
Proof.
  split; [reflexivity |]. intros q obj Hq. exists obj.
  split; [exact Hq | apply cell_evolves_refl].
Qed.

Lemma grows_trans st1 st2 st3 : grows st1 st2 -> grows st2 st3 -> grows st1 st3.
Proof.
  intros [Hs12 H12] [Hs23 H23]. split; [congruence |].
  intros q obj Hq.
  destruct (H12 q obj Hq) as (obj2 & Hq2 & He2 & Hk2 & Hf2).
  destruct (H23 q obj2 Hq2) as (obj3 & Hq3 & He3 & Hk3 & Hf3).
  exists obj3. split; [exact Hq3 |].
  rewrite Hs12, Hk2 in Hf3.
  repeat split; try congruence.
  destruct Hf3 as [Hf3 | Hf3]; [| right; exact Hf3].
  destruct Hf2 as [Hf2 | Hf2]; [left | right]; congruence.
Qed.

Lemma mgrows_ret {A} (a : A) : mgrows (mret a).
Proof. intros st b st' [= <- <-]. apply grows_refl. Qed.

Lemma mgrows_bind {A B} (m : M State A) (f : A -> M State B) :
  mgrows m -> (forall a, mgrows (f a)) -> mgrows (a ← m; f a).
Proof.
  intros Hm Hf st b st'. cbv [mbind M_bind].
  destruct (m st) as [[a st1] |] eqn:E; [| discriminate].
  intros Hfa. eapply grows_trans; [eapply Hm | eapply Hf]; eassumption.
Qed.

(** A step that leaves heap and symbols alone. *)
Lemma mgrows_same {A} (m : M State A) :
  (forall st a st', m st = Some (a, st') ->
     heap st' = heap st /\ symbols st' = symbols st) ->
  mgrows m.
Proof.
  intros H st a st' Hrun. destruct (H st a st' Hrun) as [Hh Hs].
  split; [exact Hs |]. intros q obj Hq. exists obj. rewrite Hh.
  split; [exact Hq | apply cell_evolves_refl].
Qed.

Lemma mgrows_alloc obj : mgrows (alloc obj).
Proof.
  intros st p st' [= <- <-]. split; [reflexivity |].
  intros q o Hq. exists o. simpl.
  rewrite lookup_app_l by (eapply lookup_lt_Some; exact Hq).
  split; [exact Hq | apply cell_evolves_refl].
Qed.

Lemma mgrows_fmt_Errorf s : mgrows (fmt_Errorf s).
Proof. apply mgrows_same. intros st a st' [= <- <-]. auto. Qed.

Lemma mgrows_normalize e : mgrows (normalize e).
Proof.
  destruct e as [[| | | |] | |]; simpl;
    apply mgrows_fmt_Errorf || apply mgrows_ret.
Qed.

Lemma mgrows_capture skip chain : mgrows (capture skip chain).
Proof.
  apply mgrows_same. intros st a st'. unfold capture.
  destruct (MaxStackDepth st <? 0)%Z; [discriminate |]. intros [= <- <-]. auto.
Qed.

Lemma mgrows_stackFrames s : mgrows (stackFrames s).
Proof.
  apply mgrows_same. intros st a st'. rewrite stackFrames_run.
  intros [= <- <-]. auto.
Qed.

Lemma mgrows_iface_Error e : mgrows (iface_Error e).
Proof.
  apply mgrows_same. intros st a st'. unfold iface_Error.
  destruct (error_Error _ _ _); [| discriminate]. intros [= <- <-]. auto.
Qed.

Lemma mgrows_or_panic {A} (o : option A) : mgrows (or_panic o).
Proof.
  apply mgrows_same. intros st a st'. unfold or_panic.
  destruct o; [| discriminate]. intros [= <- <-]. auto.
Qed.

Lemma mgrows_errorStack t e s : mgrows (errorStack t e s).
Proof.
  apply mgrows_bind; [apply mgrows_iface_Error | intros; apply mgrows_ret].
Qed.

Lemma mgrows_deref p : mgrows (deref p).
Proof.
  apply mgrows_same. intros st a st'. unfold deref.
  destruct (heap st !! p); [| discriminate]. intros [= <- <-]. auto.
Qed.

Ltac mgrows_steps :=
  repeat first
    [ apply mgrows_bind; [| intros ?]
    | apply mgrows_ret | apply mgrows_alloc | apply mgrows_fmt_Errorf
    | apply mgrows_normalize | apply mgrows_capture | apply mgrows_stackFrames
    | apply mgrows_iface_Error | apply mgrows_or_panic | apply mgrows_errorStack
    | apply mgrows_deref ].

Lemma mgrows_New chain e : mgrows (New chain e).
Proof. unfold New, typeName. mgrows_steps. Qed.

Lemma mgrows_Custom chain e desc title : mgrows (Custom chain e desc title).
Proof. unfold Custom, typeName. mgrows_steps. Qed.

Lemma mgrows_Wrap chain e skip : mgrows (Wrap chain e skip).
Proof.
  unfold Wrap, typeName.
  destruct e as [[| | | |] | |]; mgrows_steps.
Qed.

Lemma mgrows_Errorf chain text : mgrows (Errorf chain text).
Proof.
  unfold Errorf. apply mgrows_bind; [apply mgrows_fmt_Errorf |].
  intros a. apply mgrows_Wrap.
Qed.

Lemma grows_cache (p : loc) (obj : Error) (st : State) (k : nat) :
  heap st !! p = Some obj ->
  grows st
    (set_heap (resolved_more st k)
       (<[p := set_frames obj (Some (resolve (symbols st) (stack obj)))]> (heap st))).
Proof.
  intros Hp. split; [reflexivity |].
  intros q o Hq. simpl.
  destruct (decide (q = p)) as [-> | Hne].
  - rewrite list_lookup_insert_eq by (eapply lookup_lt_Some; exact Hp).
    eexists. split; [reflexivity |].
    assert (o = obj) as -> by congruence.
    unfold cell_evolves. simpl. auto.
  - rewrite list_lookup_insert_ne by congruence.
    exists o. split; [exact Hq | apply cell_evolves_refl].
Qed.

Lemma mgrows_StackFrames p : mgrows (StackFrames p).
Proof.
  intros st a st' Hrun.
  destruct (heap st !! p) as [obj |] eqn:Hp.
  - rewrite (StackFrames_run p obj st Hp) in Hrun.
    destruct (frames obj); injection Hrun as <- <-;
      [apply grows_refl | apply grows_cache; exact Hp].
  - cbv [StackFrames deref mbind M_bind] in Hrun. rewrite Hp in Hrun.
    discriminate.
Qed.

Lemma mgrows_StackTrace p : mgrows (StackTrace p).
Proof.
  intros st a st' Hrun.
  destruct (heap st !! p) as [obj |] eqn:Hp.
  - rewrite (StackTrace_run p obj st Hp) in Hrun.
    destruct (frames obj); injection Hrun as <- <-;
      [apply grows_refl | apply grows_cache; exact Hp].
  - cbv [StackTrace deref mbind M_bind] in Hrun. rewrite Hp in Hrun.
    discriminate.
Qed.

Lemma mgrows_TypeName p : mgrows (TypeName p).
Proof. unfold TypeName, typeName. mgrows_steps. Qed.

Lemma mgrows_ErrorStack p : mgrows (ErrorStack p).
Proof.
  unfold ErrorStack.
  apply mgrows_bind; [apply mgrows_TypeName | intros t].
  apply mgrows_bind; [apply mgrows_StackTrace | intros s].
  apply mgrows_errorStack.
Qed.

Lemma mgrows_set_MaxStackDepth d : mgrows (set_MaxStackDepth d).
Proof. apply mgrows_same. intros st a st' [= <- <-]. auto. Qed.

Lemma mgrows_run {A} (m : M State A) st st' :
  mgrows m -> snd <$> m st = Some st' -> grows st st'.
Proof.
  intros Hm Hrun. destruct (m st) as [[a st1] |] eqn:E; [| discriminate].
  injection Hrun as <-. eapply Hm. exact E.
Qed.

(** Every call lets the cells only evolve. *)
Lemma run_grows (c : call) (st st' : State) : run c st = Some st' -> grows st st'.
Proof.
  destruct c; cbn [run]; apply mgrows_run;
    [ apply mgrows_New | apply mgrows_Custom | apply mgrows_Wrap
    | apply mgrows_Errorf | apply mgrows_iface_Error | apply mgrows_StackFrames
    | apply mgrows_StackTrace | apply mgrows_TypeName | apply mgrows_ErrorStack
    | apply mgrows_set_MaxStackDepth ].
Qed.

Lemma run_all_grows (cs : list call) (st st' : State) :
  run_all cs st = Some st' -> grows st st'.
Proof.
  revert st. induction cs as [| c rest IH]; intros st; simpl.
  - intros [= <-]. apply grows_refl.
  - destruct (run c st) as [st1 |] eqn:E; simpl; [| discriminate].
    intros Hrest. eapply grows_trans; [eapply run_grows; exact E | apply IH, Hrest].
Qed.

(** *** Messages *)

Lemma error_Error_cases (n : nat) (h : list Error) (e : error) :
  error_Error n h e =
  match e with
  | nil => None
  | wrapper p =>
      match n with
      | 0 => None
      | S n' => obj ← h !! p; error_Error n' h (Err obj)
      end
  | errorString _ s => Some s
  | errorWithCustomIs Key Err =>
      msg ← error_Error n h Err; Some ("[" +:+ Key +:+ "]: " +:+ msg)
  | uncaughtPanic message => Some message
  end.
Proof. destruct n, e; reflexivity. Qed.

(** On a well-formed heap the fuel given to [error_Error] does not matter
    once it covers the pointers of the value: when [New] gets [None] from
    [err.Error()], the Go call panics. *)
Lemma error_Error_fuel_enough (h : list Error) :
  heap_wf Err h ->
  forall n n' e k, within k e -> k <= n -> k <= n' ->
    error_Error n h e = error_Error n' h e.
Proof.
  intros Hwf n.
  induction n as [| n IHn]; intros n' e;
    induction e as [| q | q s | key e IHe | msg]; intros k Hin Hn Hn';
    rewrite (error_Error_cases _ h), (error_Error_cases n' h);
    try reflexivity; simpl in Hin; try lia.
  - rewrite (IHe k Hin Hn Hn'). reflexivity.
  - destruct n' as [| n']; [lia |].
    destruct (h !! q) as [obj |] eqn:Hq; simpl; [| reflexivity].
    rewrite (IHn n' (Err obj) q); [reflexivity | exact (Hwf q obj Hq) | lia | lia].
  - rewrite (IHe k Hin Hn Hn'). reflexivity.
Qed.

(** Storing frames in a cell changes no message. *)
Lemma error_Error_set_frames (h : list Error) (p : loc) (obj : Error)
    (fs : option (list StackFrame)) :
  h !! p = Some obj ->
  forall n e,
    error_Error n (<[p := set_frames obj fs]> h) e = error_Error n h e.
Proof.
  intros Hp n.
  induction n as [| n IHn]; intros e;
    induction e as [| q | q s | key e IHe | msg];
    rewrite (error_Error_cases _ h),
      (error_Error_cases _ (<[p := set_frames obj fs]> h));
    try reflexivity.
  - destruct (decide (q = p)) as [-> | Hne].
    + rewrite list_lookup_insert_eq by (eapply lookup_lt_Some; exact Hp).
      rewrite Hp. simpl. apply IHn.
    + rewrite list_lookup_insert_ne by congruence.
      destruct (h !! q); simpl; [apply IHn | reflexivity].
  - rewrite IHe. reflexivity.
Qed.

(** *** Constructors *)

Lemma bind_inv {A B} (m : M State A) (f : A -> M State B) st b st' :
  (a ← m; f a) st = Some (b, st') ->
  exists a st1, m st = Some (a, st1) /\ f a st1 = Some (b, st').
Proof.
  cbv [mbind M_bind]. destruct (m st) as [[a st1] |]; [| discriminate].
  intros H. exists a, st1. auto.
Qed.

Lemma same_config_refl st : same_config st st.
Proof. unfold same_config. auto. Qed.

Lemma same_config_trans st1 st2 st3 :
  same_config st1 st2 -> same_config st2 st3 -> same_config st1 st3.
Proof. unfold same_config. intros (? & ? & ?) (? & ? & ?). repeat split; congruence. Qed.

Lemma fmt_Errorf_config s st e st' :
  fmt_Errorf s st = Some (e, st') ->
  same_config st st' /\ e <> nil /\ e = errorString (next_errorString st) s.
Proof.
  intros [= <- <-].
  split; [unfold same_config; simpl; auto | split; [discriminate | reflexivity]].
Qed.

Lemma normalize_config v st e st' :
  normalize v st = Some (e, st') ->
  same_config st st' /\ e <> nil /\ made_from (next_errorString st) v e.
Proof.
  destruct v as [[| | | |] | |]; simpl;
    try apply fmt_Errorf_config;
    intros [= <- <-];
    (split; [apply same_config_refl | split; [discriminate | reflexivity]]).
Qed.

Lemma capture_inv skip chain st s st' :
  capture skip chain st = Some (s, st') ->
  st' = st /\ (0 <= MaxStackDepth st)%Z /\
  s = runtime_Callers skip (Z.to_nat (MaxStackDepth st)) chain /\
  (Z.of_nat (length s) <= MaxStackDepth st)%Z.
Proof.
  unfold capture.
  destruct (Z.ltb_spec (MaxStackDepth st) 0) as [| Hge]; [discriminate |].
  intros [= <- <-]. repeat split; try assumption.
  unfold runtime_Callers.
  rewrite length_take. lia.
Qed.

Lemma iface_Error_inv e st m st' :
  iface_Error e st = Some (m, st') ->
  st' = st /\ error_Error (length (heap st)) (heap st) e = Some m.
Proof.
  unfold iface_Error. destruct (error_Error _ _ _); [| discriminate].
  intros [= <- <-]. auto.
Qed.

Lemma or_panic_inv {A} (o : option A) (st : State) a st' :
  or_panic o st = Some (a, st') -> st' = st /\ o = Some a.
Proof. unfold or_panic. destruct o; [| discriminate]. intros [= <- <-]. auto. Qed.

Lemma errorStack_inv t e s st text st' :
  errorStack t e s st = Some (text, st') -> st' = st.
Proof.
  intros H. apply bind_inv in H as (m & st1 & H1 & H2).
  apply iface_Error_inv in H1 as [-> _]. injection H2 as _ <-. reflexivity.
Qed.

Lemma alloc_fresh v st0 st obj p st' :
  same_config st0 st -> Err obj <> nil ->
  (Z.of_nat (length (stack obj)) <= MaxStackDepth st0)%Z ->
  (frames obj = None \/ frames obj = Some (resolve (symbols st0) (stack obj))) ->
  made_from (next_errorString st0) v (Err obj) ->
  alloc obj st = Some (p, st') -> fresh_cell v st0 p st'.
Proof.
  intros (Hh & Hs & Hd) Hnil Hlen Hfr Hmade [= <- <-]. exists obj.
  simpl. rewrite Hh, Hs. repeat split; auto.
Qed.

Lemma resolved_more_config st k : same_config st (resolved_more st k).
Proof. unfold same_config. auto. Qed.

Lemma New_fresh chain v st p st' :
  New chain v st = Some (p, st') -> fresh_cell v st p st'.
Proof.
  unfold New. intros H.
  apply bind_inv in H as (err & st1 & Hn & H).
  apply normalize_config in Hn as (Hc1 & Hnil & Hmade).
  apply bind_inv in H as (s & st2 & Hcap & H).
  apply capture_inv in Hcap as (-> & Hd & Hs & Hlen).
  apply bind_inv in H as (f & st3 & Hf & H).
  rewrite stackFrames_run in Hf. injection Hf as <- <-.
  apply bind_inv in H as (title & st4 & Ht & H).
  apply iface_Error_inv in Ht as [-> _].
  apply bind_inv in H as (t & st5 & Hty & H).
  apply or_panic_inv in Hty as [-> _].
  apply bind_inv in H as (text & st6 & Htx & H).
  apply errorStack_inv in Htx as ->.
  apply bind_inv in H as (d & st7 & Hde & H).
  apply iface_Error_inv in Hde as [-> _].
  destruct Hc1 as (Hh1 & Hs1 & Hd1).
  eapply alloc_fresh; [| | | | | exact H]; simpl.
  - unfold same_config. simpl. auto.
  - exact Hnil.
  - lia.
  - right. rewrite Hs1. reflexivity.
  - exact Hmade.
Qed.

(** [New] stores the frames it resolved, and the message of the cause as
    [Title] and [Description]. *)
Lemma New_cell chain v st p st' :
  New chain v st = Some (p, st') ->
  exists obj msg,
    heap st' !! p = Some obj /\
    frames obj = Some (resolve (symbols st) (stack obj)) /\
    resolutions st' = length (stack obj) + resolutions st /\
    error_Error (length (heap st)) (heap st) (Err obj) = Some msg /\
    Title obj = msg /\ Description obj = msg.
Proof.
  unfold New. intros H.
  apply bind_inv in H as (err & st1 & Hn & H).
  assert (resolutions st1 = resolutions st) as Hres
    by (destruct v as [[| | | |] | |]; simpl in Hn; injection Hn as _ <-;
        reflexivity).
  apply normalize_config in Hn as (Hc1 & Hnil & Hmade).
  apply bind_inv in H as (s & st2 & Hcap & H).
  apply capture_inv in Hcap as (-> & Hd & Hs & Hlen).
  apply bind_inv in H as (f & st3 & Hf & H).
  rewrite stackFrames_run in Hf. injection Hf as <- <-.
  apply bind_inv in H as (title & st4 & Ht & H).
  apply iface_Error_inv in Ht as [-> Htitle].
  apply bind_inv in H as (t & st5 & Hty & H).
  apply or_panic_inv in Hty as [-> _].
  apply bind_inv in H as (text & st6 & Htx & H).
  apply errorStack_inv in Htx as ->.
  apply bind_inv in H as (d & st7 & Hde & H).
  apply iface_Error_inv in Hde as [-> Hdesc].
  destruct Hc1 as (Hh1 & Hs1 & Hd1).
  injection H as <- <-. simpl in *.
  rewrite Hh1 in *. rewrite Hs1.
  eexists _, title. split; [apply list_lookup_middle; reflexivity |].
  simpl. repeat split; congruence.
Qed.

Lemma Wrap_cell chain v skip st p st' :
  captures (call_Wrap chain v skip) = true ->
  Wrap chain v skip st = Some (p, st') ->
  exists obj,
    heap st' !! p = Some obj /\
    frames obj = Some (resolve (symbols st) (stack obj)) /\
    resolutions st' = length (stack obj) + resolutions st.
Proof.
  intros Hcapt H.
  assert ((err ← normalize v;
           s ← capture (2 + skip) (pc_Callers :: pc_Wrap :: chain);
           f ← stackFrames s;
           t ← typeName err;
           text ← errorStack t err (stack_of_frames f);
           alloc {| Err := err; stack := s; frames := Some f; Stack := text;
                    Title := ""; Description := "" |}) st = Some (p, st')) as H'.
  { destruct v as [[| | | |] | |]; try exact H. discriminate. }
  clear H. rename H' into H.
  apply bind_inv in H as (err & st1 & Hn & H).
  assert (resolutions st1 = resolutions st) as Hres
    by (destruct v as [[| | | |] | |]; simpl in Hn; injection Hn as _ <-;
        reflexivity).
  apply normalize_config in Hn as (Hc1 & Hnil & Hmade).
  apply bind_inv in H as (s & st2 & Hcap & H).
  apply capture_inv in Hcap as (-> & Hd & Hs & Hlen).
  apply bind_inv in H as (f & st3 & Hf & H).
  rewrite stackFrames_run in Hf. injection Hf as <- <-.
  apply bind_inv in H as (t & st5 & Hty & H).
  apply or_panic_inv in Hty as [-> _].
  apply bind_inv in H as (text & st6 & Htx & H).
  apply errorStack_inv in Htx as ->.
  destruct Hc1 as (Hh1 & Hs1 & Hd1).
  injection H as <- <-. simpl in *.
  rewrite Hh1, Hs1.
  eexists. split; [apply list_lookup_middle; reflexivity |].
  simpl. split; congruence.
Qed.

Lemma Custom_fresh chain v desc title st p st' :
  Custom chain v desc title st = Some (p, st') -> fresh_cell v st p st'.
Proof.
  unfold Custom. intros H.
  apply bind_inv in H as (err & st1 & Hn & H).
  apply normalize_config in Hn as (Hc1 & Hnil & Hmade).
  apply bind_inv in H as (s & st2 & Hcap & H).
  apply capture_inv in Hcap as (-> & Hd & Hs & Hlen).
  apply bind_inv in H as (f & st3 & Hf & H).
  rewrite stackFrames_run in Hf. injection Hf as <- <-.
  apply bind_inv in H as (t & st5 & Hty & H).
  apply or_panic_inv in Hty as [-> _].
  apply bind_inv in H as (text & st6 & Htx & H).
  apply errorStack_inv in Htx as ->.
  destruct Hc1 as (Hh1 & Hs1 & Hd1).
  eapply alloc_fresh; [| | | | | exact H]; simpl.
  - unfold same_config. simpl. auto.
  - exact Hnil.
  - lia.
  - left. reflexivity.
  - exact Hmade.
Qed.

Lemma Wrap_fresh chain v skip st p st' :
  captures (call_Wrap chain v skip) = true ->
  Wrap chain v skip st = Some (p, st') -> fresh_cell v st p st'.
Proof.
  intros Hcapt H.
  assert ((err ← normalize v;
           s ← capture (2 + skip) (pc_Callers :: pc_Wrap :: chain);
           f ← stackFrames s;
           t ← typeName err;
           text ← errorStack t err (stack_of_frames f);
           alloc {| Err := err; stack := s; frames := Some f; Stack := text;
                    Title := ""; Description := "" |}) st = Some (p, st')) as H'.
  { destruct v as [[| | | |] | |]; try exact H. discriminate. }
  clear H. rename H' into H.
  apply bind_inv in H as (err & st1 & Hn & H).
  apply normalize_config in Hn as (Hc1 & Hnil & Hmade).
  apply bind_inv in H as (s & st2 & Hcap & H).
  apply capture_inv in Hcap as (-> & Hd & Hs & Hlen).
  apply bind_inv in H as (f & st3 & Hf & H).
  rewrite stackFrames_run in Hf. injection Hf as <- <-.
  apply bind_inv in H as (t & st5 & Hty & H).
  apply or_panic_inv in Hty as [-> _].
  apply bind_inv in H as (text & st6 & Htx & H).
  apply errorStack_inv in Htx as ->.
  destruct Hc1 as (Hh1 & Hs1 & Hd1).
  eapply alloc_fresh; [| | | | | exact H]; simpl.
  - unfold same_config. simpl. auto.
  - exact Hnil.
  - lia.
  - right. rewrite Hs1. reflexivity.
  - exact Hmade.
Qed.

Lemma Errorf_fresh chain text st p st' :
  Errorf chain text st = Some (p, st') -> fresh_cell (of_string text) st p st'.
Proof.
  unfold Errorf. intros H.
  apply bind_inv in H as (e & st1 & He & H).
  injection He as <- <-.
  apply Wrap_fresh in H; [| reflexivity].
  destruct H as (obj & -> & Hheap & Hsym & Hnil & Hlen & Hfr & Hmade).
  exists obj. simpl in *. repeat split; assumption.
Qed.

Lemma construct_fresh (c : call) (m : M State loc) st p st' :
  captures c = true -> construct c = Some m -> m st = Some (p, st') ->
  fresh_cell (call_value c) st p st'.
Proof.
  destruct c; simpl; try discriminate; intros Hcap [= <-].
  - apply New_fresh.
  - apply Custom_fresh.
  - apply Wrap_fresh. exact Hcap.
  - apply Errorf_fresh.
Qed.

(** *** When [New] returns *)

Lemma typeName_of_defined (w : string) (e : error) :
  e <> nil -> exists t, typeName_of w e = Some t.
Proof. destruct e; intros H; try congruence; eexists; reflexivity. Qed.

(** [New] returns a wrapper exactly when [MaxStackDepth] is not negative and
    [err.Error()] returns. *)
Lemma New_returns_iff (chain : list uintptr) (v : value) (st : State) :
  is_Some (New chain v st) <->
  (0 <= MaxStackDepth st)%Z /\
  forall e, v = of_error e -> e <> nil ->
    is_Some (error_Error (length (heap st)) (heap st) e).
Proof.
  split.
  - intros [[p st'] H]. unfold New in H.
    apply bind_inv in H as (err & st1 & Hn & H).
    pose proof (normalize_config _ _ _ _ Hn) as ((Hh1 & _ & Hd1) & _ & Hmade).
    apply bind_inv in H as (s & st2 & Hcap & H).
    apply capture_inv in Hcap as (-> & Hd & _ & _).
    apply bind_inv in H as (f & st3 & Hf & H).
    rewrite stackFrames_run in Hf. injection Hf as <- <-.
    apply bind_inv in H as (title & st4 & Ht & H).
    apply iface_Error_inv in Ht as [-> Htitle]. simpl in Htitle.
    split; [lia |].
    intros e -> Hnil. exists title.
    assert (err = e) as <- by (destruct e; simpl in Hmade; congruence).
    rewrite <- Hh1. exact Htitle.
  - intros [Hd Hmsg].
    assert (exists err st1 msg,
              normalize v st = Some (err, st1) /\ err <> nil /\
              heap st1 = heap st /\ MaxStackDepth st1 = MaxStackDepth st /\
              error_Error (length (heap st)) (heap st) err = Some msg)
      as (err & st1 & msg & Hn & Hnil & Hh & Hm & Hmsg').
    { destruct v as [e | s | z].
      - assert (e = nil \/ e <> nil) as [-> | Hne]
          by (destruct e; [left; reflexivity | right; discriminate ..]).
        + eexists _, _, _. split; [reflexivity |]. simpl.
          repeat split; try discriminate.
          rewrite error_Error_cases. reflexivity.
        + destruct (Hmsg e eq_refl Hne) as [msg Hmsg'].
          exists e, st, msg. repeat split; try assumption.
          destruct e; try congruence; reflexivity.
      - eexists _, _, _. split; [reflexivity |]. simpl.
        repeat split; try discriminate. rewrite error_Error_cases. reflexivity.
      - eexists _, _, _. split; [reflexivity |]. simpl.
        repeat split; try discriminate. rewrite error_Error_cases. reflexivity. }
    destruct (typeName_of_defined "Error" err Hnil) as [t Ht].
    unfold New. cbv [mbind M_bind]. rewrite Hn. cbn beta iota.
    unfold capture. rewrite Hm.
    destruct (Z.ltb_spec (MaxStackDepth st) 0) as [Hneg | _]; [lia |].
    rewrite stackFrames_run.
    cbv [iface_Error errorStack typeName or_panic mbind M_bind mret M_ret
         resolved_more]. cbn [heap]. rewrite Hh.
    repeat (first [rewrite Hmsg' | rewrite Ht]; cbn beta iota; cbn [heap]).
    eexists. reflexivity.
Qed.

(** *** The heap of a reachable state is well-formed *)

Lemma construct_heap_wf (c : call) (m : M State loc) st p st' :
  heap_wf Err (heap st) -> value_within (length (heap st)) (call_value c) ->
  captures c = true -> construct c = Some m -> m st = Some (p, st') ->
  heap_wf Err (heap st').
Proof.
  intros Hwf Hv Hcap Hcon Hrun.
  destruct (construct_fresh c m st p st' Hcap Hcon Hrun)
    as (obj & _ & Hheap & _ & _ & _ & _ & Hmade).
  rewrite Hheap. apply heap_wf_app; [exact Hwf |].
  eapply made_from_within; eassumption.
Qed.

Lemma snd_inv {A} (m : M State A) st st' :
  snd <$> m st = Some st' -> exists a, m st = Some (a, st').
Proof.
  destruct (m st) as [[a st1] |]; [| discriminate].
  intros [= <-]. exists a. reflexivity.
Qed.

Lemma cache_heap_wf (p : loc) (obj : Error) (st : State) fs k :
  heap_wf Err (heap st) -> heap st !! p = Some obj ->
  heap_wf Err
    (heap (set_heap (resolved_more st k) (<[p := set_frames obj fs]> (heap st)))).
Proof.
  intros Hwf Hp. simpl.
  eapply heap_wf_insert; [exact Hwf | exact Hp | reflexivity].
Qed.

Lemma StackFrames_heap_wf p st fs st' :
  heap_wf Err (heap st) -> StackFrames p st = Some (fs, st') ->
  heap_wf Err (heap st').
Proof.
  intros Hwf Hrun.
  destruct (heap st !! p) as [obj |] eqn:Hp.
  - rewrite (StackFrames_run p obj st Hp) in Hrun.
    destruct (frames obj); injection Hrun as _ <-;
      [exact Hwf | apply cache_heap_wf; assumption].
  - cbv [StackFrames deref mbind M_bind] in Hrun. rewrite Hp in Hrun.
    discriminate.
Qed.

Lemma StackTrace_heap_wf p st s st' :
  heap_wf Err (heap st) -> StackTrace p st = Some (s, st') ->
  heap_wf Err (heap st').
Proof.
  intros Hwf Hrun.
  destruct (heap st !! p) as [obj |] eqn:Hp.
  - rewrite (StackTrace_run p obj st Hp) in Hrun.
    destruct (frames obj); injection Hrun as _ <-;
      [exact Hwf | apply cache_heap_wf; assumption].
  - cbv [StackTrace deref mbind M_bind] in Hrun. rewrite Hp in Hrun.
    discriminate.
Qed.

Lemma TypeName_same p st t st' : TypeName p st = Some (t, st') -> st' = st.
Proof.
  unfold TypeName, typeName. intros H.
  apply bind_inv in H as (obj & st1 & Hd & H).
  unfold deref in Hd. destruct (heap st !! p); [| discriminate].
  injection Hd as _ <-. apply or_panic_inv in H as [-> _]. reflexivity.
Qed.

Lemma run_heap_wf (c : call) (st st' : State) :
  heap_wf Err (heap st) -> value_within (length (heap st)) (call_value c) ->
  run c st = Some st' -> heap_wf Err (heap st').
Proof.
  intros Hwf Hv Hrun.
  destruct c; cbn [run] in Hrun; apply snd_inv in Hrun as [a Hrun].
  - eapply (construct_heap_wf (call_New chain e)); eauto.
  - eapply (construct_heap_wf (call_Custom chain e desc title)); eauto.
  - destruct (captures (call_Wrap chain e skip)) eqn:Hcap.
    + eapply (construct_heap_wf (call_Wrap chain e skip)); eauto.
    + destruct e as [[| q | | |] | |]; try discriminate.
      injection Hrun as _ <-. exact Hwf.
  - eapply (construct_heap_wf (call_Errorf chain text)); eauto.
  - apply iface_Error_inv in Hrun as [-> _]. exact Hwf.
  - eapply StackFrames_heap_wf; eassumption.
  - eapply StackTrace_heap_wf; eassumption.
  - apply TypeName_same in Hrun as ->. exact Hwf.
  - unfold ErrorStack in Hrun.
    apply bind_inv in Hrun as (t & st1 & Ht & Hrun).
    apply TypeName_same in Ht as ->.
    apply bind_inv in Hrun as (s & st2 & Hs & Hrun).
    apply errorStack_inv in Hrun as ->.
    eapply StackTrace_heap_wf; eassumption.
  - injection Hrun as _ <-. exact Hwf.
Qed.

(** Whatever a client does, no cell points at itself or at a later cell. *)
Lemma reachable_heap_wf syms st : reachable syms st -> heap_wf Err (heap st).
Proof.
  induction 1 as [| st c st' _ IH Hv Hrun].
  - intros p obj Hp. destruct p; discriminate Hp.
  - eapply run_heap_wf; eassumption.
Qed.

(** *** The frames a cell holds are the resolution of its addresses *)

Lemma cache_cells_resolved (p : loc) (obj : Error) (st : State) k :
  heap st !! p = Some obj ->
  (forall q o, heap st !! q = Some o -> cell_resolved (symbols st) o) ->
  forall q o,
    heap (set_heap (resolved_more st k)
            (<[p := set_frames obj (Some (resolve (symbols st) (stack obj)))]>
               (heap st))) !! q = Some o ->
    cell_resolved (symbols st) o.
Proof.
  intros Hp Hall q o. simpl.
  destruct (decide (q = p)) as [-> | Hne].
  - rewrite list_lookup_insert_eq by (eapply lookup_lt_Some; exact Hp).
    intros [= <-] fs. simpl. congruence.
  - rewrite list_lookup_insert_ne by congruence. apply Hall.
Qed.

Lemma StackFrames_cells_resolved p st fs st' :
  (forall q o, heap st !! q = Some o -> cell_resolved (symbols st) o) ->
  StackFrames p st = Some (fs, st') ->
  forall q o, heap st' !! q = Some o -> cell_resolved (symbols st) o.
Proof.
  intros Hall Hrun.
  destruct (heap st !! p) as [obj |] eqn:Hp.
  - rewrite (StackFrames_run p obj st Hp) in Hrun.
    destruct (frames obj); injection Hrun as _ <-;
      [exact Hall | apply cache_cells_resolved; assumption].
  - cbv [StackFrames deref mbind M_bind] in Hrun. rewrite Hp in Hrun.
    discriminate.
Qed.

Lemma StackTrace_cells_resolved p st s st' :
  (forall q o, heap st !! q = Some o -> cell_resolved (symbols st) o) ->
  StackTrace p st = Some (s, st') ->
  forall q o, heap st' !! q = Some o -> cell_resolved (symbols st) o.
Proof.
  intros Hall Hrun.
  destruct (heap st !! p) as [obj |] eqn:Hp.
  - rewrite (StackTrace_run p obj st Hp) in Hrun.
    destruct (frames obj); injection Hrun as _ <-;
      [exact Hall | apply cache_cells_resolved; assumption].
  - cbv [StackTrace deref mbind M_bind] in Hrun. rewrite Hp in Hrun.
    discriminate.
Qed.

Lemma construct_cells_resolved (c : call) (m : M State loc) st p st' :
  (forall q o, heap st !! q = Some o -> cell_resolved (symbols st) o) ->
  captures c = true -> construct c = Some m -> m st = Some (p, st') ->
  forall q o, heap st' !! q = Some o -> cell_resolved (symbols st) o.
Proof.
  intros Hall Hcap Hcon Hrun q o Hq.
  destruct (construct_fresh c m st p st' Hcap Hcon Hrun)
    as (obj & _ & Hheap & _ & _ & _ & Hfr & _).
  rewrite Hheap in Hq.
  destruct (decide (q < length (heap st))) as [Hlt | Hge].
  - rewrite lookup_app_l in Hq by exact Hlt. exact (Hall q o Hq).
  - pose proof (lookup_lt_Some _ _ _ Hq) as Hlen.
    rewrite length_app in Hlen. simpl in Hlen.
    assert (q = length (heap st)) as -> by lia.
    rewrite list_lookup_middle in Hq by reflexivity. injection Hq as <-.
    intros fs Hfs. destruct Hfr as [Hfr | Hfr]; congruence.
Qed.

Lemma run_cells_resolved (c : call) (st st' : State) :
  (forall q o, heap st !! q = Some o -> cell_resolved (symbols st) o) ->
  run c st = Some st' ->
  forall q o, heap st' !! q = Some o -> cell_resolved (symbols st) o.
Proof.
  intros Hall Hrun.
  destruct c; cbn [run] in Hrun; apply snd_inv in Hrun as [a Hrun].
  - eapply (construct_cells_resolved (call_New chain e)); eauto.
  - eapply (construct_cells_resolved (call_Custom chain e desc title)); eauto.
  - destruct (captures (call_Wrap chain e skip)) eqn:Hcap.
    + eapply (construct_cells_resolved (call_Wrap chain e skip)); eauto.
    + destruct e as [[| q | | |] | |]; try discriminate.
      injection Hrun as _ <-. exact Hall.
  - eapply (construct_cells_resolved (call_Errorf chain text)); eauto.
  - apply iface_Error_inv in Hrun as [-> _]. exact Hall.
  - eapply StackFrames_cells_resolved; eassumption.
  - eapply StackTrace_cells_resolved; eassumption.
  - apply TypeName_same in Hrun as ->. exact Hall.
  - unfold ErrorStack in Hrun.
    apply bind_inv in Hrun as (t & st1 & Ht & Hrun).
    apply TypeName_same in Ht as ->.
    apply bind_inv in Hrun as (s & st2 & Hs & Hrun).
    apply errorStack_inv in Hrun as ->.
    eapply StackTrace_cells_resolved; eassumption.
  - injection Hrun as _ <-. exact Hall.
Qed.

(** In every reachable state the frames of a cell, when present, are its
    addresses resolved in order -- as many frames as addresses. *)
Lemma reachable_cells_resolved syms st :
  reachable syms st ->
  symbols st = syms /\
  forall p obj, heap st !! p = Some obj ->
    cell_resolved syms obj /\
    (forall fs, frames obj = Some fs -> length fs = length (stack obj)).
Proof.
  induction 1 as [| st c st' _ [IHs IH] Hv Hrun].
  - split; [reflexivity |]. intros p obj Hp. destruct p; discriminate Hp.
  - destruct (run_grows c st st' Hrun) as [Hsym _].
    split; [congruence |].
    intros p obj Hp.
    assert (cell_resolved syms obj) as Hres.
    { rewrite <- IHs. eapply (run_cells_resolved c st st'); [| exact Hrun | exact Hp].
      intros q o Hq. rewrite IHs. exact (proj1 (IH q o Hq)). }
    split; [exact Hres |].
    intros fs Hfs. rewrite (Hres fs Hfs). unfold resolve. apply length_map.
Qed.

(** *** Wrapping and [Is] *)

(** Wrapping [a] with [New] does not change what [Is] answers. *)
Lemma Is_unchanged_by_wrapping (chain : list uintptr) (a b : error) (st : State)
    p st' :
  chain_wf Err (heap st) ->
  points_below (length (heap st)) a -> points_below (length (heap st)) b ->
  a <> nil ->
  New chain (of_error a) st = Some (p, st') ->
  Is st' (wrapper p) b = Is st a b /\ Is st' b (wrapper p) = Is st b a /\
  wraps Err (heap st') a (wrapper p).
Proof.
  intros Hwf Ha Hb Hnil Hnew.
  destruct (New_fresh chain (of_error a) st p st' Hnew)
    as (obj & -> & Hheap & _ & _ & _ & _ & Hmade).
  assert (Err obj = a) as Hobj by (destruct a; simpl in Hmade; congruence).
  unfold Is. rewrite Hheap. subst a.
  destruct (Is_gen_fresh_wrapper Err (heap st) obj b Hwf Ha Hb) as [H1 H2].
  repeat split; try assumption.
  eapply wraps_more; [apply list_lookup_middle; reflexivity | apply wraps_none].
Qed.

End TitledFacts.

(* ================================================================= *)
(** ** Further facts: equality of causes, heaps that change, strings *)

Module MoreFacts.
Import Common ChainFacts Heaps.

Lemma append_cons (ch : ascii) (a b : string) :
  String ch a +:+ b = String ch (a +:+ b).
Proof. reflexivity. Qed.

Lemma append_assoc3 (a b c : string) : (a +:+ b) +:+ c = a +:+ (b +:+ c).
Proof.
  induction a as [| ch a IH]; [reflexivity |].
  rewrite !append_cons, IH. reflexivity.
Qed.

Lemma eqb_empty (s : string) : String.eqb s "" = true -> s = "".
Proof. destruct s; [reflexivity | discriminate]. Qed.


Section ChangingHeaps.
Context {Obj : Type} (cause_of : Obj -> error).
Implicit Types (h : list Obj) (e o : error).

Lemma extends_refl h : extends cause_of h h.
Proof. intros q obj Hq. exists obj. auto. Qed.

Lemma extends_trans h1 h2 h3 :
  extends cause_of h1 h2 -> extends cause_of h2 h3 -> extends cause_of h1 h3.
Proof.
  intros H12 H23 q obj Hq.
  destruct (H12 q obj Hq) as (obj2 & Hq2 & Hc2).
  destruct (H23 q obj2 Hq2) as (obj3 & Hq3 & Hc3).
  exists obj3. split; [exact Hq3 | congruence].
Qed.

Lemma extends_app h h' : extends cause_of h (h ++ h').
Proof.
  intros q obj Hq. exists obj. split; [| reflexivity].
  apply lookup_app_l_Some. exact Hq.
Qed.

Lemma extends_insert h p obj obj' :
  h !! p = Some obj -> cause_of obj' = cause_of obj ->
  extends cause_of h (<[p := obj']> h).
Proof.
  intros Hp Hc q o Hq.
  destruct (decide (q = p)) as [-> | Hne].
  - exists obj'. rewrite list_lookup_insert_eq by (eapply lookup_lt_Some; exact Hp).
    split; [reflexivity | congruence].
  - exists o. rewrite list_lookup_insert_ne by congruence. auto.
Qed.

Lemma extends_length h h' : extends cause_of h h' -> length h <= length h'.
Proof.
  intros Hext.
  destruct (decide (length h = 0)) as [-> | Hne]; [lia |].
  destruct (lookup_lt_is_Some_2 h (length h - 1)) as [obj Hobj]; [lia |].
  destruct (Hext _ obj Hobj) as (obj' & Hobj' & _).
  apply lookup_lt_Some in Hobj'. lia.
Qed.

Lemma root_fuel_extends h h' n e r :
  extends cause_of h h' ->
  root_fuel cause_of n h e = Some r -> root_fuel cause_of n h' e = Some r.
Proof.
  intros Hext. revert e. induction n as [| n IH]; intros e.
  - destruct e; simpl; auto.
  - destruct e as [| p | | |]; simpl; auto.
    destruct (h !! p) as [obj |] eqn:Hp; simpl; [| discriminate].
    destruct (Hext p obj Hp) as (obj' & -> & Hc). simpl. rewrite Hc. apply IH.
Qed.

Lemma root_extends h h' e r :
  extends cause_of h h' ->
  root cause_of h e = Some r -> root cause_of h' e = Some r.
Proof.
  intros Hext Hr. unfold root in *.
  pose proof (extends_length h h' Hext) as Hlen.
  replace (length h') with (length h + (length h' - length h)) by lia.
  apply root_fuel_more. eapply root_fuel_extends; eassumption.
Qed.

(** In a later heap [Is] answers what it answered before. *)
Lemma Is_gen_extends h h' a b :
  chain_wf cause_of h ->
  points_below (length h) a -> points_below (length h) b ->
  extends cause_of h h' ->
  Is_gen cause_of h' a b = Is_gen cause_of h a b.
Proof.
  intros Hwf Ha Hb Hext.
  destruct (root_total cause_of h a Hwf Ha) as (ra & Hra & _).
  destruct (root_total cause_of h b Hwf Hb) as (rb & Hrb & _).
  rewrite (Is_gen_roots cause_of h a b ra rb Hra Hrb).
  apply Is_gen_roots; eapply root_extends; eassumption.
Qed.

(** Rewriting a cell without touching its cause changes no verdict of [Is],
    whatever the heap looks like. *)
Lemma Is_fuel_insert h p obj obj' :
  h !! p = Some obj -> cause_of obj' = cause_of obj ->
  forall n e o,
    Is_fuel cause_of n (<[p := obj']> h) e o = Is_fuel cause_of n h e o.
Proof.
  intros Hp Hc n.
  assert (forall q, (cause_of <$> (<[p := obj']> h !! q)) = (cause_of <$> (h !! q)))
    as Hlook.
  { intros q. destruct (decide (q = p)) as [-> | Hne].
    - rewrite list_lookup_insert_eq by (eapply lookup_lt_Some; exact Hp).
      rewrite Hp. simpl. congruence.
    - rewrite list_lookup_insert_ne by congruence. reflexivity. }
  induction n as [| n IH]; intros e o;
    rewrite (Is_fuel_unfold cause_of _ h),
      (Is_fuel_unfold cause_of _ (<[p := obj']> h));
    [reflexivity |].
  destruct (iface_eq e o); [reflexivity |].
  destruct e as [| q | | |];
    try (destruct o as [| q | | |]; try reflexivity;
         specialize (Hlook q);
         destruct (<[p := obj']> h !! q) as [o1 |], (h !! q) as [o2 |];
         simpl in *; try discriminate; try reflexivity;
         injection Hlook as ->; apply IH).
  specialize (Hlook q).
  destruct (<[p := obj']> h !! q) as [o1 |], (h !! q) as [o2 |];
    simpl in *; try discriminate; try reflexivity.
  injection Hlook as ->. apply IH.
Qed.

Lemma Is_gen_insert h p obj obj' e o :
  h !! p = Some obj -> cause_of obj' = cause_of obj ->
  Is_gen cause_of (<[p := obj']> h) e o = Is_gen cause_of h e o.
Proof.
  intros Hp Hc. unfold Is_gen. rewrite length_insert.
  apply (Is_fuel_insert h p obj obj' Hp Hc).
Qed.




End ChangingHeaps.

End MoreFacts.

(* ================================================================= *)
(** ** Further facts about the [wrappedError] rendition *)

Module PrefixedMore.
Import Common ChainFacts Heaps MoreFacts Prefixed PrefixedFacts.

Lemma eqb_append_nonempty (a b : string) :
  String.eqb b "" = false -> String.eqb (a +:+ b) "" = false.
Proof.
  intros Hb. destruct a as [| ch a]; [exact Hb | reflexivity].
Qed.

(** The prefix [WrapPrefix] stores, and the message it makes of [m0]. *)
Lemma with_prefix_set_prefix (obj : wrappedError) (pre m0 : string) :
  with_prefix
    (set_prefix obj
       (if negb (String.eqb (prefix obj) "")
        then pre +:+ ": " +:+ prefix obj else pre)) m0 =
  if String.eqb pre "" && String.eqb (prefix obj) ""
  then with_prefix obj m0
  else pre +:+ ": " +:+ with_prefix obj m0.
Proof.
  unfold with_prefix. cbn [prefix set_prefix].
  destruct (String.eqb (prefix obj) "") eqn:Hold; cbn [negb].
  - rewrite andb_true_r.
    destruct (String.eqb pre ""); reflexivity.
  - rewrite andb_false_r.
    rewrite (eqb_append_nonempty pre (": " +:+ prefix obj)) by reflexivity.
    cbn [negb]. rewrite append_assoc3. reflexivity.
Qed.

Lemma capture_negative (skip : Z) (chain : list uintptr) (st : State) :
  (MaxStackDepth st < 0)%Z -> capture skip chain st = None.
Proof.
  intros H. unfold capture.
  destruct (Z.ltb_spec (MaxStackDepth st) 0); [reflexivity | lia].
Qed.

(** What [Wrap] does on a value that is no wrapper. *)
Lemma Wrap_captures (chain : list uintptr) (v : value) (skip : Z) (st : State) :
  (forall q, v <> of_error (wrapper q)) ->
  Wrap chain v skip st =
  (err ← normalize v;
   stack ← capture (2 + skip) (pc_Callers :: pc_Wrap :: chain);
   alloc {| err := err; stack := stack; frames := None; prefix := "" |}) st.
Proof.
  intros Hv. destruct v as [[| q | | |] | |]; try reflexivity.
  exfalso. exact (Hv q eq_refl).
Qed.

Lemma normalize_depth (v : value) (st : State) e st1 :
  normalize v st = Some (e, st1) -> MaxStackDepth st1 = MaxStackDepth st.
Proof.
  destruct (normalize_run v st) as (e' & st' & Hn & _ & _ & _ & _ & Hd).
  rewrite Hn. intros [= _ <-]. exact Hd.
Qed.

Lemma New_negative chain v st : (MaxStackDepth st < 0)%Z -> New chain v st = None.
Proof.
  intros Hd. unfold New. cbv [mbind M_bind].
  destruct (normalize v st) as [[e st1] |] eqn:Hn; [| reflexivity].
  rewrite capture_negative; [reflexivity |].
  rewrite (normalize_depth v st e st1 Hn). exact Hd.
Qed.

Lemma Wrap_negative chain v skip st :
  (forall q, v <> of_error (wrapper q)) ->
  (MaxStackDepth st < 0)%Z -> Wrap chain v skip st = None.
Proof.
  intros Hv Hd. rewrite (Wrap_captures chain v skip st Hv). cbv [mbind M_bind].
  destruct (normalize v st) as [[e st1] |] eqn:Hn; [| reflexivity].
  rewrite capture_negative; [reflexivity |].
  rewrite (normalize_depth v st e st1 Hn). exact Hd.
Qed.

(** [Wrap] of any value that is no wrapper returns a new cell. *)
Lemma Wrap_succeeds (chain : list uintptr) (v : value) (skip : Z) (st : State) :
  (forall q, v <> of_error (wrapper q)) ->
  (0 <= MaxStackDepth st)%Z ->
  exists obj st',
    Wrap chain v skip st = Some (length (heap st), st') /\
    heap st' = (heap st ++ [obj])%list /\
    symbols st' = symbols st /\ MaxStackDepth st' = MaxStackDepth st /\
    resolutions st' = resolutions st /\
    made_from (next_errorString st) v (err obj) /\ err obj <> nil /\
    stack obj = runtime_Callers (2 + skip) (Z.to_nat (MaxStackDepth st))
                  (pc_Callers :: pc_Wrap :: chain) /\
    frames obj = None /\ prefix obj = "".
Proof.
  intros Hv Hd. rewrite (Wrap_captures chain v skip st Hv).
  destruct (normalize_run v st) as (e & st1 & Hn & Hmade & Hnil & Hh & Hs & Hm).
  assert (resolutions st1 = resolutions st) as Hres
    by (destruct v as [[| | | |] | |]; simpl in Hn; injection Hn as _ <-;
        reflexivity).
  cbv [mbind M_bind]. rewrite Hn. cbn beta iota.
  rewrite capture_ok by (rewrite Hm; exact Hd). cbn beta iota.
  unfold alloc. rewrite Hh, Hm.
  eexists _, _. split; [reflexivity |]. simpl.
  repeat split; assumption.
Qed.

Lemma Errorf_succeeds (chain : list uintptr) (text : string) (st : State) :
  (0 <= MaxStackDepth st)%Z ->
  exists obj st',
    Errorf chain text st = Some (length (heap st), st') /\
    heap st' = (heap st ++ [obj])%list /\
    symbols st' = symbols st /\ MaxStackDepth st' = MaxStackDepth st /\
    resolutions st' = resolutions st /\
    next_errorString st' = S (next_errorString st) /\
    err obj = errorString (next_errorString st) text /\
    stack obj = take (Z.to_nat (MaxStackDepth st)) chain /\
    frames obj = None /\ prefix obj = "".
Proof.
  intros Hd. unfold Errorf. cbv [mbind M_bind fmt_Errorf].
  rewrite Wrap_allocates; [| discriminate | reflexivity | exact Hd].
  eexists _, _. split; [reflexivity |]. simpl. repeat split.
Qed.

(** The message of a cell that was just allocated. *)
Lemma Error_fresh (st : State) (obj : wrappedError) (st' : State) (m : string) :
  heap st' = (heap st ++ [obj])%list ->
  error_Error (length (heap st)) (heap st) (err obj) = Some m ->
  Error (length (heap st)) st' = Some (with_prefix obj m, st').
Proof.
  intros Hh Hm. apply Error_of_cell.
  - rewrite Hh. apply list_lookup_middle. reflexivity.
  - apply (error_Error_more (heap st) (heap st')) with (n := length (heap st));
      [| rewrite Hh, length_app; lia | exact Hm].
    intros q o Hq. rewrite Hh. apply lookup_app_l_Some. exact Hq.
Qed.

Lemma TypeName_of_cell (p : loc) (obj : wrappedError) (st : State) :
  heap st !! p = Some obj ->
  TypeName p st =
  match typeName_of "wrappedError" (err obj) with
  | Some t => Some (t, st)
  | None => None
  end.
Proof.
  intros Hp. cbv [TypeName call deref wrappedError_TypeName mbind M_bind or_panic].
  rewrite Hp. reflexivity.
Qed.

Lemma Underlying_of_cell (p : loc) (obj : wrappedError) (st : State) :
  heap st !! p = Some obj -> Underlying p st = Some (err obj, st).
Proof.
  intros Hp. cbv [Underlying deref mbind M_bind mret M_ret]. rewrite Hp. reflexivity.
Qed.

(** [WrapPrefix] of any value that is no wrapper returns a new cell that
    holds the prefix. *)
Lemma WrapPrefix_succeeds (chain : list uintptr) (v : value) (pre : string)
    (skip : Z) (st : State) :
  (forall q, v <> of_error (wrapper q)) ->
  (0 <= MaxStackDepth st)%Z ->
  exists obj st',
    WrapPrefix chain v pre skip st = Some (length (heap st), st') /\
    heap st' = (heap st ++ [obj])%list /\
    symbols st' = symbols st /\ MaxStackDepth st' = MaxStackDepth st /\
    resolutions st' = resolutions st /\
    made_from (next_errorString st) v (err obj) /\ err obj <> nil /\
    stack obj = runtime_Callers (2 + skip) (Z.to_nat (MaxStackDepth st))
                  (pc_Callers :: pc_Wrap :: pc_WrapPrefix :: chain) /\
    frames obj = None /\ prefix obj = pre.
Proof.
  intros Hv Hd.
  destruct (Wrap_succeeds (pc_WrapPrefix :: chain) v skip st Hv Hd)
    as (obj & st1 & Hw & Hh & Hs & Hm & Hres & Hmade & Hnil & Hstack & Hfr & Hpre).
  unfold WrapPrefix. cbv [mbind M_bind]. rewrite Hw. cbn beta iota.
  cbv [deref store mret M_ret]. rewrite Hh.
  rewrite list_lookup_middle by reflexivity. rewrite Hpre. cbn [String.eqb negb].
  exists (set_prefix obj pre). eexists. split; [reflexivity |].
  cbn [heap set_heap symbols MaxStackDepth resolutions err stack frames prefix
       set_prefix].
  rewrite Hh, insert_app_r_alt, Nat.sub_diag by reflexivity.
  repeat split; assumption.
Qed.

Lemma WrapPrefix_negative chain v pre skip st :
  (forall q, v <> of_error (wrapper q)) ->
  (MaxStackDepth st < 0)%Z -> WrapPrefix chain v pre skip st = None.
Proof.
  intros Hv Hd. unfold WrapPrefix. cbv [mbind M_bind].
  rewrite Wrap_negative by assumption. reflexivity.
Qed.

Lemma Errorf_negative chain text st :
  (MaxStackDepth st < 0)%Z -> Errorf chain text st = None.
Proof.
  intros Hd. unfold Errorf. cbv [mbind M_bind fmt_Errorf].
  rewrite Wrap_negative; [reflexivity | discriminate | exact Hd].
Qed.

(** *** What a call can do to the heap *)

(** A computation that reads the heap and leaves it as it is. *)
Lemma StackFrames_heap (p : loc) (st : State) fs st' :
  StackFrames p st = Some (fs, st') ->
  heap st' = heap st /\ symbols st' = symbols st.
Proof.
  intros H. destruct (heap st !! p) as [obj |] eqn:Hp.
  - rewrite (StackFrames_on_copy p obj st Hp) in H.
    destruct (frames obj); injection H as _ <-; auto.
  - cbv [StackFrames call deref mbind M_bind] in H. rewrite Hp in H. discriminate.
Qed.

Lemma Stack_heap (p : loc) (st : State) s st' :
  Stack p st = Some (s, st') ->
  heap st' = heap st /\ symbols st' = symbols st.
Proof.
  intros H. destruct (heap st !! p) as [obj |] eqn:Hp.
  - rewrite (Stack_run p obj st Hp) in H.
    destruct (frames obj); injection H as _ <-; auto.
  - cbv [Stack call deref mbind M_bind] in H. rewrite Hp in H. discriminate.
Qed.

Lemma Error_same (p : loc) (st : State) m st' :
  Error p st = Some (m, st') -> st' = st.
Proof.
  cbv [Error call deref wrappedError_Error mbind M_bind].
  destruct (heap st !! p) as [obj |]; [| discriminate].
  destruct (error_Error _ _ _); [| discriminate].
  intros [= _ <-]. reflexivity.
Qed.

Lemma TypeName_keeps_state (p : loc) (st : State) t st' :
  TypeName p st = Some (t, st') -> st' = st.
Proof.
  cbv [TypeName call deref wrappedError_TypeName or_panic mbind M_bind].
  destruct (heap st !! p) as [obj |]; [| discriminate].
  destruct (typeName_of _ _); [| discriminate].
  intros [= _ <-]. reflexivity.
Qed.

Lemma Underlying_same (p : loc) (st : State) e st' :
  Underlying p st = Some (e, st') -> st' = st.
Proof.
  cbv [Underlying deref mbind M_bind mret M_ret].
  destruct (heap st !! p) as [obj |]; [| discriminate].
  intros [= _ <-]. reflexivity.
Qed.

(** [ErrorStack] as the sequence of the three methods it calls. *)
Lemma ErrorStack_sequence (p : loc) (st : State) :
  ErrorStack p st =
  (t ← TypeName p; msg ← Error p; s ← Stack p;
   mret (t +:+ " " +:+ msg +:+ newline +:+ s)) st.
Proof.
  cbv [ErrorStack TypeName Error Stack call deref mbind M_bind].
  destruct (heap st !! p) as [obj |] eqn:Hp; [| reflexivity].
  cbv [wrappedError_ErrorStack wrappedError_TypeName or_panic mbind M_bind].
  destruct (typeName_of "wrappedError" (err obj)); [| reflexivity].
  cbn beta iota. rewrite Hp. unfold wrappedError_Error.
  destruct (error_Error _ _ _); [| reflexivity].
  cbn beta iota. rewrite Hp. reflexivity.
Qed.

Lemma ErrorStack_heap (p : loc) (st : State) s st' :
  ErrorStack p st = Some (s, st') ->
  heap st' = heap st /\ symbols st' = symbols st.
Proof.
  rewrite ErrorStack_sequence. cbv [mbind M_bind].
  destruct (TypeName p st) as [[t st1] |] eqn:Ht; [| discriminate].
  apply TypeName_keeps_state in Ht as ->.
  destruct (Error p st) as [[m st1] |] eqn:Hm; [| discriminate].
  apply Error_same in Hm as ->.
  destruct (Stack p st) as [[s0 st1] |] eqn:Hs; [| discriminate].
  apply Stack_heap in Hs. intros [= _ <-]. exact Hs.
Qed.

(** Every call leaves the heap as it is, appends one cell without frames
    around a cause that is not nil, or replaces the prefix of one cell. *)
Lemma run_shape (c : PrefixedClients.call) (st st' : State) :
  PrefixedClients.run c st = Some st' ->
  symbols st' = symbols st /\
  (heap st' = heap st \/
   (exists obj,
      heap st' = (heap st ++ [obj])%list /\ frames obj = None /\
      err obj <> nil /\
      made_from (next_errorString st) (PrefixedClients.call_value c) (err obj)) \/
   (exists p obj pre,
      heap st !! p = Some obj /\
      heap st' =
        <[p := set_prefix obj
                 (if negb (String.eqb (prefix obj) "")
                  then pre +:+ ": " +:+ prefix obj else pre)]> (heap st))).
Proof.
  intros Hrun.
  assert (forall v, (exists q, v = of_error (wrapper q)) \/
                    (forall q, v <> of_error (wrapper q))) as Hcase.
  { intros [[| q | | |] | |]; try (right; discriminate). left. eauto. }
  destruct c as [chain v | chain v skip | chain v pre skip | chain text
                | p | p | p | p | p | p | d];
    cbn [PrefixedClients.run] in Hrun;
    cbn [PrefixedClients.call_value].
  - destruct (Z.ltb_spec (MaxStackDepth st) 0) as [Hneg | Hd].
    + rewrite New_negative in Hrun by exact Hneg. discriminate.
    + destruct (New_succeeds chain v st Hd)
        as (obj & st1 & Hn & Hh & Hs & _ & Hmade & Hnil & _ & Hfr & _).
      rewrite Hn in Hrun. injection Hrun as <-.
      split; [exact Hs |]. right. left. exists obj. auto.
  - destruct (Hcase v) as [[q ->] | Hv].
    + injection Hrun as <-. auto.
    + destruct (Z.ltb_spec (MaxStackDepth st) 0) as [Hneg | Hd].
      * rewrite Wrap_negative in Hrun by assumption. discriminate.
      * destruct (Wrap_succeeds chain v skip st Hv Hd)
          as (obj & st1 & Hn & Hh & Hs & _ & _ & Hmade & Hnil & _ & Hfr & _).
        rewrite Hn in Hrun. injection Hrun as <-.
        split; [exact Hs |]. right. left. exists obj. auto.
  - destruct (Hcase v) as [[q ->] | Hv].
    + destruct (heap st !! q) as [obj |] eqn:Hq.
      * rewrite (WrapPrefix_wrapper chain q obj pre skip st Hq) in Hrun.
        injection Hrun as <-. split; [reflexivity |]. right. right.
        exists q, obj, pre. split; [exact Hq | reflexivity].
      * cbv [WrapPrefix Wrap mbind M_bind mret M_ret deref] in Hrun.
        rewrite Hq in Hrun. discriminate.
    + destruct (Z.ltb_spec (MaxStackDepth st) 0) as [Hneg | Hd].
      * rewrite WrapPrefix_negative in Hrun by assumption. discriminate.
      * destruct (WrapPrefix_succeeds chain v pre skip st Hv Hd)
          as (obj & st1 & Hn & Hh & Hs & _ & _ & Hmade & Hnil & _ & Hfr & _).
        rewrite Hn in Hrun. injection Hrun as <-.
        split; [exact Hs |]. right. left. exists obj. auto.
  - destruct (Z.ltb_spec (MaxStackDepth st) 0) as [Hneg | Hd].
    + rewrite Errorf_negative in Hrun by exact Hneg. discriminate.
    + destruct (Errorf_succeeds chain text st Hd)
        as (obj & st1 & Hn & Hh & Hs & _ & _ & _ & Herr & _ & Hfr & _).
      rewrite Hn in Hrun. injection Hrun as <-.
      split; [exact Hs |]. right. left. exists obj.
      rewrite Herr. repeat split; try assumption; discriminate.
  - destruct (Underlying p st) as [[e st1] |] eqn:H; [| discriminate].
    injection Hrun as <-. apply Underlying_same in H as ->. auto.
  - destruct (Error p st) as [[e st1] |] eqn:H; [| discriminate].
    injection Hrun as <-. apply Error_same in H as ->. auto.
  - destruct (Stack p st) as [[e st1] |] eqn:H; [| discriminate].
    injection Hrun as <-. apply Stack_heap in H as [Hh Hs]. auto.
  - destruct (ErrorStack p st) as [[e st1] |] eqn:H; [| discriminate].
    injection Hrun as <-. apply ErrorStack_heap in H as [Hh Hs]. auto.
  - destruct (StackFrames p st) as [[e st1] |] eqn:H; [| discriminate].
    injection Hrun as <-. apply StackFrames_heap in H as [Hh Hs]. auto.
  - destruct (TypeName p st) as [[e st1] |] eqn:H; [| discriminate].
    injection Hrun as <-. apply TypeName_keeps_state in H as ->. auto.
  - injection Hrun as <-. auto.
Qed.

(** In every state a client can reach, the heap has no cycle and no
    dangling pointer, no cause is nil, and no cell holds frames. *)
Lemma reachable_inv syms st :
  PrefixedClients.reachable syms st ->
  symbols st = syms /\ heap_wf err (heap st) /\
  forall p obj, heap st !! p = Some obj -> err obj <> nil /\ frames obj = None.
Proof.
  induction 1 as [| st c st' _ (IHs & IHwf & IH) Hv Hrun].
  - split; [reflexivity |].
    split; intros p obj Hp; destruct p; discriminate Hp.
  - destruct (run_shape c st st' Hrun)
      as [Hs [Hh | [(obj & Hh & Hfr & Hnil & Hmade) | (p & obj & pre & Hp & Hh)]]];
      (split; [congruence |]); rewrite Hh.
    + auto.
    + split.
      * apply heap_wf_app; [exact IHwf |]. eapply made_from_within; eassumption.
      * intros q o Hq.
        destruct (decide (q < length (heap st))) as [Hlt | Hge].
        -- rewrite lookup_app_l in Hq by exact Hlt. exact (IH q o Hq).
        -- pose proof (lookup_lt_Some _ _ _ Hq) as Hlen.
           rewrite length_app in Hlen. simpl in Hlen.
           assert (q = length (heap st)) as -> by lia.
           rewrite list_lookup_middle in Hq by reflexivity.
           injection Hq as <-. auto.
    + split.
      * eapply heap_wf_insert; [exact IHwf | exact Hp | reflexivity].
      * intros q o Hq. destruct (decide (q = p)) as [-> | Hne].
        -- rewrite list_lookup_insert_eq in Hq
             by (eapply lookup_lt_Some; exact Hp).
           injection Hq as <-. exact (IH p obj Hp).
        -- rewrite list_lookup_insert_ne in Hq by congruence. exact (IH q o Hq).
Qed.

(** A call never takes a cell away and never changes a cause. *)
Lemma run_extends (c : PrefixedClients.call) (st st' : State) :
  PrefixedClients.run c st = Some st' -> extends err (heap st) (heap st').
Proof.
  intros Hrun.
  destruct (run_shape c st st' Hrun)
    as [_ [Hh | [(obj & Hh & _) | (p & obj & pre & Hp & Hh)]]]; rewrite Hh.
  - apply extends_refl.
  - apply extends_app.
  - eapply extends_insert; [exact Hp | reflexivity].
Qed.

Lemma run_all_extends (cs : list PrefixedClients.call) (st st' : State) :
  PrefixedClients.run_all cs st = Some st' -> extends err (heap st) (heap st').
Proof.
  revert st. induction cs as [| c rest IH]; intros st; simpl.
  - intros [= <-]. apply extends_refl.
  - destruct (PrefixedClients.run c st) as [st1 |] eqn:E; simpl; [| discriminate].
    intros Hrest.
    eapply extends_trans; [eapply run_extends; exact E | apply IH, Hrest].
Qed.

(** *** Fields that stay *)

Lemma append_empty_r (a : string) : a +:+ "" = a.
Proof.
  induction a as [| ch a IH]; [reflexivity |].
  rewrite append_cons, IH. reflexivity.
Qed.

Lemma set_prefix_same (obj : wrappedError) :
  set_prefix obj ("" +:+ prefix obj) = obj.
Proof. destruct obj; reflexivity. Qed.

(** The prefix [WrapPrefix] stores ends in the prefix that was there. *)
Lemma prefix_grows (obj : wrappedError) (pre : string) :
  exists s,
    (if negb (String.eqb (prefix obj) "")
     then pre +:+ ": " +:+ prefix obj else pre) = s +:+ prefix obj.
Proof.
  destruct (String.eqb (prefix obj) "") eqn:Hold; cbn [negb].
  - exists pre. rewrite (eqb_empty _ Hold). symmetry. apply append_empty_r.
  - exists (pre +:+ ": "). symmetry. apply append_assoc3.
Qed.

Lemma prefix_kept_refl st : PrefixedClients.kept st st.
Proof. intros q obj Hq. exists "". rewrite set_prefix_same. exact Hq. Qed.

Lemma prefix_kept_trans st1 st2 st3 :
  PrefixedClients.kept st1 st2 -> PrefixedClients.kept st2 st3 ->
  PrefixedClients.kept st1 st3.
Proof.
  intros H12 H23 q obj Hq.
  destruct (H12 q obj Hq) as (s1 & Hq2).
  destruct (H23 q _ Hq2) as (s2 & Hq3).
  exists (s2 +:+ s1). rewrite Hq3. cbn [set_prefix prefix err stack frames].
  rewrite append_assoc3. reflexivity.
Qed.

Lemma run_prefix_kept (c : PrefixedClients.call) (st st' : State) :
  PrefixedClients.run c st = Some st' -> PrefixedClients.kept st st'.
Proof.
  intros Hrun q o Hq.
  destruct (run_shape c st st' Hrun)
    as [_ [Hh | [(obj & Hh & _) | (p & obj & pre & Hp & Hh)]]]; rewrite Hh.
  - exists "". rewrite set_prefix_same. exact Hq.
  - exists "". rewrite set_prefix_same. apply lookup_app_l_Some. exact Hq.
  - destruct (decide (q = p)) as [-> | Hne].
    + assert (o = obj) as -> by congruence.
      destruct (prefix_grows obj pre) as [s Hs]. exists s.
      rewrite list_lookup_insert_eq by (eapply lookup_lt_Some; exact Hp).
      rewrite Hs. reflexivity.
    + exists "". rewrite set_prefix_same.
      rewrite list_lookup_insert_ne by congruence. exact Hq.
Qed.

Lemma run_all_prefix_kept (cs : list PrefixedClients.call) (st st' : State) :
  PrefixedClients.run_all cs st = Some st' -> PrefixedClients.kept st st'.
Proof.
  revert st. induction cs as [| c rest IH]; intros st; simpl.
  - intros [= <-]. apply prefix_kept_refl.
  - destruct (PrefixedClients.run c st) as [st1 |] eqn:E; simpl; [| discriminate].
    intros Hrest. eapply prefix_kept_trans; [eapply run_prefix_kept; exact E | apply IH, Hrest].
Qed.

End PrefixedMore.

(* ================================================================= *)
(** ** Further facts about the [Error] struct rendition *)

Module TitledMore.
Import Common ChainFacts Heaps MoreFacts Titled TitledFacts TitledClients.

(** A message that was computed stays the same with more fuel and in any
    later heap. *)
Lemma error_Error_extends (h h' : list Error) :
  extends Err h h' ->
  forall n n' e m,
    n <= n' -> error_Error n h e = Some m -> error_Error n' h' e = Some m.
Proof.
  intros Hext n.
  induction n as [| n IHn]; intros n' e;
    induction e as [| p | p s | key e IHe | msg]; intros m Hle;
    rewrite (error_Error_cases _ h), (error_Error_cases _ h');
    try (intros H; exact H); try discriminate.
  - destruct (error_Error 0 h e) as [m0 |] eqn:E; simpl; [| discriminate].
    intros [= <-]. rewrite (IHe m0 Hle eq_refl). reflexivity.
  - destruct n' as [| n']; [lia |].
    destruct (h !! p) as [obj |] eqn:Hp; simpl; [| discriminate].
    destruct (Hext p obj Hp) as (obj' & -> & Hc). simpl. rewrite Hc.
    apply IHn. lia.
  - destruct (error_Error (S n) h e) as [m0 |] eqn:E; simpl; [| discriminate].
    intros [= <-]. rewrite (IHe m0 Hle eq_refl). reflexivity.
Qed.

(** *** The constructors, computed *)

Lemma normalize_total (v : value) (st : State) :
  exists e st1,
    normalize v st = Some (e, st1) /\ made_from (next_errorString st) v e /\
    e <> nil /\ heap st1 = heap st /\ symbols st1 = symbols st /\
    MaxStackDepth st1 = MaxStackDepth st /\ resolutions st1 = resolutions st /\
    next_errorString st <= next_errorString st1.
Proof.
  destruct v as [[| | | |] | |]; simpl; eexists _, _;
    (split; [reflexivity |]); simpl; repeat split; try discriminate; lia.
Qed.

(** The common end of [New], [Custom] and [Wrap]: the stack is captured and
    resolved, the type name and the message of the cause are asked for, and
    the struct is allocated. *)
Lemma New_eq (chain : list uintptr) (v : value) (st : State) err st1 :
  normalize v st = Some (err, st1) ->
  heap st1 = heap st -> symbols st1 = symbols st ->
  MaxStackDepth st1 = MaxStackDepth st ->
  New chain v st =
  if (MaxStackDepth st <? 0)%Z then None
  else
    let s := runtime_Callers 2 (Z.to_nat (MaxStackDepth st))
               (pc_Callers :: pc_New :: chain) in
    match error_Error (length (heap st)) (heap st) err,
          typeName_of "Error" err with
    | Some msg, Some t =>
        Some (length (heap st),
              after_build st1 s (built (symbols st) err s t msg msg msg true))
    | _, _ => None
    end.
Proof.
  intros Hn Hh Hs Hd. unfold New. cbv [mbind M_bind]. rewrite Hn. cbn beta iota.
  unfold capture. rewrite Hd.
  destruct (MaxStackDepth st <? 0)%Z; [reflexivity |].
  rewrite stackFrames_run.
  cbv [iface_Error errorStack typeName or_panic mbind M_bind mret M_ret
       resolved_more alloc after_build built set_heap].
  cbn [heap symbols MaxStackDepth next_errorString resolutions].
  rewrite Hh, Hs.
  destruct (error_Error (length (heap st)) (heap st) err) as [msg |] eqn:Hmsg;
    [| reflexivity].
  destruct (typeName_of "Error" err) as [t |]; [| reflexivity].
  repeat (cbn beta iota;
          cbn [heap symbols MaxStackDepth next_errorString resolutions];
          try rewrite Hmsg).
  reflexivity.
Qed.

Lemma Custom_eq (chain : list uintptr) (v : value) (desc title : string)
    (st : State) err st1 :
  normalize v st = Some (err, st1) ->
  heap st1 = heap st -> symbols st1 = symbols st ->
  MaxStackDepth st1 = MaxStackDepth st ->
  Custom chain v desc title st =
  if (MaxStackDepth st <? 0)%Z then None
  else
    let s := runtime_Callers 2 (Z.to_nat (MaxStackDepth st))
               (pc_Callers :: pc_Custom :: chain) in
    match error_Error (length (heap st)) (heap st) err,
          typeName_of "Error" err with
    | Some msg, Some t =>
        Some (length (heap st),
              after_build st1 s (built (symbols st) err s t msg title desc false))
    | _, _ => None
    end.
Proof.
  intros Hn Hh Hs Hd. unfold Custom. cbv [mbind M_bind]. rewrite Hn. cbn beta iota.
  unfold capture. rewrite Hd.
  destruct (MaxStackDepth st <? 0)%Z; [reflexivity |].
  rewrite stackFrames_run.
  cbv [iface_Error errorStack typeName or_panic mbind M_bind mret M_ret
       resolved_more alloc after_build built set_heap].
  cbn [heap symbols MaxStackDepth next_errorString resolutions].
  rewrite Hh, Hs.
  destruct (error_Error (length (heap st)) (heap st) err) as [msg |] eqn:Hmsg;
    destruct (typeName_of "Error" err) as [t |];
    repeat (cbn beta iota;
            cbn [heap symbols MaxStackDepth next_errorString resolutions];
            try rewrite Hmsg);
    reflexivity.
Qed.

Lemma Wrap_eq (chain : list uintptr) (v : value) (skip : Z) (st : State) err st1 :
  (forall q, v <> of_error (wrapper q)) ->
  normalize v st = Some (err, st1) ->
  heap st1 = heap st -> symbols st1 = symbols st ->
  MaxStackDepth st1 = MaxStackDepth st ->
  Wrap chain v skip st =
  if (MaxStackDepth st <? 0)%Z then None
  else
    let s := runtime_Callers (2 + skip) (Z.to_nat (MaxStackDepth st))
               (pc_Callers :: pc_Wrap :: chain) in
    match error_Error (length (heap st)) (heap st) err,
          typeName_of "Error" err with
    | Some msg, Some t =>
        Some (length (heap st),
              after_build st1 s (built (symbols st) err s t msg "" "" true))
    | _, _ => None
    end.
Proof.
  intros Hv Hn Hh Hs Hd.
  assert (Wrap chain v skip st =
          (err ← normalize v;
           s ← capture (2 + skip) (pc_Callers :: pc_Wrap :: chain);
           f ← stackFrames s;
           t ← typeName err;
           text ← errorStack t err (stack_of_frames f);
           alloc {| Err := err; stack := s; frames := Some f; Stack := text;
                    Title := ""; Description := "" |}) st) as ->.
  { destruct v as [[| q | | |] | |]; try reflexivity.
    exfalso. exact (Hv q eq_refl). }
  cbv [mbind M_bind]. rewrite Hn. cbn beta iota.
  unfold capture. rewrite Hd.
  destruct (MaxStackDepth st <? 0)%Z; [reflexivity |].
  rewrite stackFrames_run.
  cbv [iface_Error errorStack typeName or_panic mbind M_bind mret M_ret
       resolved_more alloc after_build built set_heap].
  cbn [heap symbols MaxStackDepth next_errorString resolutions].
  rewrite Hh, Hs.
  destruct (error_Error (length (heap st)) (heap st) err) as [msg |] eqn:Hmsg;
    destruct (typeName_of "Error" err) as [t |];
    repeat (cbn beta iota;
            cbn [heap symbols MaxStackDepth next_errorString resolutions];
            try rewrite Hmsg);
    reflexivity.
Qed.

(** Every capturing constructor, computed: it panics on a negative
    [MaxStackDepth] and when the cause has no message, and otherwise
    appends the struct it built. *)
Lemma construct_eq (c : call) (m : M State loc) (st : State) err st1 :
  captures c = true -> construct c = Some m ->
  normalize (call_value c) st = Some (err, st1) ->
  m st =
  if (MaxStackDepth st <? 0)%Z then None
  else
    match error_Error (length (heap st)) (heap st) err,
          typeName_of "Error" err with
    | Some msg, Some t =>
        Some (length (heap st),
              after_build st1 (captured_stack c (MaxStackDepth st))
                (built_by c (symbols st) err
                   (captured_stack c (MaxStackDepth st)) t msg))
    | _, _ => None
    end.
Proof.
  intros Hcap Hcon Hn.
  destruct (normalize_total (call_value c) st)
    as (e' & st' & Hn' & _ & _ & Hh & Hs & Hd & _).
  rewrite Hn in Hn'. injection Hn' as <- <-.
  destruct c as [chain v | chain v desc title | chain v skip | chain text
                | | | | | |]; try discriminate; injection Hcon as <-;
    cbn [call_value captured_stack built_by] in *.
  - apply New_eq; assumption.
  - apply Custom_eq; assumption.
  - apply Wrap_eq; try assumption.
    intros q ->. discriminate Hcap.
  - injection Hn as <- <-. unfold Errorf. cbv [mbind M_bind fmt_Errorf].
    erewrite Wrap_eq; [reflexivity | discriminate | reflexivity ..].
Qed.

Lemma construct_inv (c : call) (m : M State loc) (st : State) p st' :
  captures c = true -> construct c = Some m -> m st = Some (p, st') ->
  exists err st1 msg t,
    normalize (call_value c) st = Some (err, st1) /\
    made_from (next_errorString st) (call_value c) err /\ err <> nil /\
    heap st1 = heap st /\ symbols st1 = symbols st /\
    MaxStackDepth st1 = MaxStackDepth st /\ resolutions st1 = resolutions st /\
    (0 <= MaxStackDepth st)%Z /\
    error_Error (length (heap st)) (heap st) err = Some msg /\
    typeName_of "Error" err = Some t /\
    p = length (heap st) /\
    st' = after_build st1 (captured_stack c (MaxStackDepth st))
            (built_by c (symbols st) err
               (captured_stack c (MaxStackDepth st)) t msg).
Proof.
  intros Hcap Hcon Hrun.
  destruct (normalize_total (call_value c) st)
    as (err & st1 & Hn & Hmade & Hnil & Hh & Hs & Hd & Hres & _).
  rewrite (construct_eq c m st err st1 Hcap Hcon Hn) in Hrun.
  destruct (Z.ltb_spec (MaxStackDepth st) 0) as [| Hge]; [discriminate |].
  destruct (error_Error (length (heap st)) (heap st) err) as [msg |] eqn:Hmsg;
    [| discriminate].
  destruct (typeName_of "Error" err) as [t |] eqn:Ht; [| discriminate].
  injection Hrun as <- <-.
  exists err, st1, msg, t. repeat split; assumption.
Qed.

Lemma built_by_Err c syms err s t msg : Err (built_by c syms err s t msg) = err.
Proof. destruct c; reflexivity. Qed.

Lemma built_by_stack c syms err s t msg : stack (built_by c syms err s t msg) = s.
Proof. destruct c; reflexivity. Qed.

Lemma built_by_Stack c syms err s t msg :
  Stack (built_by c syms err s t msg) =
  t +:+ " " +:+ msg +:+ newline +:+ stack_of_frames (resolve syms s).
Proof. destruct c; reflexivity. Qed.

Lemma built_by_frames c syms err s t msg :
  frames (built_by c syms err s t msg) =
  match c with
  | call_Custom _ _ _ _ => None
  | _ => Some (resolve syms s)
  end.
Proof. destruct c; reflexivity. Qed.

(** *** The methods, computed *)

Lemma TypeName_of_struct (p : loc) (obj : Error) (st : State) :
  heap st !! p = Some obj ->
  TypeName p st =
  match typeName_of "Error" (Err obj) with
  | Some t => Some (t, st)
  | None => None
  end.
Proof.
  intros Hp. cbv [TypeName deref typeName mbind M_bind or_panic].
  rewrite Hp. reflexivity.
Qed.

(** The message of a value is the message of its innermost cause. *)
Lemma error_Error_root (h : list Error) :
  heap_wf Err h ->
  forall n e r,
    within (length h) e -> root_fuel Err n h e = Some r ->
    error_Error (length h) h e = error_Error (length h) h r.
Proof.
  intros Hwf n. induction n as [| n IH]; intros e r Hin Hr.
  - destruct e; simpl in Hr; try discriminate; injection Hr as <-; reflexivity.
  - destruct e as [| p | | |]; simpl in Hr; try (injection Hr as <-; reflexivity).
    destruct (h !! p) as [obj |] eqn:Hp; simpl in Hr; [| discriminate].
    simpl in Hin.
    rewrite <- (IH (Err obj) r);
      [| apply (within_weaken p); [lia | exact (Hwf p obj Hp)] | exact Hr].
    destruct (length h) as [| m] eqn:Hlen; [lia |].
    rewrite (error_Error_cases (S m) _ (wrapper p)). rewrite Hp.
    cbn [mbind option_bind].
    apply (error_Error_fuel_enough h Hwf m (S m) (Err obj) p);
      [exact (Hwf p obj Hp) | lia | lia].
Qed.

Lemma ErrorStack_run (p : loc) (obj : Error) (st : State) t msg :
  heap st !! p = Some obj ->
  typeName_of "Error" (Err obj) = Some t ->
  error_Error (length (heap st)) (heap st) (wrapper p) = Some msg ->
  ErrorStack p st =
  match StackTrace p st with
  | Some (s, st') => Some (t +:+ " " +:+ msg +:+ newline +:+ s, st')
  | None => None
  end.
Proof.
  intros Hp Ht Hm. unfold ErrorStack. cbv [mbind M_bind].
  rewrite (TypeName_of_struct p obj st Hp), Ht.
  rewrite (StackTrace_run p obj st Hp).
  destruct (frames obj) as [fs |] eqn:Hf;
    unfold errorStack, iface_Error; cbv [mbind M_bind].
  - rewrite Hm. reflexivity.
  - cbn [heap set_heap resolved_more]. rewrite length_insert.
    rewrite (error_Error_set_frames _ p obj _ Hp), Hm. reflexivity.
Qed.

(** The message of a struct that was just allocated. *)
Lemma Error_of_new_struct (st : State) (obj : Error) (st' : State) (m : string) :
  heap st' = (heap st ++ [obj])%list ->
  error_Error (length (heap st)) (heap st) (Err obj) = Some m ->
  Error_Error (length (heap st)) st' = Some (m, st').
Proof.
  intros Hh Hm. unfold Error_Error, iface_Error.
  rewrite Hh, length_app. simpl. rewrite Nat.add_1_r.
  rewrite (error_Error_cases (S _)).
  rewrite list_lookup_middle by reflexivity. cbn [mbind option_bind].
  rewrite (error_Error_extends (heap st) _ (extends_app Err _ _)
             (length (heap st)) _ _ m); [reflexivity | lia | exact Hm].
Qed.


(** What a capturing constructor leaves behind. *)
Lemma construct_result (c : call) (m : M State loc) (st : State) p st' :
  captures c = true -> construct c = Some m -> m st = Some (p, st') ->
  exists obj msg t,
    p = length (heap st) /\ heap st' = (heap st ++ [obj])%list /\
    heap st' !! p = Some obj /\
    symbols st' = symbols st /\ MaxStackDepth st' = MaxStackDepth st /\
    (0 <= MaxStackDepth st)%Z /\
    made_from (next_errorString st) (call_value c) (Err obj) /\ Err obj <> nil /\
    error_Error (length (heap st)) (heap st) (Err obj) = Some msg /\
    typeName_of "Error" (Err obj) = Some t /\
    obj = built_by c (symbols st) (Err obj)
            (captured_stack c (MaxStackDepth st)) t msg /\
    Error_Error p st' = Some (msg, st') /\ TypeName p st' = Some (t, st').
Proof.
  intros Hcap Hcon Hrun.
  destruct (construct_inv c m st p st' Hcap Hcon Hrun)
    as (err & st1 & msg & t & _ & Hmade & Hnil & Hh & Hs & Hd & _ & Hge & Hmsg
        & Ht & -> & ->).
  pose (obj := built_by c (symbols st) err
                 (captured_stack c (MaxStackDepth st)) t msg).
  assert (Err obj = err) as He by apply built_by_Err.
  assert (heap (after_build st1 (captured_stack c (MaxStackDepth st)) obj) =
          (heap st ++ [obj])%list) as Hheap
    by (cbn [after_build heap set_heap resolved_more]; rewrite Hh; reflexivity).
  assert (heap (after_build st1 (captured_stack c (MaxStackDepth st)) obj)
            !! length (heap st) = Some obj) as Hp
    by (rewrite Hheap; apply list_lookup_middle; reflexivity).
  exists obj, msg, t. fold obj. rewrite He.
  split; [reflexivity |]. split; [exact Hheap |]. split; [exact Hp |].
  split; [exact Hs |]. split; [exact Hd |]. split; [exact Hge |].
  split; [exact Hmade |]. split; [exact Hnil |]. split; [exact Hmsg |].
  split; [exact Ht |]. split; [reflexivity |]. split.
  - apply (Error_of_new_struct st obj); [exact Hheap | rewrite He; exact Hmsg].
  - rewrite (TypeName_of_struct _ obj _ Hp), He, Ht. reflexivity.
Qed.




(** *** What a call can do to the heap *)

Lemma set_frames_same (obj : Error) : set_frames obj (frames obj) = obj.
Proof. destruct obj; reflexivity. Qed.

(** Every call leaves the heap as it is, appends one struct around a cause
    that has a message, or stores frames in one cell. *)
Lemma run_effect (c : call) (st st' : State) :
  run c st = Some st' ->
  symbols st' = symbols st /\
  (heap st' = heap st \/
   (exists obj msg t,
      heap st' = (heap st ++ [obj])%list /\ Err obj <> nil /\
      error_Error (length (heap st)) (heap st) (Err obj) = Some msg /\
      made_from (next_errorString st) (call_value c) (Err obj) /\
      typeName_of "Error" (Err obj) = Some t /\
      Stack obj =
        t +:+ " " +:+ msg +:+ newline +:+
        stack_of_frames (resolve (symbols st) (stack obj))) \/
   (exists p obj fs,
      heap st !! p = Some obj /\
      heap st' = <[p := set_frames obj fs]> (heap st))).
Proof.
  intros Hrun.
  assert (forall m p,
            captures c = true -> construct c = Some m -> m st = Some (p, st') ->
            symbols st' = symbols st /\
            exists obj msg t,
              heap st' = (heap st ++ [obj])%list /\ Err obj <> nil /\
              error_Error (length (heap st)) (heap st) (Err obj) = Some msg /\
              made_from (next_errorString st) (call_value c) (Err obj) /\
              typeName_of "Error" (Err obj) = Some t /\
              Stack obj =
                t +:+ " " +:+ msg +:+ newline +:+
                stack_of_frames (resolve (symbols st) (stack obj))) as Hbuild.
  { intros m p Hcap Hcon Hm.
    destruct (construct_inv c m st p st' Hcap Hcon Hm)
      as (err & st1 & msg & t & _ & Hmade & Hnil & Hh & Hs & _ & _ & _ & Hmsg
          & Ht & _ & ->).
    split; [exact Hs |].
    eexists _, msg, t. cbn [after_build heap set_heap resolved_more].
    rewrite Hh, built_by_Err, built_by_Stack, built_by_stack.
    repeat split; assumption. }
  destruct c as [chain v | chain v desc title | chain v skip | chain text
                | p | p | p | p | p | d];
    cbn [run] in Hrun; apply snd_inv in Hrun as [a Hrun].
  - destruct (Hbuild _ a eq_refl eq_refl Hrun) as [Hs Hobj]. auto.
  - destruct (Hbuild _ a eq_refl eq_refl Hrun) as [Hs Hobj]. auto.
  - destruct (captures (call_Wrap chain v skip)) eqn:Hcap.
    + destruct (Hbuild _ a eq_refl eq_refl Hrun) as [Hs Hobj]. auto.
    + destruct v as [[| q | | |] | |]; try discriminate.
      injection Hrun as _ <-. auto.
  - destruct (Hbuild _ a eq_refl eq_refl Hrun) as [Hs Hobj]. auto.
  - apply iface_Error_inv in Hrun as [-> _]. auto.
  - destruct (heap st !! p) as [obj |] eqn:Hp.
    + rewrite (StackFrames_run p obj st Hp) in Hrun.
      destruct (frames obj); injection Hrun as _ <-; [auto |].
      split; [reflexivity |]. right. right. eexists p, obj, _.
      split; [exact Hp | reflexivity].
    + cbv [StackFrames deref mbind M_bind] in Hrun. rewrite Hp in Hrun.
      discriminate.
  - destruct (heap st !! p) as [obj |] eqn:Hp.
    + rewrite (StackTrace_run p obj st Hp) in Hrun.
      destruct (frames obj); injection Hrun as _ <-; [auto |].
      split; [reflexivity |]. right. right. eexists p, obj, _.
      split; [exact Hp | reflexivity].
    + cbv [StackTrace deref mbind M_bind] in Hrun. rewrite Hp in Hrun.
      discriminate.
  - apply TypeName_same in Hrun as ->. auto.
  - unfold ErrorStack in Hrun.
    apply bind_inv in Hrun as (t & st1 & Ht & Hrun).
    apply TypeName_same in Ht as ->.
    apply bind_inv in Hrun as (s & st2 & Hs & Hrun).
    apply errorStack_inv in Hrun as ->.
    destruct (heap st !! p) as [obj |] eqn:Hp.
    + rewrite (StackTrace_run p obj st Hp) in Hs.
      destruct (frames obj); injection Hs as _ <-; [auto |].
      split; [reflexivity |]. right. right. eexists p, obj, _.
      split; [exact Hp | reflexivity].
    + cbv [StackTrace deref mbind M_bind] in Hs. rewrite Hp in Hs.
      discriminate.
  - injection Hrun as _ <-. auto.
Qed.

(** *** Fields that stay *)

Lemma kept_refl st : kept st st.
Proof. intros q obj Hq. exists (frames obj). rewrite set_frames_same. exact Hq. Qed.

Lemma kept_trans st1 st2 st3 : kept st1 st2 -> kept st2 st3 -> kept st1 st3.
Proof.
  intros H12 H23 q obj Hq.
  destruct (H12 q obj Hq) as (fs & Hq2).
  destruct (H23 q _ Hq2) as (fs' & Hq3).
  exists fs'. exact Hq3.
Qed.

Lemma run_kept (c : call) (st st' : State) : run c st = Some st' -> kept st st'.
Proof.
  intros Hrun q o Hq.
  destruct (run_effect c st st' Hrun)
    as [_ [Hh | [(obj & msg & t & Hh & _) | (p & obj & fs & Hp & Hh)]]]; rewrite Hh.
  - exists (frames o). rewrite set_frames_same. exact Hq.
  - exists (frames o). rewrite set_frames_same.
    apply lookup_app_l_Some. exact Hq.
  - destruct (decide (q = p)) as [-> | Hne].
    + exists fs. rewrite list_lookup_insert_eq by (eapply lookup_lt_Some; exact Hp).
      congruence.
    + exists (frames o). rewrite set_frames_same.
      rewrite list_lookup_insert_ne by congruence. exact Hq.
Qed.

Lemma run_all_kept (cs : list call) (st st' : State) :
  run_all cs st = Some st' -> kept st st'.
Proof.
  revert st. induction cs as [| c rest IH]; intros st; simpl.
  - intros [= <-]. apply kept_refl.
  - destruct (run c st) as [st1 |] eqn:E; simpl; [| discriminate].
    intros Hrest. eapply kept_trans; [eapply run_kept; exact E | apply IH, Hrest].
Qed.

Lemma kept_extends (st st' : State) : kept st st' -> extends Err (heap st) (heap st').
Proof.
  intros H q obj Hq. destruct (H q obj Hq) as (fs & Hq').
  eexists. split; [exact Hq' | reflexivity].
Qed.

(** *** Every wrapper of a reachable state has a message *)

Lemma run_messages (c : call) (st st' : State) :
  all_have_messages (heap st) -> run c st = Some st' ->
  all_have_messages (heap st').
Proof.
  intros Hall Hrun.
  destruct (run_effect c st st' Hrun)
    as [_ [Hh | [(obj & msg & t & Hh & _ & Hmsg & _) | (p & obj & fs & Hp & Hh)]]];
    rewrite Hh.
  - exact Hall.
  - intros q Hq. rewrite length_app in *. simpl in Hq.
    replace (length (heap st) + length [obj]) with (S (length (heap st)))
      by (simpl; lia).
    destruct (decide (q < length (heap st))) as [Hlt | Hge].
    + destruct (Hall q Hlt) as [m Hm]. exists m.
      apply (error_Error_extends (heap st) _ (extends_app Err _ _)
               (length (heap st)) _ _ m); [lia | exact Hm].
    + assert (q = length (heap st)) as -> by lia.
      exists msg. rewrite (error_Error_cases (S _)).
      rewrite list_lookup_middle by reflexivity. cbn [mbind option_bind].
      apply (error_Error_extends (heap st) _ (extends_app Err _ _)
               (length (heap st)) _ _ msg); [lia | exact Hmsg].
  - intros q Hq. rewrite length_insert in *.
    rewrite (error_Error_set_frames _ p obj fs Hp). apply Hall. exact Hq.
Qed.

Lemma run_causes (c : call) (st st' : State) :
  (forall p obj, heap st !! p = Some obj -> Err obj <> nil) ->
  run c st = Some st' ->
  forall p obj, heap st' !! p = Some obj -> Err obj <> nil.
Proof.
  intros Hall Hrun q o.
  destruct (run_effect c st st' Hrun)
    as [_ [Hh | [(obj & msg & t & Hh & Hnil & _) | (p & obj & fs & Hp & Hh)]]];
    rewrite Hh.
  - apply Hall.
  - intros Hq. destruct (decide (q < length (heap st))) as [Hlt | Hge].
    + rewrite lookup_app_l in Hq by exact Hlt. exact (Hall q o Hq).
    + pose proof (lookup_lt_Some _ _ _ Hq) as Hlen.
      rewrite length_app in Hlen. simpl in Hlen.
      assert (q = length (heap st)) as -> by lia.
      rewrite list_lookup_middle in Hq by reflexivity.
      injection Hq as <-. exact Hnil.
  - intros Hq. destruct (decide (q = p)) as [-> | Hne].
    + rewrite list_lookup_insert_eq in Hq by (eapply lookup_lt_Some; exact Hp).
      injection Hq as <-. exact (Hall p obj Hp).
    + rewrite list_lookup_insert_ne in Hq by congruence. exact (Hall q o Hq).
Qed.

Lemma reachable_messages syms st :
  reachable syms st ->
  all_have_messages (heap st) /\
  forall p obj, heap st !! p = Some obj -> Err obj <> nil.
Proof.
  induction 1 as [| st c st' _ [IHm IHc] Hv Hrun].
  - split.
    + intros q Hq. simpl in Hq. lia.
    + intros p obj Hp. destruct p; discriminate Hp.
  - split; [eapply run_messages | eapply run_causes]; eassumption.
Qed.

(** *** The [Stack] field stays what [ErrorStack()] returns *)

Lemma run_stacks (c : call) (st st' : State) :
  stacks_up_to_date st -> run c st = Some st' -> stacks_up_to_date st'.
Proof.
  intros Hall Hrun.
  destruct (run_effect c st st' Hrun)
    as [Hs [Hh | [(obj & msg & t & Hh & _ & Hmsg & _ & Ht & HStack)
                 | (p & obj & fs & Hp & Hh)]]];
    intros q o; rewrite Hh, Hs.
  - apply Hall.
  - intros Hq. rewrite length_app. simpl. rewrite Nat.add_1_r.
    destruct (decide (q < length (heap st))) as [Hlt | Hge].
    + rewrite lookup_app_l in Hq by exact Hlt.
      destruct (Hall q o Hq) as (t0 & m0 & Ht0 & Hm0 & HS0).
      exists t0, m0. split; [exact Ht0 |]. split; [| exact HS0].
      apply (error_Error_extends (heap st) _ (extends_app Err _ _)
               (length (heap st)) _ _ m0); [lia | exact Hm0].
    + pose proof (lookup_lt_Some _ _ _ Hq) as Hlen.
      rewrite length_app in Hlen. simpl in Hlen.
      assert (q = length (heap st)) as -> by lia.
      rewrite list_lookup_middle in Hq by reflexivity. injection Hq as <-.
      exists t, msg. split; [exact Ht |]. split; [| exact HStack].
      rewrite (error_Error_cases (S _)).
      rewrite list_lookup_middle by reflexivity. cbn [mbind option_bind].
      apply (error_Error_extends (heap st) _ (extends_app Err _ _)
               (length (heap st)) _ _ msg); [lia | exact Hmsg].
  - intros Hq. rewrite length_insert.
    rewrite (error_Error_set_frames _ p obj fs Hp).
    destruct (decide (q = p)) as [-> | Hne].
    + rewrite list_lookup_insert_eq in Hq by (eapply lookup_lt_Some; exact Hp).
      injection Hq as <-. exact (Hall p obj Hp).
    + rewrite list_lookup_insert_ne in Hq by congruence. exact (Hall q o Hq).
Qed.

Lemma reachable_stacks syms st : reachable syms st -> stacks_up_to_date st.
Proof.
  induction 1 as [| st c st' _ IH Hv Hrun].
  - intros p obj Hp. destruct p; discriminate Hp.
  - eapply run_stacks; eassumption.
Qed.

End TitledMore.

(* ================================================================= *)
(** ** The properties of the specification *)

Module Spec.
Import Common ChainFacts IsFacts.

(** C1.  [Is] on the values of [TestIs113]: [custErr] declares the hook
    [Is(target error) bool], the hook accepts [shouldMatch], and every copy
    of [Is] answers [false] all the same -- bare or wrapped by [New] --
    because the last comparison is [return false] and never asks the hook. *)
Theorem Is_ignores_custom_hook (stT : Titled.State) (stP : Prefixed.State) :
  Is_hook TestIs113.custErr = Some (errorWithCustomIs_Is "TestForFun") /\
  errorWithCustomIs_Is "TestForFun" TestIs113.shouldMatch = true /\
  Titled.Is stT TestIs113.custErr TestIs113.shouldMatch = Some false /\
  Titled.Is_backward stT TestIs113.custErr TestIs113.shouldMatch = Some false /\
  Prefixed.Is stP TestIs113.custErr TestIs113.shouldMatch = Some false /\
  (exists p st,
     Titled.New TestIs113.caller_chain (of_error TestIs113.custErr)
       (Titled.initial TestIs113.symtab) = Some (p, st) /\
     Titled.Is st (wrapper p) TestIs113.shouldMatch = Some false) /\
  (exists p st,
     Prefixed.New TestIs113.caller_chain (of_error TestIs113.custErr)
       (Prefixed.initial TestIs113.symtab) = Some (p, st) /\
     Prefixed.Is st (wrapper p) TestIs113.shouldMatch = Some false).
Proof.
  split; [reflexivity |]. split; [reflexivity |].
  split; [apply Is_gen_plain; reflexivity |].
  split; [apply Is_gen_plain; reflexivity |].
  split; [apply Is_gen_plain; reflexivity |].
  split; eexists _, _; split; reflexivity.
Qed.

(** C2, as the code has it.  On the [Error] struct, [StackFrames()]
    returns the frames the cell holds when it holds some, and otherwise
    resolves the addresses one by one and stores the result in the cell;
    a second call then returns the same sequence and changes nothing, so it
    resolves no address.  [New] and [Wrap] resolve the addresses themselves
    and store the frames, so that on their wrappers even the first call
    resolves nothing.  On [wrappedError] two calls in a row return the same
    sequence. *)
Theorem StackFrames_memoized (stT : Titled.State) (p : loc) (objT : Titled.Error)
    (stP : Prefixed.State) (q : loc) (objP : Prefixed.wrappedError) :
  Titled.heap stT !! p = Some objT ->
  Prefixed.heap stP !! q = Some objP ->
  (exists fs st1,
     Titled.StackFrames p stT = Some (fs, st1) /\
     fs = match Titled.frames objT with
          | Some cached => cached
          | None => Titled.resolve (Titled.symbols stT) (Titled.stack objT)
          end /\
     Titled.resolutions st1 =
       match Titled.frames objT with
       | Some _ => 0
       | None => length (Titled.stack objT)
       end + Titled.resolutions stT /\
     (exists obj1, Titled.heap st1 !! p = Some obj1 /\
                   Titled.frames obj1 = Some fs) /\
     Titled.StackFrames p st1 = Some (fs, st1)) /\
  (exists fs st1 st2,
     Prefixed.StackFrames q stP = Some (fs, st1) /\
     Prefixed.StackFrames q st1 = Some (fs, st2)) /\
  (forall chain v skip st0 p0 st0',
     Titled.New chain v st0 = Some (p0, st0') \/
     (Titled.captures (Titled.call_Wrap chain v skip) = true /\
      Titled.Wrap chain v skip st0 = Some (p0, st0')) ->
     exists obj,
       Titled.heap st0' !! p0 = Some obj /\
       Titled.frames obj =
         Some (Titled.resolve (Titled.symbols st0) (Titled.stack obj)) /\
       Titled.resolutions st0' =
         length (Titled.stack obj) + Titled.resolutions st0 /\
       Titled.StackFrames p0 st0' =
         Some (Titled.resolve (Titled.symbols st0) (Titled.stack obj), st0')).
Proof.
  intros HT HP. split; [| split].
  - rewrite (TitledFacts.StackFrames_run p objT stT HT).
    pose proof (lookup_lt_Some _ _ _ HT) as Hlt.
    destruct (Titled.frames objT) as [cached |] eqn:Hf.
    + exists cached, stT. repeat split.
      * exists objT. auto.
      * rewrite (TitledFacts.StackFrames_run p objT stT HT), Hf. reflexivity.
    + eexists _, _. split; [reflexivity |]. repeat split.
      * eexists. split; [apply list_lookup_insert_eq; exact Hlt | reflexivity].
      * erewrite TitledFacts.StackFrames_run
          by (apply list_lookup_insert_eq; exact Hlt).
        reflexivity.
  - rewrite (PrefixedFacts.StackFrames_on_copy q objP stP HP).
    destruct (Prefixed.frames objP) as [cached |] eqn:Hf.
    + exists cached, stP, stP. split; [reflexivity |].
      rewrite (PrefixedFacts.StackFrames_on_copy q objP stP HP), Hf. reflexivity.
    + eexists _, _, _. split; [reflexivity |].
      erewrite PrefixedFacts.StackFrames_on_copy by exact HP.
      rewrite Hf. reflexivity.
  - intros chain v skip st0 p0 st0' Hmade.
    assert (exists obj,
              Titled.heap st0' !! p0 = Some obj /\
              Titled.frames obj =
                Some (Titled.resolve (Titled.symbols st0) (Titled.stack obj)) /\
              Titled.resolutions st0' =
                length (Titled.stack obj) + Titled.resolutions st0)
      as (obj & Hp0 & Hfr & Hres).
    { destruct Hmade as [Hnew | [Hcap Hwrap]].
      - destruct (TitledFacts.New_cell chain v st0 p0 st0' Hnew)
          as (obj & msg & H1 & H2 & H3 & _).
        exists obj. auto.
      - exact (TitledFacts.Wrap_cell chain v skip st0 p0 st0' Hcap Hwrap). }
    exists obj. repeat split; try assumption.
    rewrite (TitledFacts.StackFrames_run p0 obj st0' Hp0), Hfr. reflexivity.
Qed.

(** C2, where the claim fails.  [New("oh dear")], called with two frames
    above it, resolves the two captured addresses itself and stores the
    frames in the new [Error]; the first call of [StackFrames()] on that
    wrapper returns them and leaves the state as it was: it resolves no
    address, although two were captured. *)
Lemma StackFrames_first_call_after_New_resolves_nothing :
  Titled.New TestIs113.caller_chain (of_string "oh dear")
    (Titled.initial TestIs113.symtab) = Some (0, TestIs113.after_New) /\
  (Titled.stack <$> Titled.heap TestIs113.after_New !! 0) =
    Some TestIs113.caller_chain /\
  Titled.resolutions TestIs113.after_New = 2 /\
  Titled.StackFrames 0 TestIs113.after_New =
    Some (Titled.resolve TestIs113.symtab TestIs113.caller_chain,
          TestIs113.after_New) /\
  ~ (exists fs st2,
       Titled.StackFrames 0 TestIs113.after_New = Some (fs, st2) /\
       Titled.resolutions st2 =
         length TestIs113.caller_chain + Titled.resolutions TestIs113.after_New).
Proof.
  split; [reflexivity |]. split; [reflexivity |].
  split; [reflexivity |]. split; [reflexivity |].
  intros (fs & st2 & Hrun & Hres).
  assert (Titled.StackFrames 0 TestIs113.after_New =
          Some (Titled.resolve TestIs113.symtab TestIs113.caller_chain,
                TestIs113.after_New)) as Hsame by reflexivity.
  rewrite Hsame in Hrun. injection Hrun as _ <-.
  simpl in Hres. lia.
Qed.

(** C3.  [Wrap] of a value that is already a wrapper returns that very
    pointer, for every [skip], and leaves the whole state as it was: no
    stack is captured and no cell is written. *)
Theorem Wrap_of_wrapper_is_identity (chain : list uintptr) (p : loc) (skip : Z)
    (stT : Titled.State) (stP : Prefixed.State) :
  Titled.Wrap chain (of_error (wrapper p)) skip stT = Some (p, stT) /\
  Prefixed.Wrap chain (of_error (wrapper p)) skip stP = Some (p, stP).
Proof. split; reflexivity. Qed.

(** C4.  In a heap whose wrappers were built around values that existed
    before them, [Is(a, b)] returns, equals [Is(b, a)], and is unchanged
    when [a] and [b] are replaced by [a'] and [b'], each wrapped any number
    of times; the [Is] of [error_backward.go] is the same function. *)
Theorem Is_symmetric_and_chain_transparent (st : Titled.State)
    (a b a' b' : error) :
  chain_wf Titled.Err (Titled.heap st) ->
  points_below (length (Titled.heap st)) a' ->
  points_below (length (Titled.heap st)) b' ->
  wraps Titled.Err (Titled.heap st) a a' ->
  wraps Titled.Err (Titled.heap st) b b' ->
  exists v,
    Titled.Is st a b = Some v /\ Titled.Is st b a = Some v /\
    Titled.Is st a' b' = Some v /\ Titled.Is st b' a' = Some v /\
    Titled.Is st a' b = Some v /\ Titled.Is st a b' = Some v /\
    Titled.Is_backward st a b = Some v /\ Titled.Is_backward st b a = Some v /\
    Titled.Is_backward st a' b' = Some v /\ Titled.Is_backward st b' a' = Some v.
Proof.
  intros Hwf Ha' Hb' Hwa Hwb.
  destruct (Is_gen_symmetric_transparent Titled.Err (Titled.heap st)
              a b a' b' Hwf Ha' Hb' Hwa Hwb) as (v & H1 & H2 & H3 & H4 & H5 & H6).
  exists v. unfold Titled.Is, Titled.Is_backward. repeat split; assumption.
Qed.

(** C5.  For every error [e] whose message is [m],
    [WrapPrefix(WrapPrefix(e, "B", 0), "A", 0).Error()] is ["A: B: "]
    followed by [m]: both calls succeed, the second returns the wrapper of
    the first, and each prepends its prefix, joined with [": "]. *)
Theorem WrapPrefix_twice_Error (st : Prefixed.State) (chain1 chain2 : list uintptr)
    (e : error) (m : string) :
  heap_wf Prefixed.err (Prefixed.heap st) ->
  (0 <= Prefixed.MaxStackDepth st)%Z ->
  Prefixed.error_Error (length (Prefixed.heap st)) (Prefixed.heap st) e = Some m ->
  exists p st1 st2,
    Prefixed.WrapPrefix chain1 (of_error e) "B" 0 st = Some (p, st1) /\
    Prefixed.WrapPrefix chain2 (of_error (wrapper p)) "A" 0 st1 = Some (p, st2) /\
    Prefixed.Error p st2 = Some ("A: B: " +:+ m, st2).
Proof.
  intros Hwf Hdepth Hm.
  destruct (is_wrapper e) eqn:Hw.
  - destruct e as [| p0 | | |]; try discriminate.
    rewrite PrefixedFacts.error_Error_unfold in Hm.
    destruct (length (Prefixed.heap st)) as [| n] eqn:Hlen; [discriminate |].
    destruct (Prefixed.heap st !! p0) as [obj0 |] eqn:Hp0; simpl in Hm;
      [| discriminate].
    destruct (Prefixed.error_Error n (Prefixed.heap st) (Prefixed.err obj0))
      as [m0 |] eqn:Hm0; simpl in Hm; [| discriminate].
    injection Hm as <-.
    pose proof (lookup_lt_Some _ _ _ Hp0) as Hlt0.
    pose (obj1 := Prefixed.set_prefix obj0
                    (if negb (String.eqb (Prefixed.prefix obj0) "")
                     then "B" +:+ ": " +:+ Prefixed.prefix obj0 else "B")).
    pose (st1 := Prefixed.set_heap st (<[p0 := obj1]> (Prefixed.heap st))).
    pose (obj2 := Prefixed.set_prefix obj1
                    (if negb (String.eqb (Prefixed.prefix obj1) "")
                     then "A" +:+ ": " +:+ Prefixed.prefix obj1 else "A")).
    pose (st2 := Prefixed.set_heap st1 (<[p0 := obj2]> (Prefixed.heap st1))).
    assert (Prefixed.heap st1 !! p0 = Some obj1) as Hp1
      by (apply list_lookup_insert_eq; exact Hlt0).
    exists p0, st1, st2. split; [| split].
    + apply PrefixedFacts.WrapPrefix_wrapper. exact Hp0.
    + apply PrefixedFacts.WrapPrefix_wrapper. exact Hp1.
    + assert (Prefixed.heap st2 = <[p0 := obj2]> (Prefixed.heap st)) as Hh2
        by (simpl; apply list_insert_insert_eq).
      assert (Prefixed.with_prefix obj2 m0 =
              "A: B: " +:+ Prefixed.with_prefix obj0 m0) as <-.
      { unfold Prefixed.with_prefix, obj2, obj1. simpl.
        destruct (String.eqb (Prefixed.prefix obj0) ""); reflexivity. }
      apply PrefixedFacts.Error_of_cell.
      * rewrite Hh2. apply list_lookup_insert_eq. exact Hlt0.
      * rewrite Hh2, length_insert, Hlen.
        change (Prefixed.err obj2) with (Prefixed.err obj0).
        rewrite PrefixedFacts.error_Error_insert;
          [| exact Hwf | exact (Hwf p0 obj0 Hp0)].
        apply (PrefixedFacts.error_Error_more (Prefixed.heap st) (Prefixed.heap st)
                 (fun _ _ H => H) n (S n)); [lia | exact Hm0].
  - assert (e <> nil) as Hnil
      by (intros ->; rewrite PrefixedFacts.error_Error_unfold in Hm;
          discriminate).
    pose (obj1 := {| Prefixed.err := e;
                     Prefixed.stack :=
                       runtime_Callers (2 + 0)
                         (Z.to_nat (Prefixed.MaxStackDepth st))
                         (pc_Callers :: pc_Wrap :: pc_WrapPrefix :: chain1);
                     Prefixed.frames := None; Prefixed.prefix := "B" |}).
    pose (st1 := Prefixed.set_heap st (Prefixed.heap st ++ [obj1])).
    pose (obj2 := Prefixed.set_prefix obj1 "A: B").
    pose (p := length (Prefixed.heap st)).
    pose (st2 := Prefixed.set_heap st1 (<[p := obj2]> (Prefixed.heap st1))).
    assert (Prefixed.heap st1 !! p = Some obj1) as Hp1
      by (apply list_lookup_middle; reflexivity).
    exists p, st1, st2. split; [| split].
    + apply PrefixedFacts.WrapPrefix_fresh; assumption.
    + apply (PrefixedFacts.WrapPrefix_wrapper chain2 p obj1 "A" 0 st1 Hp1).
    + change ("A: B: " +:+ m) with (Prefixed.with_prefix obj2 m).
      assert (p < length (Prefixed.heap st1)) as Hlt1
        by (eapply lookup_lt_Some; exact Hp1).
      apply PrefixedFacts.Error_of_cell.
      * apply list_lookup_insert_eq. exact Hlt1.
      * change (Prefixed.err obj2) with e.
        apply (PrefixedFacts.error_Error_more (Prefixed.heap st) _) with
          (n := length (Prefixed.heap st)); [| | exact Hm].
        -- intros q obj Hq. pose proof (lookup_lt_Some _ _ _ Hq) as Hltq.
           simpl. rewrite list_lookup_insert_ne by (unfold p; lia).
           rewrite lookup_app_l by exact Hltq. exact Hq.
        -- simpl. rewrite length_insert, length_app. lia.
Qed.

(** C6.  [New] of the [Error] struct calls [err.Error()] while it fills
    [Title], [Stack] and [Description].  On [shouldMatch] of [TestIs113],
    whose [Err] is nil, that call goes through a nil interface and panics:
    [New] returns nothing.  The [New] of [wrappedError] returns a wrapper
    for the same value. *)
Theorem New_panics_when_message_panics :
  Titled.error_Error 0 [] TestIs113.shouldMatch = None /\
  Titled.New TestIs113.caller_chain (of_error TestIs113.shouldMatch)
    (Titled.initial TestIs113.symtab) = None /\
  exists st,
    Prefixed.New TestIs113.caller_chain (of_error TestIs113.shouldMatch)
      (Prefixed.initial TestIs113.symtab) = Some (0, st) /\
    (Prefixed.err <$> Prefixed.heap st !! 0) = Some TestIs113.shouldMatch.
Proof.
  split; [reflexivity |]. split; [reflexivity |].
  eexists. split; reflexivity.
Qed.

(** C7.  [ErrorStack()] is [TypeName() + " " + Error() + "\n"] followed by
    the trace text ([Stack()], resp. [StackTrace()]): when [TypeName()] and
    [Error()] return [t] and [msg], the trace method returns some [s] and
    [ErrorStack()] returns exactly [t + " " + msg + "\n" + s] -- also where
    the trace is computed, and its frames stored, before the message is
    asked for -- and it panics exactly when one of the three does.  The
    trace of a wrapper that captured at least one address is not empty. *)
Theorem ErrorStack_is_type_message_trace (stP : Prefixed.State) (q : loc)
    (objP : Prefixed.wrappedError) (stT : Titled.State) (p : loc)
    (objT : Titled.Error) :
  Prefixed.heap stP !! q = Some objP ->
  (forall fs, Prefixed.frames objP = Some fs ->
     length fs = length (Prefixed.stack objP)) ->
  Titled.heap stT !! p = Some objT ->
  (forall fs, Titled.frames objT = Some fs ->
     length fs = length (Titled.stack objT)) ->
  (forall t msg,
     Prefixed.TypeName q stP = Some (t, stP) ->
     Prefixed.Error q stP = Some (msg, stP) ->
     exists s st',
       Prefixed.Stack q stP = Some (s, st') /\
       Prefixed.ErrorStack q stP =
         Some (t +:+ " " +:+ msg +:+ newline +:+ s, st') /\
       (1 <= length (Prefixed.stack objP) -> s <> "")) /\
  Prefixed.ErrorStack q stP =
    (t ← Prefixed.TypeName q; msg ← Prefixed.Error q; s ← Prefixed.Stack q;
     mret (t +:+ " " +:+ msg +:+ newline +:+ s)) stP /\
  (forall t msg,
     Titled.TypeName p stT = Some (t, stT) ->
     Titled.Error_Error p stT = Some (msg, stT) ->
     exists s st',
       Titled.StackTrace p stT = Some (s, st') /\
       Titled.ErrorStack p stT =
         Some (t +:+ " " +:+ msg +:+ newline +:+ s, st') /\
       (1 <= length (Titled.stack objT) -> s <> "")) /\
  Titled.ErrorStack p stT =
    (t ← Titled.TypeName p; s ← Titled.StackTrace p; msg ← Titled.Error_Error p;
     mret (t +:+ " " +:+ msg +:+ newline +:+ s)) stT.
Proof.
  intros HP HfP HT HfT.
  assert (forall (fsP : list StackFrame),
            (Prefixed.frames objP = Some fsP \/
             (Prefixed.frames objP = None /\
              fsP = map (NewStackFrame_of (Prefixed.symbols stP))
                      (Prefixed.stack objP))) ->
            1 <= length (Prefixed.stack objP) -> write_frames fsP <> "") as HneP.
  { intros fsP Hfs Hlen. apply write_frames_nonempty.
    destruct Hfs as [Hfs | [_ ->]].
    - specialize (HfP fsP Hfs). destruct fsP; simpl in *; [lia | discriminate].
    - destruct (Prefixed.stack objP); simpl in *; [lia | discriminate]. }
  assert (forall (fsT : list StackFrame),
            (Titled.frames objT = Some fsT \/
             (Titled.frames objT = None /\
              fsT = Titled.resolve (Titled.symbols stT) (Titled.stack objT))) ->
            1 <= length (Titled.stack objT) -> write_frames fsT <> "") as HneT.
  { intros fsT Hfs Hlen. apply write_frames_nonempty.
    destruct Hfs as [Hfs | [_ ->]].
    - specialize (HfT fsT Hfs). destruct fsT; simpl in *; [lia | discriminate].
    - unfold Titled.resolve.
      destruct (Titled.stack objT); simpl in *; [lia | discriminate]. }
  assert (Prefixed.ErrorStack q stP =
          (t ← Prefixed.TypeName q; msg ← Prefixed.Error q; s ← Prefixed.Stack q;
           mret (t +:+ " " +:+ msg +:+ newline +:+ s)) stP) as HeqP.
  { cbv [Prefixed.ErrorStack Prefixed.TypeName Prefixed.Error Prefixed.Stack
         Prefixed.call Prefixed.deref mbind M_bind].
    rewrite HP.
    cbv [Prefixed.wrappedError_ErrorStack Prefixed.wrappedError_TypeName or_panic
         mbind M_bind].
    destruct (typeName_of "wrappedError" (Prefixed.err objP)); [| reflexivity].
    cbn beta iota. rewrite HP. unfold Prefixed.wrappedError_Error.
    destruct (Prefixed.error_Error _ _ _); [| reflexivity].
    cbn beta iota. rewrite HP. reflexivity. }
  split; [| split; [exact HeqP | split; [| reflexivity]]].
  - intros t msg Ht Hmsg. rewrite HeqP.
    cbv [mbind M_bind]. rewrite Ht, Hmsg.
    rewrite (PrefixedFacts.Stack_run q objP stP HP).
    destruct (Prefixed.frames objP) as [fs |] eqn:Hf; eexists _, _;
      (split; [reflexivity |]); (split; [reflexivity |]); apply HneP; auto.
  - intros t msg Ht Hmsg. unfold Titled.ErrorStack.
    cbv [mbind M_bind]. rewrite Ht.
    rewrite (TitledFacts.StackTrace_run p objT stT HT).
    unfold Titled.Error_Error, Titled.iface_Error in Hmsg.
    destruct (Titled.error_Error (length (Titled.heap stT)) (Titled.heap stT)
                (wrapper p)) as [msg' |] eqn:Hm; [| discriminate].
    injection Hmsg as ->.
    destruct (Titled.frames objT) as [fs |] eqn:Hf; eexists _, _;
      (split; [reflexivity |]).
    + split; [| apply HneT; auto].
      unfold Titled.errorStack, Titled.iface_Error. cbv [mbind M_bind].
      rewrite Hm. reflexivity.
    + split; [| apply HneT; auto].
      unfold Titled.errorStack, Titled.iface_Error. cbv [mbind M_bind].
      cbn [Titled.heap Titled.set_heap Titled.resolved_more].
      rewrite length_insert.
      rewrite (TitledFacts.error_Error_set_frames _ p objT _ HT), Hm.
      reflexivity.
Qed.

(** C8.  [TypeName()] is ["panic"] when the cause is an [uncaughtPanic],
    whatever it holds; otherwise it is the dynamic type of the cause as
    [reflect] prints it: the type name qualified by its package, with a star
    in front for a pointer type. *)
Theorem TypeName_panic_or_qualified (stT : Titled.State) (p : loc)
    (objT : Titled.Error) (stP : Prefixed.State) (q : loc)
    (objP : Prefixed.wrappedError) :
  Titled.heap stT !! p = Some objT ->
  Prefixed.heap stP !! q = Some objP ->
  (forall message, Titled.Err objT = uncaughtPanic message ->
     Titled.TypeName p stT = Some ("panic", stT)) /\
  (forall t, is_uncaughtPanic (Titled.Err objT) = false ->
     TypeOf "Error" (Titled.Err objT) = Some t ->
     Titled.TypeName p stT =
     Some ((if is_pointer t then "*" else "") +:+ pkg t +:+ "." +:+ type_name t,
           stT)) /\
  (forall message, Prefixed.err objP = uncaughtPanic message ->
     Prefixed.TypeName q stP = Some ("panic", stP)) /\
  (forall t, is_uncaughtPanic (Prefixed.err objP) = false ->
     TypeOf "wrappedError" (Prefixed.err objP) = Some t ->
     Prefixed.TypeName q stP =
     Some ((if is_pointer t then "*" else "") +:+ pkg t +:+ "." +:+ type_name t,
           stP)).
Proof.
  intros HT HP. repeat split.
  - intros message He.
    cbv [Titled.TypeName Titled.deref Titled.typeName mbind M_bind or_panic typeName_of].
    rewrite HT, He. reflexivity.
  - intros t Hno Ht.
    cbv [Titled.TypeName Titled.deref Titled.typeName mbind M_bind or_panic typeName_of].
    rewrite HT, Hno, Ht. reflexivity.
  - intros message He.
    cbv [Prefixed.TypeName Prefixed.call Prefixed.deref
         Prefixed.wrappedError_TypeName mbind M_bind or_panic typeName_of].
    rewrite HP, He. reflexivity.
  - intros t Hno Ht.
    cbv [Prefixed.TypeName Prefixed.call Prefixed.deref
         Prefixed.wrappedError_TypeName mbind M_bind or_panic typeName_of].
    rewrite HP, Hno, Ht. reflexivity.
Qed.

(** C9.  A wrapper made by a constructor that captures a stack ([New],
    [Custom], [Errorf], and [Wrap] of a value that is no wrapper) holds at
    most [MaxStackDepth] addresses, read when it is made (50 at start);
    whatever calls follow, the addresses stay the same, and the frames
    [StackFrames()] returns are the addresses resolved one by one, in order:
    as many frames as addresses. *)
Theorem stack_bounded_frames_aligned (st : Titled.State) (c : Titled.call)
    (m : M Titled.State loc) (p : loc) (st1 : Titled.State)
    (cs : list Titled.call) (st2 : Titled.State) :
  Titled.captures c = true -> Titled.construct c = Some m ->
  m st = Some (p, st1) -> Titled.run_all cs st1 = Some st2 ->
  Titled.MaxStackDepth (Titled.initial (Titled.symbols st)) = 50%Z /\
  exists obj obj2 fs st3,
    Titled.heap st1 !! p = Some obj /\
    (Z.of_nat (length (Titled.stack obj)) <= Titled.MaxStackDepth st)%Z /\
    Titled.heap st2 !! p = Some obj2 /\
    Titled.stack obj2 = Titled.stack obj /\
    Titled.StackFrames p st2 = Some (fs, st3) /\
    length fs = length (Titled.stack obj) /\
    (forall i pc, Titled.stack obj !! i = Some pc ->
       fs !! i = Some (NewStackFrame_of (Titled.symbols st) pc)) /\
    (forall fs', Titled.frames obj2 = Some fs' -> fs' = fs).
Proof.
  intros Hcap Hcon Hrun Hcalls. split; [reflexivity |].
  destruct (TitledFacts.construct_fresh c m st p st1 Hcap Hcon Hrun)
    as (obj & -> & Hheap & Hsym & _ & Hlen & Hfr & _).
  assert (Titled.heap st1 !! length (Titled.heap st) = Some obj) as Hp
    by (rewrite Hheap; apply list_lookup_middle; reflexivity).
  destruct (TitledFacts.run_all_grows cs st1 st2 Hcalls) as [Hsym2 Hcells].
  destruct (Hcells _ obj Hp) as (obj2 & Hp2 & _ & Hstack & Hfr2).
  rewrite Hsym in Hfr2.
  assert (forall fs', Titled.frames obj2 = Some fs' ->
            fs' = Titled.resolve (Titled.symbols st) (Titled.stack obj)) as Hres.
  { intros fs' Hfs'. destruct Hfr2 as [Hfr2 | Hfr2]; [| congruence].
    destruct Hfr as [Hfr | Hfr]; congruence. }
  assert (exists st3,
            Titled.StackFrames (length (Titled.heap st)) st2 =
            Some (Titled.resolve (Titled.symbols st) (Titled.stack obj), st3))
    as [st3 Hst3].
  { rewrite (TitledFacts.StackFrames_run _ obj2 st2 Hp2).
    destruct (Titled.frames obj2) as [fs' |] eqn:Hf; eexists.
    - rewrite (Hres fs' eq_refl). reflexivity.
    - rewrite Hsym2, Hsym, Hstack. reflexivity. }
  exists obj, obj2, (Titled.resolve (Titled.symbols st) (Titled.stack obj)), st3.
  repeat split; try assumption.
  - unfold Titled.resolve. apply length_map.
  - intros i pc Hi. unfold Titled.resolve.
    rewrite list_lookup_fmap, Hi. reflexivity.
Qed.

(** C10.  [Is(nil, nil)] is [true]; for a wrapper whose chain of causes
    ends in a value [c] that is not nil, [Is(w, nil)] and [Is(nil, w)] are
    [false]. *)
Theorem Is_nil (st : Titled.State) (p : loc) (c : error) :
  root Titled.Err (Titled.heap st) (wrapper p) = Some c -> c <> nil ->
  is_wrapper c = false /\
  Titled.Is st nil nil = Some true /\
  Titled.Is st (wrapper p) nil = Some false /\
  Titled.Is st nil (wrapper p) = Some false /\
  Titled.Is_backward st nil nil = Some true /\
  Titled.Is_backward st (wrapper p) nil = Some false /\
  Titled.Is_backward st nil (wrapper p) = Some false.
Proof.
  intros Hc Hnil.
  destruct (Is_gen_against_nil Titled.Err (Titled.heap st) p c Hc Hnil) as [H1 H2].
  unfold Titled.Is, Titled.Is_backward.
  repeat split; try assumption; try apply Is_gen_nil_nil.
  eapply root_fuel_is_plain. exact Hc.
Qed.

End Spec.

(* ================================================================= *)
(** ** Further properties of the code *)

Module More.
Import Common ChainFacts IsFacts Heaps MoreFacts.



(** X3.  The message law of [WrapPrefix].  For an error [e] whose message
    is [m], [WrapPrefix(e, prefix, skip).Error()] is [prefix + ": " + m] --
    except when [prefix] is empty and [e] carries no prefix yet (it is no
    wrapper, or a wrapper whose prefix is empty): then the message stays
    [m].  An empty [prefix] given to a wrapper that has a prefix already
    does put [": "] in front of its message. *)
Theorem WrapPrefix_Error_law (st : Prefixed.State) (chain : list uintptr)
    (e : error) (pre : string) (skip : Z) (m : string) :
  heap_wf Prefixed.err (Prefixed.heap st) ->
  Prefixed.error_Error (length (Prefixed.heap st)) (Prefixed.heap st) e = Some m ->
  is_wrapper e = true \/ (0 <= Prefixed.MaxStackDepth st)%Z ->
  exists p st',
    Prefixed.WrapPrefix chain (of_error e) pre skip st = Some (p, st') /\
    Prefixed.Error p st' =
      Some ((if String.eqb pre "" && String.eqb (PrefixedClients.prefix_of st e) ""
             then m else pre +:+ ": " +:+ m), st').
Proof.
  intros Hwf Hm Hcase.
  destruct (is_wrapper e) eqn:Hw.
  - destruct e as [| p0 | | |]; try discriminate.
    rewrite PrefixedFacts.error_Error_unfold in Hm.
    destruct (length (Prefixed.heap st)) as [| n] eqn:Hlen; [discriminate |].
    destruct (Prefixed.heap st !! p0) as [obj0 |] eqn:Hp0; simpl in Hm;
      [| discriminate].
    destruct (Prefixed.error_Error n (Prefixed.heap st) (Prefixed.err obj0))
      as [m0 |] eqn:Hm0; simpl in Hm; [| discriminate].
    injection Hm as <-.
    pose proof (lookup_lt_Some _ _ _ Hp0) as Hlt0.
    eexists p0, _.
    split; [apply PrefixedFacts.WrapPrefix_wrapper; exact Hp0 |].
    cbn [PrefixedClients.prefix_of]. rewrite Hp0.
    rewrite <- PrefixedMore.with_prefix_set_prefix.
    apply PrefixedFacts.Error_of_cell.
    + simpl. apply list_lookup_insert_eq. exact Hlt0.
    + cbn [Prefixed.heap Prefixed.set_heap Prefixed.err Prefixed.set_prefix].
      rewrite length_insert, Hlen.
      rewrite PrefixedFacts.error_Error_insert;
        [| exact Hwf | exact (Hwf p0 obj0 Hp0)].
      apply (PrefixedFacts.error_Error_more (Prefixed.heap st) (Prefixed.heap st)
               (fun _ _ H => H) n (S n)); [lia | exact Hm0].
  - destruct Hcase as [Hcase | Hd]; [discriminate |].
    assert (e <> nil) as Hnil
      by (intros ->; rewrite PrefixedFacts.error_Error_unfold in Hm;
          discriminate).
    assert (PrefixedClients.prefix_of st e = "") as ->
      by (destruct e; try discriminate; reflexivity).
    rewrite (PrefixedFacts.WrapPrefix_fresh chain e pre skip st Hnil Hw Hd).
    eexists _, _. split; [reflexivity |].
    erewrite PrefixedMore.Error_fresh; [| reflexivity | exact Hm].
    unfold Prefixed.with_prefix. cbn [Prefixed.prefix].
    rewrite andb_true_r. destruct (String.eqb pre ""); reflexivity.
Qed.

(** X4.  [WrapPrefix] of a value that is a wrapper already returns that very
    pointer and rewrites the wrapper in place, whatever [skip] and
    [MaxStackDepth] are: only the prefix of that one cell changes -- to
    [prefix], or to [prefix + ": " + old] when there was one -- so everyone
    who holds the wrapper sees the new message.  Cause, addresses and frames
    stay, no cell is added, no stack is captured, and every verdict of
    [Is] is what it was. *)
Theorem WrapPrefix_of_wrapper_rewrites_in_place (st : Prefixed.State)
    (chain : list uintptr) (p : loc) (obj : Prefixed.wrappedError)
    (pre : string) (skip : Z) :
  Prefixed.heap st !! p = Some obj ->
  exists obj' st',
    Prefixed.WrapPrefix chain (of_error (wrapper p)) pre skip st = Some (p, st') /\
    Prefixed.heap st' = <[p := obj']> (Prefixed.heap st) /\
    length (Prefixed.heap st') = length (Prefixed.heap st) /\
    Prefixed.err obj' = Prefixed.err obj /\
    Prefixed.stack obj' = Prefixed.stack obj /\
    Prefixed.frames obj' = Prefixed.frames obj /\
    Prefixed.prefix obj' =
      (if String.eqb (Prefixed.prefix obj) "" then pre
       else pre +:+ ": " +:+ Prefixed.prefix obj) /\
    Prefixed.MaxStackDepth st' = Prefixed.MaxStackDepth st /\
    Prefixed.resolutions st' = Prefixed.resolutions st /\
    (forall q, q <> p -> Prefixed.heap st' !! q = Prefixed.heap st !! q) /\
    Prefixed.Underlying p st' = Some (Prefixed.err obj, st') /\
    (forall a b, Prefixed.Is st' a b = Prefixed.Is st a b).
Proof.
  intros Hp. pose proof (lookup_lt_Some _ _ _ Hp) as Hlt.
  eexists _, _.
  split; [apply PrefixedFacts.WrapPrefix_wrapper; exact Hp |].
  cbn [Prefixed.heap Prefixed.set_heap Prefixed.err Prefixed.stack Prefixed.frames
       Prefixed.prefix Prefixed.set_prefix Prefixed.MaxStackDepth
       Prefixed.resolutions].
  split; [reflexivity |]. split; [apply length_insert |].
  split; [reflexivity |]. split; [reflexivity |]. split; [reflexivity |].
  split; [destruct (String.eqb (Prefixed.prefix obj) ""); reflexivity |].
  split; [reflexivity |]. split; [reflexivity |].
  split; [intros q Hq; apply list_lookup_insert_ne; congruence |].
  split.
  - erewrite PrefixedMore.Underlying_of_cell
      by (simpl; apply list_lookup_insert_eq; exact Hlt).
    reflexivity.
  - intros a b. unfold Prefixed.Is. simpl.
    eapply Is_gen_insert; [exact Hp | reflexivity].
Qed.



(** X7.  [make([]uintptr, MaxStackDepth)] panics when [MaxStackDepth] is
    negative, so then every constructor call that captures a stack panics:
    [New], [Custom], [Errorf], and [Wrap] of a value that is no wrapper on
    the [Error] struct; [New], [Errorf], and [Wrap] and [WrapPrefix] of a
    value that is no wrapper on [wrappedError]. *)
Theorem negative_MaxStackDepth_panics (stT : Titled.State) (c : Titled.call)
    (m : M Titled.State loc) (stP : Prefixed.State) (chain : list uintptr)
    (w v : value) (pre text : string) (skip : Z) :
  (Titled.MaxStackDepth stT < 0)%Z ->
  Titled.captures c = true -> Titled.construct c = Some m ->
  (Prefixed.MaxStackDepth stP < 0)%Z ->
  (forall q, v <> of_error (wrapper q)) ->
  m stT = None /\
  Prefixed.New chain w stP = None /\
  Prefixed.Errorf chain text stP = None /\
  Prefixed.Wrap chain v skip stP = None /\
  Prefixed.WrapPrefix chain v pre skip stP = None.
Proof.
  intros HdT Hcap Hcon HdP Hv. split.
  - destruct (TitledMore.normalize_total (Titled.call_value c) stT)
      as (err & st1 & Hn & _).
    rewrite (TitledMore.construct_eq c m stT err st1 Hcap Hcon Hn).
    destruct (Z.ltb_spec (Titled.MaxStackDepth stT) 0); [reflexivity | lia].
  - split; [apply PrefixedMore.New_negative; exact HdP |].
    split; [apply PrefixedMore.Errorf_negative; exact HdP |].
    split; [apply PrefixedMore.Wrap_negative; assumption |].
    apply PrefixedMore.WrapPrefix_negative; assumption.
Qed.




(** X11.  What the constructors of the [Error] struct store.  The wrapper
    a capturing constructor returns holds, in [Stack], the very text
    [ErrorStack()] returns when it is called on the new wrapper -- type
    name, a space, the message, a newline, and the frames of the captured
    addresses; [New] puts the message of the cause in [Title] and
    [Description], [Custom] puts its arguments there and stores no frames,
    [Wrap] and [Errorf] leave both empty.  [Error()] and [TypeName()] of
    the new wrapper return. *)
Theorem constructed_fields (c : Titled.call) (m : M Titled.State loc)
    (st : Titled.State) (p : loc) (st' : Titled.State) :
  Titled.captures c = true -> Titled.construct c = Some m ->
  m st = Some (p, st') ->
  exists obj msg t st'',
    Titled.heap st' !! p = Some obj /\
    made_from (Titled.next_errorString st) (Titled.call_value c) (Titled.Err obj) /\
    Titled.Error_Error p st' = Some (msg, st') /\
    Titled.TypeName p st' = Some (t, st') /\
    Titled.Stack obj =
      t +:+ " " +:+ msg +:+ newline +:+
      write_frames (Titled.resolve (Titled.symbols st) (Titled.stack obj)) /\
    Titled.ErrorStack p st' = Some (Titled.Stack obj, st'') /\
    match c with
    | Titled.call_New _ _ =>
        Titled.Title obj = msg /\ Titled.Description obj = msg /\
        Titled.frames obj =
          Some (Titled.resolve (Titled.symbols st) (Titled.stack obj))
    | Titled.call_Custom _ _ desc title =>
        Titled.Title obj = title /\ Titled.Description obj = desc /\
        Titled.frames obj = None
    | _ =>
        Titled.Title obj = "" /\ Titled.Description obj = "" /\
        Titled.frames obj =
          Some (Titled.resolve (Titled.symbols st) (Titled.stack obj))
    end.
Proof.
  intros Hcap Hcon Hrun.
  destruct (TitledMore.construct_result c m st p st' Hcap Hcon Hrun)
    as (obj & msg & t & _ & _ & Hp & Hs & _ & _ & Hmade & _ & _ & Ht & Hobj
        & He & Hty).
  pose proof (f_equal Titled.stack Hobj) as Hstack.
  rewrite TitledMore.built_by_stack in Hstack.
  pose proof (f_equal Titled.Stack Hobj) as HStack.
  rewrite TitledMore.built_by_Stack, <- Hstack in HStack.
  pose proof (f_equal Titled.frames Hobj) as Hframes.
  rewrite TitledMore.built_by_frames, <- Hstack in Hframes.
  pose proof (f_equal Titled.Title Hobj) as HTitle.
  pose proof (f_equal Titled.Description Hobj) as HDesc.
  assert (exists st'', Titled.ErrorStack p st' = Some (Titled.Stack obj, st''))
    as [st'' HES].
  { apply TitledFacts.iface_Error_inv in He as [_ He].
    rewrite (TitledMore.ErrorStack_run p obj st' t msg Hp Ht He).
    rewrite (TitledFacts.StackTrace_run p obj st' Hp).
    rewrite Hframes, Hs, HStack. destruct c; eexists; reflexivity. }
  exists obj, msg, t, st''.
  split; [exact Hp |]. split; [exact Hmade |]. split; [exact He |].
  split; [exact Hty |]. split; [exact HStack |]. split; [exact HES |].
  destruct c; try discriminate; auto.
Qed.

(** X12.  No call ever changes an exported field of an existing [Error]:
    whatever sequence of constructor and method calls follows, the cell
    keeps its [Err], [Stack], [Description] and [Title] and its captured
    addresses; the only field a call writes is [frames]. *)
Theorem exported_fields_never_change (st : Titled.State) (p : loc)
    (obj : Titled.Error) (cs : list Titled.call) (st' : Titled.State) :
  Titled.heap st !! p = Some obj -> Titled.run_all cs st = Some st' ->
  exists obj',
    Titled.heap st' !! p = Some obj' /\
    Titled.Err obj' = Titled.Err obj /\ Titled.Stack obj' = Titled.Stack obj /\
    Titled.Description obj' = Titled.Description obj /\
    Titled.Title obj' = Titled.Title obj /\ Titled.stack obj' = Titled.stack obj /\
    length (Titled.heap st) <= length (Titled.heap st').
Proof.
  intros Hp Hrun.
  pose proof (TitledMore.run_all_kept cs st st' Hrun) as Hkept.
  destruct (Hkept p obj Hp) as (fs & Hp').
  eexists. split; [exact Hp' |]. repeat split.
  apply (extends_length Titled.Err), TitledMore.kept_extends, Hkept.
Qed.

(** X13.  A verdict of [Is] is for good: whatever calls follow --
    constructors, methods, [WrapPrefix] rewriting a prefix, [StackFrames]
    storing frames, an assignment to [MaxStackDepth] -- [Is(a, b)] on two
    values of the process answers what it answered before.  Both
    renditions, and [error_backward.go]. *)
Theorem Is_verdicts_survive_later_calls (stT : Titled.State)
    (cs : list Titled.call) (stT' : Titled.State) (a b : error)
    (stP : Prefixed.State) (cs' : list PrefixedClients.call)
    (stP' : Prefixed.State) (a' b' : error) :
  chain_wf Titled.Err (Titled.heap stT) ->
  points_below (length (Titled.heap stT)) a ->
  points_below (length (Titled.heap stT)) b ->
  Titled.run_all cs stT = Some stT' ->
  chain_wf Prefixed.err (Prefixed.heap stP) ->
  points_below (length (Prefixed.heap stP)) a' ->
  points_below (length (Prefixed.heap stP)) b' ->
  PrefixedClients.run_all cs' stP = Some stP' ->
  Titled.Is stT' a b = Titled.Is stT a b /\
  Titled.Is_backward stT' a b = Titled.Is_backward stT a b /\
  Prefixed.Is stP' a' b' = Prefixed.Is stP a' b'.
Proof.
  intros HwfT Ha Hb HrunT HwfP Ha' Hb' HrunP.
  assert (extends Titled.Err (Titled.heap stT) (Titled.heap stT')) as HextT
    by (apply TitledMore.kept_extends, (TitledMore.run_all_kept cs), HrunT).
  pose proof (PrefixedMore.run_all_extends cs' stP stP' HrunP) as HextP.
  unfold Titled.Is, Titled.Is_backward, Prefixed.Is.
  split; [apply Is_gen_extends; assumption |].
  split; apply Is_gen_extends; assumption.
Qed.

(** X14.  In every state a client can reach with the [Error] struct, no
    method panics on a wrapper that exists: its cause is not nil, is older
    than the wrapper and has a message, so [Error()], [TypeName()], [StackFrames()], [StackTrace()] and
    [ErrorStack()] all return; [StackTrace()] is the text of the frames
    [StackFrames()] returns, and [ErrorStack()] is type name, space,
    message, newline and that text. *)
Theorem methods_of_Error_never_panic (syms : uintptr -> option symbol)
    (st : Titled.State) (p : loc) :
  Titled.reachable syms st -> p < length (Titled.heap st) ->
  exists obj msg t fs st1,
    Titled.heap st !! p = Some obj /\ Titled.Err obj <> nil /\
    within p (Titled.Err obj) /\
    Titled.Error_Error p st = Some (msg, st) /\
    Titled.TypeName p st = Some (t, st) /\
    Titled.StackFrames p st = Some (fs, st1) /\
    fs = Titled.resolve syms (Titled.stack obj) /\
    Titled.StackTrace p st = Some (write_frames fs, st1) /\
    Titled.ErrorStack p st =
      Some (t +:+ " " +:+ msg +:+ newline +:+ write_frames fs, st1).
Proof.
  intros Hreach Hp.
  destruct (TitledMore.reachable_messages syms st Hreach) as [Hmsg Hnil].
  destruct (TitledFacts.reachable_cells_resolved syms st Hreach) as [Hsym Hres].
  destruct (lookup_lt_is_Some_2 _ _ Hp) as [obj Hobj].
  destruct (Hmsg p Hp) as [msg Hm].
  destruct (TitledFacts.typeName_of_defined "Error" _ (Hnil p obj Hobj)) as [t Ht].
  assert (exists st1,
            Titled.StackFrames p st =
              Some (Titled.resolve syms (Titled.stack obj), st1) /\
            Titled.StackTrace p st =
              Some (write_frames (Titled.resolve syms (Titled.stack obj)), st1))
    as (st1 & HSF & HST).
  { rewrite (TitledFacts.StackFrames_run p obj st Hobj).
    rewrite (TitledFacts.StackTrace_run p obj st Hobj).
    destruct (Titled.frames obj) as [fs |] eqn:Hf.
    - rewrite (proj1 (Hres p obj Hobj) fs Hf). eexists. split; reflexivity.
    - rewrite Hsym. eexists. split; reflexivity. }
  exists obj, msg, t, (Titled.resolve syms (Titled.stack obj)), st1.
  split; [exact Hobj |]. split; [exact (Hnil p obj Hobj) |].
  split; [exact (TitledFacts.reachable_heap_wf syms st Hreach p obj Hobj) |].
  split; [unfold Titled.Error_Error, Titled.iface_Error; rewrite Hm; reflexivity |].
  split; [rewrite (TitledMore.TypeName_of_struct p obj st Hobj), Ht; reflexivity |].
  split; [exact HSF |]. split; [reflexivity |]. split; [exact HST |].
  rewrite (TitledMore.ErrorStack_run p obj st t msg Hobj Ht Hm), HST.
  reflexivity.
Qed.

(** X15.  On the [Error] struct, wrapping never changes the message:
    [Error()] of a wrapper is [Error()] of its innermost cause, the value
    at the end of the chain of [Err] fields, however many wrappers lie in
    between -- it returns the same text, and panics when that call does. *)
Theorem Error_is_the_message_of_the_innermost_cause (st : Titled.State)
    (p : loc) (r : error) :
  heap_wf Titled.Err (Titled.heap st) ->
  root Titled.Err (Titled.heap st) (wrapper p) = Some r ->
  is_wrapper r = false /\
  Titled.Error_Error p st = Titled.iface_Error r st.
Proof.
  intros Hwf Hr.
  split; [eapply root_fuel_is_plain; exact Hr |].
  assert (p < length (Titled.heap st)) as Hp.
  { destruct (Titled.heap st !! p) eqn:E; [eapply lookup_lt_Some; exact E |].
    unfold root in Hr. destruct (length (Titled.heap st)); [discriminate |].
    simpl in Hr. rewrite E in Hr. discriminate. }
  unfold Titled.Error_Error, Titled.iface_Error.
  rewrite (TitledMore.error_Error_root (Titled.heap st) Hwf _ (wrapper p) r Hp Hr).
  reflexivity.
Qed.

(** X16.  On [wrappedError] no call ever stores frames.  In every state a
    client can reach, every wrapper has [frames == nil] and a cause that is
    not nil and older than the wrapper; so [Underlying()], [TypeName()],
    [StackFrames()] and [Stack()] never panic, and every call of
    [StackFrames()] or [Stack()] resolves all the addresses of the wrapper
    anew. *)
Theorem wrappedError_never_stores_frames (syms : uintptr -> option symbol)
    (st : Prefixed.State) (p : loc) (obj : Prefixed.wrappedError) :
  PrefixedClients.reachable syms st -> Prefixed.heap st !! p = Some obj ->
  Prefixed.frames obj = None /\ Prefixed.err obj <> nil /\
  within p (Prefixed.err obj) /\
  Prefixed.Underlying p st = Some (Prefixed.err obj, st) /\
  (exists t, Prefixed.TypeName p st = Some (t, st)) /\
  exists st1 st2,
    Prefixed.StackFrames p st =
      Some (map (NewStackFrame_of syms) (Prefixed.stack obj), st1) /\
    Prefixed.Stack p st =
      Some (write_frames (map (NewStackFrame_of syms) (Prefixed.stack obj)), st1) /\
    Prefixed.heap st1 = Prefixed.heap st /\
    Prefixed.resolutions st1 =
      length (Prefixed.stack obj) + Prefixed.resolutions st /\
    Prefixed.StackFrames p st1 =
      Some (map (NewStackFrame_of syms) (Prefixed.stack obj), st2) /\
    Prefixed.resolutions st2 =
      length (Prefixed.stack obj) + Prefixed.resolutions st1.
Proof.
  intros Hreach Hp.
  destruct (PrefixedMore.reachable_inv syms st Hreach) as (Hsym & Hwf & Hall).
  destruct (Hall p obj Hp) as [Hnil Hfr].
  split; [exact Hfr |]. split; [exact Hnil |]. split; [exact (Hwf p obj Hp) |].
  split; [apply PrefixedMore.Underlying_of_cell; exact Hp |].
  split.
  - destruct (TitledFacts.typeName_of_defined "wrappedError" _ Hnil) as [t Ht].
    exists t. rewrite (PrefixedMore.TypeName_of_cell p obj st Hp), Ht. reflexivity.
  - rewrite (PrefixedFacts.StackFrames_on_copy p obj st Hp).
    rewrite (PrefixedFacts.Stack_run p obj st Hp). rewrite Hfr, Hsym.
    eexists _, _. split; [reflexivity |]. split; [reflexivity |].
    split; [reflexivity |]. split; [reflexivity |].
    erewrite PrefixedFacts.StackFrames_on_copy by exact Hp.
    rewrite Hfr. cbn [Prefixed.symbols Prefixed.resolved_more]. rewrite Hsym.
    split; reflexivity.
Qed.

(** X17.  The trace text is the text of the frames.  On the [Error] struct
    [StackTrace()] returns [stack(frames)] for exactly the frames
    [StackFrames()] returns and leaves the process in the same state as
    that call -- its second assignment to [err.frames] stores what
    [StackFrames()] has stored already -- and afterwards both methods
    return the same again without changing anything.  On [wrappedError],
    [Stack()] is the text of the frames of [StackFrames()] likewise. *)
Theorem trace_is_the_text_of_the_frames (stT : Titled.State) (p : loc)
    (objT : Titled.Error) (stP : Prefixed.State) (q : loc)
    (objP : Prefixed.wrappedError) :
  Titled.heap stT !! p = Some objT ->
  Prefixed.heap stP !! q = Some objP ->
  (exists fs st1,
     Titled.StackFrames p stT = Some (fs, st1) /\
     Titled.StackTrace p stT = Some (Titled.stack_of_frames fs, st1) /\
     Titled.StackFrames p st1 = Some (fs, st1) /\
     Titled.StackTrace p st1 = Some (write_frames fs, st1)) /\
  (exists fs st1,
     Prefixed.StackFrames q stP = Some (fs, st1) /\
     Prefixed.Stack q stP = Some (write_frames fs, st1)).
Proof.
  intros HT HP. split.
  - pose proof (lookup_lt_Some _ _ _ HT) as Hlt.
    rewrite (TitledFacts.StackFrames_run p objT stT HT).
    rewrite (TitledFacts.StackTrace_run p objT stT HT).
    destruct (Titled.frames objT) as [fs |] eqn:Hf.
    + exists fs, stT. split; [reflexivity |]. split; [reflexivity |].
      rewrite (TitledFacts.StackFrames_run p objT stT HT).
      rewrite (TitledFacts.StackTrace_run p objT stT HT), Hf.
      split; reflexivity.
    + eexists _, _. split; [reflexivity |]. split; [reflexivity |].
      erewrite TitledFacts.StackFrames_run
        by (apply list_lookup_insert_eq; exact Hlt).
      erewrite TitledFacts.StackTrace_run
        by (apply list_lookup_insert_eq; exact Hlt).
      split; reflexivity.
  - rewrite (PrefixedFacts.StackFrames_on_copy q objP stP HP).
    rewrite (PrefixedFacts.Stack_run q objP stP HP).
    destruct (Prefixed.frames objP); eexists _, _; split; reflexivity.
Qed.


(** X19.  The custom equality of the test type.  [errorWithCustomIs.Is]
    accepts exactly the targets that are an [errorWithCustomIs] with the
    same [Key], whatever their [Err]: it is symmetric, it accepts every
    target that is [==] to the receiver, and it also accepts targets that
    are not. *)
Theorem errorWithCustomIs_Is_compares_keys (k : string) (e : error)
    (target : error) :
  Is_hook (errorWithCustomIs k e) = Some (errorWithCustomIs_Is k) /\
  (errorWithCustomIs_Is k target = true <->
   exists e', target = errorWithCustomIs k e') /\
  (forall k' e', errorWithCustomIs_Is k (errorWithCustomIs k' e') =
                 errorWithCustomIs_Is k' (errorWithCustomIs k e)) /\
  (iface_eq (errorWithCustomIs k e) target = true ->
   errorWithCustomIs_Is k target = true) /\
  (e <> nil ->
   errorWithCustomIs_Is k (errorWithCustomIs k nil) = true /\
   iface_eq (errorWithCustomIs k e) (errorWithCustomIs k nil) = false).
Proof.
  split; [reflexivity |]. split; [| split; [| split]].
  - split.
    + destruct target as [| | | k' e' |]; simpl; try discriminate.
      intros H. apply String.eqb_eq in H. subst. eauto.
    + intros [e' ->]. simpl. apply String.eqb_refl.
  - intros k' e'. simpl. apply String.eqb_sym.
  - destruct target as [| | | k' e' |]; simpl; try discriminate.
    intros H. apply andb_prop in H as [H _]. rewrite String.eqb_sym. exact H.
  - intros Hne. split; [simpl; apply String.eqb_refl |].
    simpl. rewrite String.eqb_refl. simpl. apply iface_eq_nil_r. exact Hne.
Qed.


(** X21.  No call ever changes the cause, the captured addresses or the
    frames of an existing [wrappedError], and no call takes a prefix away:
    after any sequence of calls the cell is still there with the same
    [err], [stack] and [frames], and its prefix is the old one with,
    possibly, more text in front ([WrapPrefix] is the only writer). *)
Theorem wrappedError_keeps_cause_and_stack (st : Prefixed.State) (p : loc)
    (obj : Prefixed.wrappedError) (cs : list PrefixedClients.call)
    (st' : Prefixed.State) :
  Prefixed.heap st !! p = Some obj ->
  PrefixedClients.run_all cs st = Some st' ->
  exists obj' s,
    Prefixed.heap st' !! p = Some obj' /\
    Prefixed.err obj' = Prefixed.err obj /\
    Prefixed.stack obj' = Prefixed.stack obj /\
    Prefixed.frames obj' = Prefixed.frames obj /\
    Prefixed.prefix obj' = s +:+ Prefixed.prefix obj /\
    length (Prefixed.heap st) <= length (Prefixed.heap st').
Proof.
  intros Hp Hrun.
  destruct (PrefixedMore.run_all_prefix_kept cs st st' Hrun p obj Hp) as (s & Hp').
  eexists _, s. split; [exact Hp' |]. repeat split.
  apply (extends_length Prefixed.err), (PrefixedMore.run_all_extends cs), Hrun.
Qed.



(** X24.  The [Stack] field is never stale.  In every state a client can
    reach with the [Error] struct, [ErrorStack()] on an existing wrapper
    returns exactly the text its [Stack] field has held since the wrapper
    was made -- whatever was wrapped, resolved or assigned to
    [MaxStackDepth] in between. *)
Theorem Stack_field_is_what_ErrorStack_returns
    (syms : uintptr -> option symbol) (st : Titled.State) (p : loc)
    (obj : Titled.Error) :
  Titled.reachable syms st -> Titled.heap st !! p = Some obj ->
  exists st1, Titled.ErrorStack p st = Some (Titled.Stack obj, st1).
Proof.
  intros Hreach Hp.
  destruct (TitledMore.reachable_stacks syms st Hreach p obj Hp)
    as (t & msg & Ht & Hm & HS).
  destruct (TitledFacts.reachable_cells_resolved syms st Hreach) as [Hsym Hres].
  rewrite (TitledMore.ErrorStack_run p obj st t msg Hp Ht Hm).
  rewrite (TitledFacts.StackTrace_run p obj st Hp), HS.
  destruct (Titled.frames obj) as [fs |] eqn:Hf.
  - rewrite (proj1 (Hres p obj Hp) fs Hf), Hsym. eexists. reflexivity.
  - eexists. reflexivity.
Qed.

(** X25.  [WrapPrefix] on a wrapper that others hold.  When a wrapper [p]
    was built around the wrapper [q], giving [q] a prefix with
    [WrapPrefix] changes the message of [p] as well, although [p] itself
    is not touched: [q] is rewritten in place, and [Error()] of [p] reads
    it anew.  Before the call [p.Error()] is the prefix of [p] put before
    the message [m] of [q]; afterwards it is the prefix of [p] put before
    the new message of [q]. *)
Theorem WrapPrefix_reaches_outer_wrappers (st : Prefixed.State)
    (chain : list uintptr) (p : loc) (obj : Prefixed.wrappedError) (q : loc)
    (pre : string) (skip : Z) (m : string) :
  heap_wf Prefixed.err (Prefixed.heap st) ->
  Prefixed.heap st !! p = Some obj -> Prefixed.err obj = wrapper q ->
  Prefixed.Error q st = Some (m, st) ->
  exists st',
    Prefixed.WrapPrefix chain (of_error (wrapper q)) pre skip st = Some (q, st') /\
    Prefixed.heap st' !! p = Some obj /\
    Prefixed.Error p st = Some (Prefixed.with_prefix obj m, st) /\
    Prefixed.Error p st' =
      Some (Prefixed.with_prefix obj
              (if String.eqb pre "" &&
                  String.eqb (PrefixedClients.prefix_of st (wrapper q)) ""
               then m else pre +:+ ": " +:+ m), st').
Proof.
  intros Hwf Hp He Hm.
  pose proof (Hwf p obj Hp) as Hqp. rewrite He in Hqp. simpl in Hqp.
  pose proof (lookup_lt_Some _ _ _ Hp) as Hlt.
  cbv [Prefixed.Error Prefixed.call Prefixed.deref Prefixed.wrappedError_Error
       mbind M_bind] in Hm.
  destruct (Prefixed.heap st !! q) as [objq |] eqn:Hq; [| discriminate].
  destruct (Prefixed.error_Error (length (Prefixed.heap st)) (Prefixed.heap st)
              (Prefixed.err objq)) as [m0 |] eqn:Hm0; [| discriminate].
  injection Hm as <-.
  destruct (length (Prefixed.heap st)) as [| n] eqn:Hlen; [lia |].
  assert (Prefixed.error_Error n (Prefixed.heap st) (Prefixed.err objq) = Some m0)
    as Hm0'.
  { rewrite <- Hm0.
    apply (PrefixedFacts.error_Error_enough (Prefixed.heap st) Hwf n (S n)
             (Prefixed.err objq) q); [exact (Hwf q objq Hq) | lia | lia]. }
  eexists.
  split; [apply PrefixedFacts.WrapPrefix_wrapper; exact Hq |].
  cbn [Prefixed.heap Prefixed.set_heap].
  split; [rewrite list_lookup_insert_ne by lia; exact Hp |].
  split.
  - apply PrefixedFacts.Error_of_cell; [exact Hp |].
    rewrite He, Hlen, PrefixedFacts.error_Error_unfold, Hq.
    cbn [mbind option_bind]. rewrite Hm0'. reflexivity.
  - cbn [PrefixedClients.prefix_of]. rewrite Hq.
    rewrite <- PrefixedMore.with_prefix_set_prefix.
    apply PrefixedFacts.Error_of_cell.
    + cbn [Prefixed.heap Prefixed.set_heap].
      rewrite list_lookup_insert_ne by lia. exact Hp.
    + cbn [Prefixed.heap Prefixed.set_heap]. rewrite length_insert, Hlen, He.
      rewrite PrefixedFacts.error_Error_unfold.
      rewrite list_lookup_insert_eq by (eapply lookup_lt_Some; exact Hq).
      cbn [mbind option_bind Prefixed.err Prefixed.set_prefix].
      rewrite PrefixedFacts.error_Error_insert;
        [| exact Hwf | exact (Hwf q objq Hq)].
      rewrite Hm0'. reflexivity.
Qed.

End More.

(* ================================================================= *)
(** ** The properties at work on small processes *)

Module Examples.
Import Common ChainFacts TestIs113.

Lemma titled_process_chain_wf : chain_wf Titled.Err (Titled.heap titled_process).
Proof.
  intros [| [| [| p]]] obj H; vm_compute in H; try discriminate;
    injection H as <-; simpl; lia.
Defined.

Lemma WrapPrefix_twice_Error_witness :
  heap_wf Prefixed.err (Prefixed.heap (Prefixed.initial symtab)) /\
  (0 <= Prefixed.MaxStackDepth (Prefixed.initial symtab))%Z /\
  Prefixed.error_Error (length (Prefixed.heap (Prefixed.initial symtab)))
    (Prefixed.heap (Prefixed.initial symtab)) io_EOF = Some "EOF" /\
  exists p st1 st2,
    Prefixed.WrapPrefix [100%N] (of_error io_EOF) "B" 0 (Prefixed.initial symtab)
      = Some (p, st1) /\
    Prefixed.WrapPrefix [101%N] (of_error (wrapper p)) "A" 0 st1 = Some (p, st2) /\
    Prefixed.Error p st2 = Some ("A: B: " +:+ "EOF", st2).
Proof.
  assert (heap_wf Prefixed.err (Prefixed.heap (Prefixed.initial symtab))) as H1
    by (intros p obj H; destruct p; discriminate H).
  assert (0 <= Prefixed.MaxStackDepth (Prefixed.initial symtab))%Z as H2
    by (simpl; lia).
  split; [exact H1 |]. split; [exact H2 |]. split; [reflexivity |].
  exact (Spec.WrapPrefix_twice_Error (Prefixed.initial symtab) [100%N] [101%N]
           io_EOF "EOF" H1 H2 eq_refl).
Defined.

Lemma Is_symmetric_and_chain_transparent_witness :
  chain_wf Titled.Err (Titled.heap titled_process) /\
  points_below (length (Titled.heap titled_process)) (wrapper 2) /\
  points_below (length (Titled.heap titled_process)) (wrapper 0) /\
  wraps Titled.Err (Titled.heap titled_process) io_EOF (wrapper 2) /\
  wraps Titled.Err (Titled.heap titled_process) io_EOF (wrapper 0) /\
  exists v,
    Titled.Is titled_process io_EOF io_EOF = Some v /\
    Titled.Is titled_process io_EOF io_EOF = Some v /\
    Titled.Is titled_process (wrapper 2) (wrapper 0) = Some v /\
    Titled.Is titled_process (wrapper 0) (wrapper 2) = Some v /\
    Titled.Is titled_process (wrapper 2) io_EOF = Some v /\
    Titled.Is titled_process io_EOF (wrapper 0) = Some v /\
    Titled.Is_backward titled_process io_EOF io_EOF = Some v /\
    Titled.Is_backward titled_process io_EOF io_EOF = Some v /\
    Titled.Is_backward titled_process (wrapper 2) (wrapper 0) = Some v /\
    Titled.Is_backward titled_process (wrapper 0) (wrapper 2) = Some v.
Proof.
  assert (points_below (length (Titled.heap titled_process)) (wrapper 2)) as H2
    by (simpl; lia).
  assert (points_below (length (Titled.heap titled_process)) (wrapper 0)) as H0
    by (simpl; lia).
  assert (wraps Titled.Err (Titled.heap titled_process) io_EOF (wrapper 0)) as W0
    by (eapply wraps_more; [reflexivity | apply wraps_none]).
  assert (wraps Titled.Err (Titled.heap titled_process) io_EOF (wrapper 2)) as W2
    by (eapply wraps_more; [reflexivity | exact W0]).
  split; [exact titled_process_chain_wf |].
  split; [exact H2 |]. split; [exact H0 |].
  split; [exact W2 |]. split; [exact W0 |].
  exact (Spec.Is_symmetric_and_chain_transparent titled_process
           io_EOF io_EOF (wrapper 2) (wrapper 0)
           titled_process_chain_wf H2 H0 W2 W0).
Defined.

Lemma Is_nil_witness :
  root Titled.Err (Titled.heap titled_process) (wrapper 2) = Some io_EOF /\
  io_EOF <> nil /\
  is_wrapper io_EOF = false /\
  Titled.Is titled_process nil nil = Some true /\
  Titled.Is titled_process (wrapper 2) nil = Some false /\
  Titled.Is titled_process nil (wrapper 2) = Some false /\
  Titled.Is_backward titled_process nil nil = Some true /\
  Titled.Is_backward titled_process (wrapper 2) nil = Some false /\
  Titled.Is_backward titled_process nil (wrapper 2) = Some false.
Proof.
  assert (io_EOF <> nil) as Hne by discriminate.
  split; [reflexivity |]. split; [exact Hne |].
  exact (Spec.Is_nil titled_process 2 io_EOF eq_refl Hne).
Defined.

Lemma TypeName_panic_or_qualified_witness :
  Titled.heap titled_process !! 0 = Some (titled_cell 0) /\
  Prefixed.heap prefixed_process !! 0 = Some (prefixed_cell 0) /\
  (forall message, Titled.Err (titled_cell 0) = uncaughtPanic message ->
     Titled.TypeName 0 titled_process = Some ("panic", titled_process)) /\
  (forall t, is_uncaughtPanic (Titled.Err (titled_cell 0)) = false ->
     TypeOf "Error" (Titled.Err (titled_cell 0)) = Some t ->
     Titled.TypeName 0 titled_process =
     Some ((if is_pointer t then "*" else "") +:+ pkg t +:+ "." +:+ type_name t,
           titled_process)) /\
  (forall message, Prefixed.err (prefixed_cell 0) = uncaughtPanic message ->
     Prefixed.TypeName 0 prefixed_process = Some ("panic", prefixed_process)) /\
  (forall t, is_uncaughtPanic (Prefixed.err (prefixed_cell 0)) = false ->
     TypeOf "wrappedError" (Prefixed.err (prefixed_cell 0)) = Some t ->
     Prefixed.TypeName 0 prefixed_process =
     Some ((if is_pointer t then "*" else "") +:+ pkg t +:+ "." +:+ type_name t,
           prefixed_process)).
Proof.
  split; [reflexivity |]. split; [reflexivity |].
  exact (Spec.TypeName_panic_or_qualified titled_process 0 (titled_cell 0)
           prefixed_process 0 (prefixed_cell 0) eq_refl eq_refl).
Defined.

Lemma prefixed_cell_0_frames (fs : list StackFrame) :
  Prefixed.frames (prefixed_cell 0) = Some fs ->
  length fs = length (Prefixed.stack (prefixed_cell 0)).
Proof. intros H. discriminate H. Defined.

Lemma titled_cell_1_frames (fs : list StackFrame) :
  Titled.frames (titled_cell 1) = Some fs ->
  length fs = length (Titled.stack (titled_cell 1)).
Proof. intros H. discriminate H. Defined.

Lemma ErrorStack_is_type_message_trace_witness :
  Prefixed.heap prefixed_process !! 0 = Some (prefixed_cell 0) /\
  Titled.heap titled_process !! 1 = Some (titled_cell 1) /\
  (forall t msg,
     Prefixed.TypeName 0 prefixed_process = Some (t, prefixed_process) ->
     Prefixed.Error 0 prefixed_process = Some (msg, prefixed_process) ->
     exists s st',
       Prefixed.Stack 0 prefixed_process = Some (s, st') /\
       Prefixed.ErrorStack 0 prefixed_process =
         Some (t +:+ " " +:+ msg +:+ newline +:+ s, st') /\
       (1 <= length (Prefixed.stack (prefixed_cell 0)) -> s <> "")) /\
  Prefixed.ErrorStack 0 prefixed_process =
    (t ← Prefixed.TypeName 0; msg ← Prefixed.Error 0; s ← Prefixed.Stack 0;
     mret (t +:+ " " +:+ msg +:+ newline +:+ s)) prefixed_process /\
  (forall t msg,
     Titled.TypeName 1 titled_process = Some (t, titled_process) ->
     Titled.Error_Error 1 titled_process = Some (msg, titled_process) ->
     exists s st',
       Titled.StackTrace 1 titled_process = Some (s, st') /\
       Titled.ErrorStack 1 titled_process =
         Some (t +:+ " " +:+ msg +:+ newline +:+ s, st') /\
       (1 <= length (Titled.stack (titled_cell 1)) -> s <> "")) /\
  Titled.ErrorStack 1 titled_process =
    (t ← Titled.TypeName 1; s ← Titled.StackTrace 1; msg ← Titled.Error_Error 1;
     mret (t +:+ " " +:+ msg +:+ newline +:+ s)) titled_process.
Proof.
  split; [reflexivity |]. split; [reflexivity |].
  exact (Spec.ErrorStack_is_type_message_trace prefixed_process 0 (prefixed_cell 0)
           titled_process 1 (titled_cell 1)
           eq_refl prefixed_cell_0_frames eq_refl titled_cell_1_frames).
Defined.

Lemma stack_bounded_frames_aligned_witness :
  Titled.captures (Titled.call_New caller_chain (of_string "oh dear")) = true /\
  Titled.New caller_chain (of_string "oh dear") (Titled.initial symtab)
    = Some (0, after_New) /\
  Titled.run_all later_calls after_New = Some after_later_calls /\
  Titled.MaxStackDepth (Titled.initial (Titled.symbols (Titled.initial symtab)))
    = 50%Z /\
  exists obj obj2 fs st3,
    Titled.heap after_New !! 0 = Some obj /\
    (Z.of_nat (length (Titled.stack obj))
       <= Titled.MaxStackDepth (Titled.initial symtab))%Z /\
    Titled.heap after_later_calls !! 0 = Some obj2 /\
    Titled.stack obj2 = Titled.stack obj /\
    Titled.StackFrames 0 after_later_calls = Some (fs, st3) /\
    length fs = length (Titled.stack obj) /\
    (forall i pc, Titled.stack obj !! i = Some pc ->
       fs !! i = Some (NewStackFrame_of (Titled.symbols (Titled.initial symtab)) pc)) /\
    (forall fs', Titled.frames obj2 = Some fs' -> fs' = fs).
Proof.
  split; [reflexivity |]. split; [reflexivity |]. split; [reflexivity |].
  exact (Spec.stack_bounded_frames_aligned (Titled.initial symtab)
           (Titled.call_New caller_chain (of_string "oh dear"))
           (Titled.New caller_chain (of_string "oh dear")) 0 after_New
           later_calls after_later_calls eq_refl eq_refl eq_refl eq_refl).
Defined.

Lemma StackFrames_memoized_witness :
  Titled.heap titled_process !! 1 = Some (titled_cell 1) /\
  Prefixed.heap prefixed_process !! 0 = Some (prefixed_cell 0) /\
  (exists fs st1,
     Titled.StackFrames 1 titled_process = Some (fs, st1) /\
     fs = match Titled.frames (titled_cell 1) with
          | Some cached => cached
          | None => Titled.resolve (Titled.symbols titled_process)
                      (Titled.stack (titled_cell 1))
          end /\
     Titled.resolutions st1 =
       match Titled.frames (titled_cell 1) with
       | Some _ => 0
       | None => length (Titled.stack (titled_cell 1))
       end + Titled.resolutions titled_process /\
     (exists obj1, Titled.heap st1 !! 1 = Some obj1 /\
                   Titled.frames obj1 = Some fs) /\
     Titled.StackFrames 1 st1 = Some (fs, st1)) /\
  (exists fs st1 st2,
     Prefixed.StackFrames 0 prefixed_process = Some (fs, st1) /\
     Prefixed.StackFrames 0 st1 = Some (fs, st2)) /\
  (forall chain v skip st0 p0 st0',
     Titled.New chain v st0 = Some (p0, st0') \/
     (Titled.captures (Titled.call_Wrap chain v skip) = true /\
      Titled.Wrap chain v skip st0 = Some (p0, st0')) ->
     exists obj,
       Titled.heap st0' !! p0 = Some obj /\
       Titled.frames obj =
         Some (Titled.resolve (Titled.symbols st0) (Titled.stack obj)) /\
       Titled.resolutions st0' =
         length (Titled.stack obj) + Titled.resolutions st0 /\
       Titled.StackFrames p0 st0' =
         Some (Titled.resolve (Titled.symbols st0) (Titled.stack obj), st0')).
Proof.
  split; [reflexivity |]. split; [reflexivity |].
  exact (Spec.StackFrames_memoized titled_process 1 (titled_cell 1)
           prefixed_process 0 (prefixed_cell 0) eq_refl eq_refl).
Defined.

End Examples.

(* ================================================================= *)
(** ** The further properties at work on small processes *)

Module MoreExamples.
Import Common ChainFacts TestIs113 Scenarios.


Lemma prefixed_process_wf : chain_wf Prefixed.err (Prefixed.heap prefixed_process).
Proof.
  intros [| [| [| p]]] obj H; vm_compute in H; try discriminate;
    injection H as <-; simpl; lia.
Defined.



Lemma titled_process_heap_wf : heap_wf Titled.Err (Titled.heap titled_process).
Proof.
  intros [| [| [| p]]] obj H; vm_compute in H; try discriminate;
    injection H as <-; simpl; try exact I; lia.
Defined.

Lemma prefixed_process_heap_wf :
  heap_wf Prefixed.err (Prefixed.heap prefixed_process).
Proof.
  intros [| [| p]] obj H; vm_compute in H; try discriminate;
    injection H as <-; simpl; exact I.
Defined.

Lemma after_New_wf : chain_wf Titled.Err (Titled.heap after_New).
Proof.
  intros [| p] obj H; vm_compute in H; try discriminate;
    injection H as <-; simpl; exact I.
Defined.

Lemma after_New_reachable : Titled.reachable symtab after_New.
Proof.
  apply (Titled.reachable_call symtab (Titled.initial symtab)
           (Titled.call_New caller_chain (of_string "oh dear")) after_New);
    [apply Titled.reachable_initial | exact I | reflexivity].
Defined.

Lemma prefixed_after_New_reachable :
  PrefixedClients.reachable symtab prefixed_after_New.
Proof.
  apply (PrefixedClients.reachable_call symtab (Prefixed.initial symtab)
           (PrefixedClients.call_New caller_chain (of_error io_EOF))
           prefixed_after_New);
    [apply PrefixedClients.reachable_initial | exact I | reflexivity].
Defined.


Lemma not_a_wrapper_EOF (q : loc) : of_error io_EOF <> of_error (wrapper q).
Proof. discriminate. Defined.


Lemma WrapPrefix_Error_law_witness :
  heap_wf Prefixed.err (Prefixed.heap prefixed_process) /\
  Prefixed.error_Error (length (Prefixed.heap prefixed_process))
    (Prefixed.heap prefixed_process) (wrapper 0) = Some "ctx: boom" /\
  (is_wrapper (wrapper 0) = true \/
   (0 <= Prefixed.MaxStackDepth prefixed_process)%Z) /\
  exists p st',
    Prefixed.WrapPrefix caller_chain (of_error (wrapper 0)) "" 0 prefixed_process
      = Some (p, st') /\
    Prefixed.Error p st' =
      Some ((if String.eqb "" "" &&
                String.eqb (PrefixedClients.prefix_of prefixed_process (wrapper 0)) ""
             then "ctx: boom" else "" +:+ ": " +:+ "ctx: boom"), st').
Proof.
  assert (is_wrapper (wrapper 0) = true \/
          (0 <= Prefixed.MaxStackDepth prefixed_process)%Z) as H3
    by (left; reflexivity).
  split; [exact prefixed_process_heap_wf |]. split; [reflexivity |].
  split; [exact H3 |].
  exact (More.WrapPrefix_Error_law prefixed_process caller_chain (wrapper 0) "" 0
           "ctx: boom" prefixed_process_heap_wf eq_refl H3).
Defined.

Lemma WrapPrefix_of_wrapper_rewrites_in_place_witness :
  Prefixed.heap prefixed_process !! 0 = Some (prefixed_cell 0) /\
  exists obj' st',
    Prefixed.WrapPrefix caller_chain (of_error (wrapper 0)) "outer" 7
      prefixed_process = Some (0, st') /\
    Prefixed.heap st' = <[0 := obj']> (Prefixed.heap prefixed_process) /\
    length (Prefixed.heap st') = length (Prefixed.heap prefixed_process) /\
    Prefixed.err obj' = Prefixed.err (prefixed_cell 0) /\
    Prefixed.stack obj' = Prefixed.stack (prefixed_cell 0) /\
    Prefixed.frames obj' = Prefixed.frames (prefixed_cell 0) /\
    Prefixed.prefix obj' =
      (if String.eqb (Prefixed.prefix (prefixed_cell 0)) "" then "outer"
       else "outer" +:+ ": " +:+ Prefixed.prefix (prefixed_cell 0)) /\
    Prefixed.MaxStackDepth st' = Prefixed.MaxStackDepth prefixed_process /\
    Prefixed.resolutions st' = Prefixed.resolutions prefixed_process /\
    (forall q, q <> 0 ->
       Prefixed.heap st' !! q = Prefixed.heap prefixed_process !! q) /\
    Prefixed.Underlying 0 st' = Some (Prefixed.err (prefixed_cell 0), st') /\
    (forall a b, Prefixed.Is st' a b = Prefixed.Is prefixed_process a b).
Proof.
  split; [reflexivity |].
  exact (More.WrapPrefix_of_wrapper_rewrites_in_place prefixed_process caller_chain
           0 (prefixed_cell 0) "outer" 7 eq_refl).
Defined.





Lemma negative_MaxStackDepth_panics_witness :
  (Titled.MaxStackDepth titled_negative < 0)%Z /\
  Titled.captures (Titled.call_Custom caller_chain (of_string "disk full")
                     "desc" "title") = true /\
  Titled.construct (Titled.call_Custom caller_chain (of_string "disk full")
                      "desc" "title")
    = Some (Titled.Custom caller_chain (of_string "disk full") "desc" "title") /\
  (Prefixed.MaxStackDepth prefixed_negative < 0)%Z /\
  (forall q, of_error io_EOF <> of_error (wrapper q)) /\
  Titled.Custom caller_chain (of_string "disk full") "desc" "title" titled_negative
    = None /\
  Prefixed.New caller_chain (of_error (wrapper 0)) prefixed_negative = None /\
  Prefixed.Errorf caller_chain "oh dear" prefixed_negative = None /\
  Prefixed.Wrap caller_chain (of_error io_EOF) 0 prefixed_negative = None /\
  Prefixed.WrapPrefix caller_chain (of_error io_EOF) "ctx" 0 prefixed_negative = None.
Proof.
  assert (Titled.MaxStackDepth titled_negative < 0)%Z as HT by (simpl; lia).
  assert (Prefixed.MaxStackDepth prefixed_negative < 0)%Z as HP by (simpl; lia).
  split; [exact HT |]. split; [reflexivity |]. split; [reflexivity |].
  split; [exact HP |]. split; [exact not_a_wrapper_EOF |].
  exact (More.negative_MaxStackDepth_panics titled_negative
           (Titled.call_Custom caller_chain (of_string "disk full") "desc" "title")
           (Titled.Custom caller_chain (of_string "disk full") "desc" "title")
           prefixed_negative caller_chain (of_error (wrapper 0)) (of_error io_EOF)
           "ctx" "oh dear" 0 HT eq_refl eq_refl HP not_a_wrapper_EOF).
Defined.






Lemma constructed_fields_witness :
  Titled.captures (Titled.call_New caller_chain (of_string "oh dear")) = true /\
  Titled.construct (Titled.call_New caller_chain (of_string "oh dear"))
    = Some (Titled.New caller_chain (of_string "oh dear")) /\
  Titled.New caller_chain (of_string "oh dear") (Titled.initial symtab)
    = Some (0, after_New) /\
  exists obj msg t st'',
    Titled.heap after_New !! 0 = Some obj /\
    made_from (Titled.next_errorString (Titled.initial symtab))
      (Titled.call_value (Titled.call_New caller_chain (of_string "oh dear")))
      (Titled.Err obj) /\
    Titled.Error_Error 0 after_New = Some (msg, after_New) /\
    Titled.TypeName 0 after_New = Some (t, after_New) /\
    Titled.Stack obj =
      t +:+ " " +:+ msg +:+ newline +:+
      write_frames (Titled.resolve (Titled.symbols (Titled.initial symtab))
                      (Titled.stack obj)) /\
    Titled.ErrorStack 0 after_New = Some (Titled.Stack obj, st'') /\
    (Titled.Title obj = msg /\ Titled.Description obj = msg /\
     Titled.frames obj =
       Some (Titled.resolve (Titled.symbols (Titled.initial symtab))
               (Titled.stack obj))).
Proof.
  split; [reflexivity |]. split; [reflexivity |]. split; [reflexivity |].
  exact (More.constructed_fields
           (Titled.call_New caller_chain (of_string "oh dear"))
           (Titled.New caller_chain (of_string "oh dear"))
           (Titled.initial symtab) 0 after_New eq_refl eq_refl eq_refl).
Defined.

Lemma exported_fields_never_change_witness :
  Titled.heap after_New !! 0 = Some after_New_cell /\
  Titled.run_all later_calls after_New = Some after_later_calls /\
  exists obj',
    Titled.heap after_later_calls !! 0 = Some obj' /\
    Titled.Err obj' = Titled.Err after_New_cell /\
    Titled.Stack obj' = Titled.Stack after_New_cell /\
    Titled.Description obj' = Titled.Description after_New_cell /\
    Titled.Title obj' = Titled.Title after_New_cell /\
    Titled.stack obj' = Titled.stack after_New_cell /\
    length (Titled.heap after_New) <= length (Titled.heap after_later_calls).
Proof.
  split; [reflexivity |]. split; [reflexivity |].
  exact (More.exported_fields_never_change after_New 0 after_New_cell later_calls
           after_later_calls eq_refl eq_refl).
Defined.

Lemma Is_verdicts_survive_later_calls_witness :
  chain_wf Titled.Err (Titled.heap after_New) /\
  points_below (length (Titled.heap after_New)) (wrapper 0) /\
  points_below (length (Titled.heap after_New)) (errorString 1 "oh dear") /\
  Titled.run_all later_calls after_New = Some after_later_calls /\
  chain_wf Prefixed.err (Prefixed.heap prefixed_process) /\
  points_below (length (Prefixed.heap prefixed_process)) (wrapper 1) /\
  points_below (length (Prefixed.heap prefixed_process)) io_EOF /\
  PrefixedClients.run_all prefixed_later_calls prefixed_process
    = Some prefixed_after_later_calls /\
  Titled.Is after_later_calls (wrapper 0) (errorString 1 "oh dear")
    = Titled.Is after_New (wrapper 0) (errorString 1 "oh dear") /\
  Titled.Is_backward after_later_calls (wrapper 0) (errorString 1 "oh dear")
    = Titled.Is_backward after_New (wrapper 0) (errorString 1 "oh dear") /\
  Prefixed.Is prefixed_after_later_calls (wrapper 1) io_EOF
    = Prefixed.Is prefixed_process (wrapper 1) io_EOF.
Proof.
  assert (points_below (length (Titled.heap after_New)) (wrapper 0)) as H0
    by (simpl; lia).
  assert (points_below (length (Titled.heap after_New)) (errorString 1 "oh dear"))
    as H1 by exact I.
  assert (points_below (length (Prefixed.heap prefixed_process)) (wrapper 1)) as P1
    by (simpl; lia).
  assert (points_below (length (Prefixed.heap prefixed_process)) io_EOF) as P2
    by exact I.
  split; [exact after_New_wf |]. split; [exact H0 |]. split; [exact H1 |].
  split; [reflexivity |].
  split; [exact prefixed_process_wf |]. split; [exact P1 |]. split; [exact P2 |].
  split; [reflexivity |].
  exact (More.Is_verdicts_survive_later_calls after_New later_calls
           after_later_calls (wrapper 0) (errorString 1 "oh dear")
           prefixed_process prefixed_later_calls prefixed_after_later_calls
           (wrapper 1) io_EOF
           after_New_wf H0 H1 eq_refl prefixed_process_wf P1 P2 eq_refl).
Defined.

Lemma methods_of_Error_never_panic_witness :
  Titled.reachable symtab after_New /\ 0 < length (Titled.heap after_New) /\
  exists obj msg t fs st1,
    Titled.heap after_New !! 0 = Some obj /\ Titled.Err obj <> nil /\
    within 0 (Titled.Err obj) /\
    Titled.Error_Error 0 after_New = Some (msg, after_New) /\
    Titled.TypeName 0 after_New = Some (t, after_New) /\
    Titled.StackFrames 0 after_New = Some (fs, st1) /\
    fs = Titled.resolve symtab (Titled.stack obj) /\
    Titled.StackTrace 0 after_New = Some (write_frames fs, st1) /\
    Titled.ErrorStack 0 after_New =
      Some (t +:+ " " +:+ msg +:+ newline +:+ write_frames fs, st1).
Proof.
  assert (0 < length (Titled.heap after_New)) as H by (simpl; lia).
  split; [exact after_New_reachable |]. split; [exact H |].
  exact (More.methods_of_Error_never_panic symtab after_New 0
           after_New_reachable H).
Defined.

Lemma Error_is_the_message_of_the_innermost_cause_witness :
  heap_wf Titled.Err (Titled.heap titled_process) /\
  root Titled.Err (Titled.heap titled_process) (wrapper 2) = Some io_EOF /\
  is_wrapper io_EOF = false /\
  Titled.Error_Error 2 titled_process = Titled.iface_Error io_EOF titled_process.
Proof.
  split; [exact titled_process_heap_wf |]. split; [reflexivity |].
  exact (More.Error_is_the_message_of_the_innermost_cause titled_process 2 io_EOF
           titled_process_heap_wf eq_refl).
Defined.

Lemma wrappedError_never_stores_frames_witness :
  PrefixedClients.reachable symtab prefixed_after_New /\
  Prefixed.heap prefixed_after_New !! 0 = Some prefixed_after_New_cell /\
  Prefixed.frames prefixed_after_New_cell = None /\
  Prefixed.err prefixed_after_New_cell <> nil /\
  within 0 (Prefixed.err prefixed_after_New_cell) /\
  Prefixed.Underlying 0 prefixed_after_New
    = Some (Prefixed.err prefixed_after_New_cell, prefixed_after_New) /\
  (exists t, Prefixed.TypeName 0 prefixed_after_New = Some (t, prefixed_after_New)) /\
  exists st1 st2,
    Prefixed.StackFrames 0 prefixed_after_New =
      Some (map (NewStackFrame_of symtab) (Prefixed.stack prefixed_after_New_cell),
            st1) /\
    Prefixed.Stack 0 prefixed_after_New =
      Some (write_frames
              (map (NewStackFrame_of symtab)
                 (Prefixed.stack prefixed_after_New_cell)), st1) /\
    Prefixed.heap st1 = Prefixed.heap prefixed_after_New /\
    Prefixed.resolutions st1 =
      length (Prefixed.stack prefixed_after_New_cell)
      + Prefixed.resolutions prefixed_after_New /\
    Prefixed.StackFrames 0 st1 =
      Some (map (NewStackFrame_of symtab) (Prefixed.stack prefixed_after_New_cell),
            st2) /\
    Prefixed.resolutions st2 =
      length (Prefixed.stack prefixed_after_New_cell) + Prefixed.resolutions st1.
Proof.
  split; [exact prefixed_after_New_reachable |]. split; [reflexivity |].
  exact (More.wrappedError_never_stores_frames symtab prefixed_after_New 0
           prefixed_after_New_cell prefixed_after_New_reachable eq_refl).
Defined.

Lemma trace_is_the_text_of_the_frames_witness :
  Titled.heap titled_process !! 1 = Some (titled_cell 1) /\
  Prefixed.heap prefixed_process !! 0 = Some (prefixed_cell 0) /\
  (exists fs st1,
     Titled.StackFrames 1 titled_process = Some (fs, st1) /\
     Titled.StackTrace 1 titled_process = Some (Titled.stack_of_frames fs, st1) /\
     Titled.StackFrames 1 st1 = Some (fs, st1) /\
     Titled.StackTrace 1 st1 = Some (write_frames fs, st1)) /\
  (exists fs st1,
     Prefixed.StackFrames 0 prefixed_process = Some (fs, st1) /\
     Prefixed.Stack 0 prefixed_process = Some (write_frames fs, st1)).
Proof.
  split; [reflexivity |]. split; [reflexivity |].
  exact (More.trace_is_the_text_of_the_frames titled_process 1 (titled_cell 1)
           prefixed_process 0 (prefixed_cell 0) eq_refl eq_refl).
Defined.



Lemma wrappedError_keeps_cause_and_stack_witness :
  Prefixed.heap prefixed_process !! 1 = Some (prefixed_cell 1) /\
  PrefixedClients.run_all prefixed_later_calls prefixed_process
    = Some prefixed_after_later_calls /\
  exists obj' s,
    Prefixed.heap prefixed_after_later_calls !! 1 = Some obj' /\
    Prefixed.err obj' = Prefixed.err (prefixed_cell 1) /\
    Prefixed.stack obj' = Prefixed.stack (prefixed_cell 1) /\
    Prefixed.frames obj' = Prefixed.frames (prefixed_cell 1) /\
    Prefixed.prefix obj' = s +:+ Prefixed.prefix (prefixed_cell 1) /\
    length (Prefixed.heap prefixed_process)
      <= length (Prefixed.heap prefixed_after_later_calls).
Proof.
  split; [reflexivity |]. split; [reflexivity |].
  exact (More.wrappedError_keeps_cause_and_stack prefixed_process 1
           (prefixed_cell 1) prefixed_later_calls prefixed_after_later_calls
           eq_refl eq_refl).
Defined.




Lemma Stack_field_is_what_ErrorStack_returns_witness :
  Titled.reachable symtab after_New /\
  Titled.heap after_New !! 0 = Some after_New_cell /\
  exists st1,
    Titled.ErrorStack 0 after_New = Some (Titled.Stack after_New_cell, st1).
Proof.
  split; [exact after_New_reachable |]. split; [reflexivity |].
  exact (More.Stack_field_is_what_ErrorStack_returns symtab after_New 0
           after_New_cell after_New_reachable eq_refl).
Defined.

Lemma prefixed_after_later_calls_heap_wf :
  heap_wf Prefixed.err (Prefixed.heap prefixed_after_later_calls).
Proof.
  intros [| [| [| p]]] obj H; vm_compute in H; try discriminate;
    injection H as <-; simpl; try exact I; lia.
Defined.

Lemma WrapPrefix_reaches_outer_wrappers_witness :
  heap_wf Prefixed.err (Prefixed.heap prefixed_after_later_calls) /\
  Prefixed.heap prefixed_after_later_calls !! 2 = Some (prefixed_later_cell 2) /\
  Prefixed.err (prefixed_later_cell 2) = wrapper 0 /\
  Prefixed.Error 0 prefixed_after_later_calls
    = Some ("ctx: boom", prefixed_after_later_calls) /\
  exists st',
    Prefixed.WrapPrefix caller_chain (of_error (wrapper 0)) "outer" 0
      prefixed_after_later_calls = Some (0, st') /\
    Prefixed.heap st' !! 2 = Some (prefixed_later_cell 2) /\
    Prefixed.Error 2 prefixed_after_later_calls =
      Some (Prefixed.with_prefix (prefixed_later_cell 2) "ctx: boom",
            prefixed_after_later_calls) /\
    Prefixed.Error 2 st' =
      Some (Prefixed.with_prefix (prefixed_later_cell 2)
              (if String.eqb "outer" "" &&
                  String.eqb (PrefixedClients.prefix_of prefixed_after_later_calls
                                (wrapper 0)) ""
               then "ctx: boom" else "outer" +:+ ": " +:+ "ctx: boom"), st').
Proof.
  split; [exact prefixed_after_later_calls_heap_wf |]. split; [reflexivity |].
  split; [reflexivity |]. split; [reflexivity |].
  exact (More.WrapPrefix_reaches_outer_wrappers prefixed_after_later_calls
           caller_chain 2 (prefixed_later_cell 2) 0 "outer" 0 "ctx: boom"
           prefixed_after_later_calls_heap_wf eq_refl eq_refl eq_refl).
Defined.

End MoreExamples.
